(** * AFQMC core: Green's function, estimators and continuous propagator

    A shallow embedding of

    - [afqmcpy/estimators.py]: [gab], [local_energy],
      [back_propagated_energy];
    - [pauxy/propagation/continuous.py]: the class [Continuous]
      ([__init__], [apply_exponential], [two_body_propagator],
      [propagate_walker_free], [apply_bound],
      [propagate_walker_phaseless]).

    The estimator routines are pure linear algebra; they are embedded over
    an arbitrary algebraically closed numeric field with MathComp matrices
    (closed examples are stated over the algebraic numbers [algC]).

    The propagator branches on IEEE special values ([math.isinf], comparisons
    that are false on NaN), so its scalars are embedded as real numbers
    extended with [+inf], [-inf] and [NaN]; finite arithmetic is exact
    (rounding and overflow are not modelled). *)

From HB Require Import structures.
From mathcomp Require Import boot order algebra.
From mathcomp Require Import algC.
From Stdlib Require Import ZArith Reals Lra Lia String.

Set Implicit Arguments.
Unset Strict Implicit.
Unset Printing Implicit Defensive.

(** ** Part I: [afqmcpy/estimators.py] *)

Module Estimators.

Import GRing.Theory Num.Theory.
Local Open Scope ring_scope.

Section Greens.

Variable C : numClosedFieldType.

(** [A.conj().T] *)
Definition conjT m n (A : 'M[C]_(m, n)) : 'M[C]_(n, m) := (map_mx Num.conj A)^T.

(** [scipy.linalg.inv]: raises [LinAlgError] on a singular matrix, modelled
    as [None]. *)
Definition scipy_linalg_inv n (S : 'M[C]_n) : option 'M[C]_n :=
  if S \in unitmx then Some (invmx S) else None.

(** [gab(A, B)]:
<<
    inv_O = scipy.linalg.inv((A.conj().T).dot(B))
    GAB = B.dot(inv_O.dot(A.conj().T)).T
    return GAB
>> *)
Definition gab nbasis nocc (A B : 'M[C]_(nbasis, nocc)) : option 'M[C]_nbasis :=
  if scipy_linalg_inv (conjT A *m B) is Some inv_O
  then Some (B *m (inv_O *m conjT A))^T
  else None.

(** The formula of the specification, read literally:
    [S = conj(A)^T * B] and the result [(B * S^-1 * conj(A)^T)^T]. *)
Definition overlap nbasis nocc (A B : 'M[C]_(nbasis, nocc)) : 'M[C]_nocc :=
  conjT A *m B.

Definition green_spec nbasis nocc (A B : 'M[C]_(nbasis, nocc)) : 'M[C]_nbasis :=
  (B *m invmx (overlap A B) *m conjT A)^T.

Section Energy.

Variables nbasis nup ndown : nat.

(** The part of the Hubbard [system] object the estimators read:
    the one-body matrix [system.T] and the on-site strength [system.U]
    ([system.nbasis] is the dimension). *)
Record system := System { T : 'M[C]_nbasis; U : C }.

(** The part of a walker the estimators read: [w.phi] is the list
    [[phi_up, phi_down]] and [w.weight] its weight. *)
Record walker := Walker {
  phi : 'M[C]_(nbasis, nup) * 'M[C]_(nbasis, ndown);
  weight : C
}.

(** [local_energy(system, G)]:
<<
    ke = numpy.sum(system.T * (G[0] + G[1]))
    pe = sum(system.U*G[0][i][i]*G[1][i][i] for i in range(0, system.nbasis))
    return (ke + pe, ke, pe)
>>
    ([*] on arrays is the entrywise product). *)
Definition local_energy (sys : system) (G : 'M[C]_nbasis * 'M[C]_nbasis)
  : C * C * C :=
  let ke := \sum_i \sum_j T sys i j * (G.1 + G.2) i j in
  let pe := \sum_(i < nbasis) U sys * G.1 i i * G.2 i i in
  (ke + pe, ke, pe).

Definition add3 (x y : C * C * C) : C * C * C :=
  (x.1.1 + y.1.1, x.1.2 + y.1.2, x.2 + y.2).

Definition scale3 (a : C) (x : C * C * C) : C * C * C :=
  (a * x.1.1, a * x.1.2, a * x.2).

Definition div3 (x : C * C * C) (d : C) : C * C * C :=
  (x.1.1 / d, x.1.2 / d, x.2 / d).

(** The loop of [back_propagated_energy] over [zip(psi, psit, psib)]; a
    failing [gab] aborts it. *)
Fixpoint bp_loop (sys : system) (estimates : C * C * C)
    (ws : seq (walker * walker * walker)) : option (C * C * C) :=
  match ws with
  | [::] => Some estimates
  | (w, wt, wb) :: rest =>
      if gab (phi wb).1 (phi wt).1 is Some GTB0 then
        if gab (phi wb).2 (phi wt).2 is Some GTB1 then
          bp_loop sys
            (add3 estimates (scale3 (weight w) (local_energy sys (GTB0, GTB1))))
            rest
        else None
      else None
  end.

(** [back_propagated_energy(system, psi, psit, psib)]:
<<
    denominator = sum(w.weight for w in psi)
    estimates = numpy.zeros(3)
    GTB = [0, 0]
    for (w, wt, wb) in zip(psi, psit, psib):
        GTB[0] = gab(wb.phi[0], wt.phi[0])
        GTB[1] = gab(wb.phi[1], wt.phi[1])
        estimates = estimates + w.weight*numpy.array(list(local_energy(system, GTB)))
    return estimates / denominator
>>
    A zero denominator makes numpy return non-finite entries (with a
    warning); the field [C] has no such values and the model returns
    [None] there. *)
Definition back_propagated_energy (sys : system) (psi psit psib : seq walker)
  : option (C * C * C) :=
  let denominator := foldl (fun acc w => acc + weight w) 0 psi in
  if bp_loop sys (0, 0, 0) (zip (zip psi psit) psib) is Some estimates then
    if denominator == 0 then None else Some (div3 estimates denominator)
  else None.

End Energy.

(** *** Properties of [gab] *)

Lemma gab_unit nbasis nocc (A B : 'M[C]_(nbasis, nocc)) :
  conjT A *m B \in unitmx ->
  gab A B = Some (B *m (invmx (conjT A *m B) *m conjT A))^T.
Proof. by rewrite /gab /scipy_linalg_inv => ->. Qed.

Lemma gab_singular nbasis nocc (A B : 'M[C]_(nbasis, nocc)) :
  conjT A *m B \notin unitmx -> gab A B = None.
Proof. by rewrite /gab /scipy_linalg_inv => /negbTE ->. Qed.

Lemma gab_Some_unit nbasis nocc (A B : 'M[C]_(nbasis, nocc)) G :
  gab A B = Some G ->
  conjT A *m B \in unitmx /\ G = (B *m (invmx (conjT A *m B) *m conjT A))^T.
Proof.
rewrite /gab /scipy_linalg_inv.
by case: ifP => // HS [<-].
Qed.

Lemma gab_unit_spec nbasis nocc (A B : 'M[C]_(nbasis, nocc)) :
  overlap A B \in unitmx -> gab A B = Some (green_spec A B).
Proof.
move=> HS; rewrite (gab_unit HS) /green_spec /overlap.
by rewrite mulmxA.
Qed.

Lemma gab_Some_idem nbasis nocc (A B : 'M[C]_(nbasis, nocc)) G :
  gab A B = Some G -> G *m G = G.
Proof.
case/gab_Some_unit=> HS ->.
rewrite -trmx_mul; congr (_^T).
rewrite -!mulmxA; congr (_ *m _); congr (_ *m _).
by rewrite !mulmxA mulmxV // mul1mx.
Qed.

(** C1. Whenever the overlap [S = conj(A)^T * B] is invertible, [gab A B]
    returns exactly the matrix of the specification,
    [(B * S^-1 * conj(A)^T)^T]. *)
Theorem gab_returns_green_spec nbasis nocc (A B : 'M[C]_(nbasis, nocc)) :
  overlap A B \in unitmx -> gab A B = Some (green_spec A B).
Proof. exact: gab_unit_spec. Qed.

(** C10. Whenever the overlap is invertible, [gab A B] returns a matrix and
    that matrix is idempotent: an (oblique) projector for any pair of
    non-orthogonal determinants, not only for [A = B]. *)
Theorem gab_idempotent nbasis nocc (A B : 'M[C]_(nbasis, nocc)) :
  overlap A B \in unitmx ->
  exists2 G, gab A B = Some G & G *m G = G.
Proof.
move=> HS; exists (green_spec A B); first exact: gab_unit_spec.
exact: gab_Some_idem (gab_unit_spec HS).
Qed.

(** C6 (as the code behaves). [gab] makes no conditioning test of its own:
    the only failure is the one raised by the inversion routine on an exactly
    singular overlap (zero determinant); for every other overlap, however
    small its determinant, the formula's value is returned. *)
Theorem gab_fails_only_when_singular nbasis nocc (A B : 'M[C]_(nbasis, nocc)) :
  gab A B = if \det (overlap A B) == 0 then None else Some (green_spec A B).
Proof.
case: ifPn => [/eqP H0|Hn0].
  by apply: gab_singular; rewrite unitmxE unitfE -/(overlap A B) H0 eqxx.
by apply: gab_unit_spec; rewrite unitmxE unitfE.
Qed.

(** C5 (as the code behaves). For [A] with orthonormal columns, [gab A A] is
    the idempotent projector [conj(A) * A^T] (that is, [(A * conj(A)^T)^T])
    itself, not its complement. *)
Theorem gab_orthonormal_projector nbasis nocc (A : 'M[C]_(nbasis, nocc)) :
  conjT A *m A = 1%:M ->
  gab A A = Some (map_mx Num.conj A *m A^T) /\
  (map_mx Num.conj A *m A^T) *m (map_mx Num.conj A *m A^T)
    = map_mx Num.conj A *m A^T.
Proof.
move=> HA.
have HG : gab A A = Some (map_mx Num.conj A *m A^T).
  rewrite gab_unit HA ?unitmx1 // invmx1 mul1mx.
  by rewrite trmx_mul /conjT trmxK.
by split=> //; apply: gab_Some_idem HG.
Qed.

Section BackPropagation.

Variables nbasis nup ndown : nat.
Notation walker := (walker nbasis nup ndown).
Notation system := (system nbasis).

(** C9. For a single walker of positive weight and with
    [psi == psit == psib], [back_propagated_energy] returns the local energy
    (total, kinetic, potential) evaluated on the determinant's own Green's
    functions [gab(phi_s, phi_s)]: the weight cancels against the
    denominator. *)
Theorem back_propagated_energy_single (sys : system) (w : walker) G0 G1 :
  0 < weight w ->
  gab (phi w).1 (phi w).1 = Some G0 ->
  gab (phi w).2 (phi w).2 = Some G1 ->
  back_propagated_energy sys [:: w] [:: w] [:: w]
    = Some (local_energy sys (G0, G1)).
Proof.
move=> Hw HG0 HG1.
rewrite /back_propagated_energy /= HG0 HG1 add0r.
have Hw0 : weight w != 0 by exact: lt0r_neq0.
rewrite (negbTE Hw0); congr Some.
rewrite /div3 /add3 /scale3 /= !add0r.
by rewrite ![weight w * _]mulrC !mulfK.
Qed.

End BackPropagation.

End Greens.

(** *** Closed instances over the algebraic numbers *)

Definition I1 : 'M[algC]_(1, 1) := 1%:M.

Lemma conjT_1 n : conjT (1%:M : 'M[algC]_n) = 1%:M.
Proof. by rewrite /conjT map_mx1 trmx1. Qed.

Lemma overlap_I1_unit : overlap I1 I1 \in unitmx.
Proof. by rewrite /overlap conjT_1 mul1mx unitmx1. Qed.

Lemma gab_I1 : gab I1 I1 = Some I1.
Proof.
rewrite (gab_unit overlap_I1_unit).
by rewrite conjT_1 mul1mx invmx1 !mulmx1 trmx1.
Qed.

(** Witness of C1: the 1x1 identity determinant. *)
Lemma gab_returns_green_spec_witness :
  overlap I1 I1 \in unitmx /\ gab I1 I1 = Some (green_spec I1 I1).
Proof.
split; first exact: overlap_I1_unit.
exact: (gab_returns_green_spec overlap_I1_unit).
Defined.

(** Witness of C10. *)
Lemma gab_idempotent_witness :
  overlap I1 I1 \in unitmx /\ exists2 G, gab I1 I1 = Some G & G *m G = G.
Proof.
split; first exact: overlap_I1_unit.
exact: (gab_idempotent overlap_I1_unit).
Defined.

(** C5, counterexample: the 1x1 determinant [A = (1)] is orthonormal,
    [gab A A] is [(1)], whereas [I - A * A^T] is [(0)]. *)
Lemma gab_orthonormal_not_complement :
  conjT I1 *m I1 = 1%:M /\ gab I1 I1 <> Some (1%:M - I1 *m I1^T).
Proof.
split; first by rewrite conjT_1 mul1mx.
rewrite gab_I1 trmx1 mulmx1 subrr => -[] /matrixP /(_ ord0 ord0).
by rewrite !mxE eqxx /= => /eqP; rewrite oner_eq0.
Qed.

(** Witness of C5 (as the code behaves). *)
Lemma gab_orthonormal_projector_witness :
  conjT I1 *m I1 = 1%:M /\
  gab I1 I1 = Some (map_mx Num.conj I1 *m I1^T).
Proof.
have H : conjT I1 *m I1 = 1%:M by rewrite conjT_1 mul1mx.
split=> //.
exact: (proj1 (gab_orthonormal_projector H)).
Defined.

(** A pair of 2x2 determinants whose overlap is [diag(1, 10^-30)]. *)
Definition tiny : algC := 10%:R ^- 30.

Definition A2 : 'M[algC]_(2, 2) := 1%:M.

Definition B2 : 'M[algC]_(2, 2) :=
  diag_mx (\row_(j < 2) (if j == ord0 then 1 else tiny)).

Lemma tiny_neq0 : tiny != 0.
Proof. by rewrite /tiny invr_eq0 expf_eq0 /= pnatr_eq0. Qed.

Lemma det_overlap_A2_B2 : \det (overlap A2 B2) = tiny.
Proof.
rewrite /overlap conjT_1 mul1mx det_diag.
by rewrite !big_ord_recl big_ord0 !mxE /= mul1r mulr1.
Qed.

(** C6, counterexample: the overlap of [A2] and [B2] has determinant
    [10^-30] (and condition number [10^30]), yet [gab] reports nothing and
    returns the identity matrix. *)
Lemma gab_near_singular_undetected :
  \det (overlap A2 B2) = tiny /\ gab A2 B2 = Some 1%:M.
Proof.
split; first exact: det_overlap_A2_B2.
have HS : conjT A2 *m B2 \in unitmx.
  by rewrite unitmxE unitfE -/(overlap A2 B2) det_overlap_A2_B2 tiny_neq0.
rewrite (gab_unit HS) conjT_1 mul1mx mulmx1 mulmxV ?trmx1 //.
by move: HS; rewrite conjT_1 mul1mx.
Qed.

(** A one-site Hubbard system and a walker on it. *)
Definition sys1 : system algC 1 := System 1%:M 1.

Definition w1 : walker algC 1 1 1 := Walker (I1, I1) 1.

(** Witness of C9. *)
Lemma back_propagated_energy_single_witness :
  0 < weight w1 /\
  back_propagated_energy sys1 [:: w1] [:: w1] [:: w1]
    = Some (local_energy sys1 (I1, I1)).
Proof.
split; first exact: ltr01.
exact: (@back_propagated_energy_single _ _ _ _ sys1 w1 I1 I1 ltr01 gab_I1 gab_I1).
Defined.

End Estimators.

(** ** Part II: [pauxy/propagation/continuous.py] *)

Module Propagation.

Local Open Scope R_scope.

(** *** Python exceptions and fallible computations *)

Inductive exn :=
| ZeroDivisionError
| ValueError
| IndexError
| AttributeError.

Inductive result (A : Type) :=
| Ok (a : A)
| Raise (e : exn).

Arguments Ok {A} a.
Arguments Raise {A} e.

Definition bind A B (m : result A) (k : A -> result B) : result B :=
  match m with
  | Ok a => k a
  | Raise e => Raise e
  end.

Notation "'let*' x ':=' m 'in' k" := (bind m (fun x => k))
  (at level 200, x pattern, m at level 100, k at level 200).

(** A [for] loop whose body may raise. *)
Fixpoint for_each A S (body : S -> A -> result S) (s : S) (xs : seq A)
  : result S :=
  match xs with
  | [::] => Ok s
  | x :: xs' => let* s' := body s x in for_each body s' xs'
  end.

(** *** Floats

    A Python [float]: a real number or one of the IEEE special values.
    Signed zeros, rounding, underflow and overflow are not represented: a
    finite result is the exact real number, and the [OverflowError] that
    [math.exp], [cmath.exp] and [cmath.polar] raise when a result exceeds
    the largest double does not occur in the model. A statement about the
    code is therefore made under the hypothesis that the call at hand
    returns, or on arguments that are far from the overflow range. *)

Inductive pyfloat :=
| Fin (x : R)
| PInf
| NInf
| NaN.

Definition Rsign (x : R) : comparison :=
  match total_order_T x 0 with
  | inleft (left _) => Lt
  | inleft (right _) => Eq
  | inright _ => Gt
  end.

Definition fneg (a : pyfloat) : pyfloat :=
  match a with
  | Fin x => Fin (- x)
  | PInf => NInf
  | NInf => PInf
  | NaN => NaN
  end.

Definition fadd (a b : pyfloat) : pyfloat :=
  match a, b with
  | NaN, _ | _, NaN => NaN
  | Fin x, Fin y => Fin (x + y)
  | PInf, NInf | NInf, PInf => NaN
  | PInf, _ | _, PInf => PInf
  | NInf, _ | _, NInf => NInf
  end.

Definition fsub (a b : pyfloat) : pyfloat := fadd a (fneg b).

(** The infinity carrying the sign of [x], [NaN] for a zero [x]. *)
Definition inf_signed (x : R) (positive : bool) : pyfloat :=
  match Rsign x with
  | Gt => if positive then PInf else NInf
  | Lt => if positive then NInf else PInf
  | Eq => NaN
  end.

Definition fmul (a b : pyfloat) : pyfloat :=
  match a, b with
  | NaN, _ | _, NaN => NaN
  | Fin x, Fin y => Fin (x * y)
  | Fin x, PInf | PInf, Fin x => inf_signed x true
  | Fin x, NInf | NInf, Fin x => inf_signed x false
  | PInf, PInf | NInf, NInf => PInf
  | PInf, NInf | NInf, PInf => NInf
  end.

(** Division of C doubles (no exception): [x/0] is an infinity, [0/0] and
    [inf/inf] are [NaN]. *)
Definition fdiv (a b : pyfloat) : pyfloat :=
  match a, b with
  | NaN, _ | _, NaN => NaN
  | Fin x, Fin y =>
      match Rsign y with
      | Eq => inf_signed x true
      | _ => Fin (x / y)
      end
  | Fin _, (PInf | NInf) => Fin 0
  | PInf, Fin y => if Rsign y is Lt then NInf else PInf
  | NInf, Fin y => if Rsign y is Lt then PInf else NInf
  | (PInf | NInf), (PInf | NInf) => NaN
  end.

Definition fabs (a : pyfloat) : pyfloat :=
  match a with
  | Fin x => Fin (Rabs x)
  | PInf | NInf => PInf
  | NaN => NaN
  end.

(** [a < b]; every comparison with [NaN] is false. *)
Definition flt (a b : pyfloat) : bool :=
  match a, b with
  | NaN, _ | _, NaN => false
  | Fin x, Fin y => if Rlt_dec x y then true else false
  | NInf, (Fin _ | PInf) => true
  | Fin _, PInf => true
  | _, _ => false
  end.

(** [a > b] *)
Definition fgt (a b : pyfloat) : bool := flt b a.

(** [a == b] *)
Definition feq (a b : pyfloat) : bool :=
  match a, b with
  | Fin x, Fin y => if Req_dec_T x y then true else false
  | PInf, PInf | NInf, NInf => true
  | _, _ => false
  end.

(** [a >= b] *)
Definition fge (a b : pyfloat) : bool := fgt a b || feq a b.

Definition is_finite (a : pyfloat) : bool :=
  if a is Fin _ then true else false.

(** [math.isinf] *)
Definition math_isinf (a : pyfloat) : bool :=
  match a with
  | PInf | NInf => true
  | _ => false
  end.

Definition is_nan (a : pyfloat) : bool :=
  if a is NaN then true else false.

(** Python's [a / b] on floats. *)
Definition float_div (a b : pyfloat) : result pyfloat :=
  if feq b (Fin 0) then Raise ZeroDivisionError else Ok (fdiv a b).

(** Python's [a ** 0.5] on floats. A negative base gives a Python [complex],
    which the float-typed attributes of the model cannot hold: it is
    reported as [ValueError]. *)
Definition float_pow_half (a : pyfloat) : result pyfloat :=
  match a with
  | Fin x => if Rlt_dec x 0 then Raise ValueError else Ok (Fin (sqrt x))
  | PInf | NInf => Ok PInf
  | NaN => Ok NaN
  end.

(** [math.exp] *)
Definition math_exp (a : pyfloat) : pyfloat :=
  match a with
  | Fin x => Fin (exp x)
  | PInf => PInf
  | NInf => Fin 0
  | NaN => NaN
  end.

(** [math.cos]: a domain error at the infinities. *)
Definition math_cos (a : pyfloat) : result pyfloat :=
  match a with
  | Fin x => Ok (Fin (cos x))
  | NaN => Ok NaN
  | PInf | NInf => Raise ValueError
  end.

(** [max(0, x)]: the builtin keeps its first argument unless a later one
    compares greater. *)
Definition max0 (x : pyfloat) : pyfloat :=
  if fgt x (Fin 0) then x else Fin 0.

(** [math.hypot] of two floats: an infinite argument wins over [NaN]. *)
Definition hypot (a b : pyfloat) : pyfloat :=
  match a, b with
  | (PInf | NInf), _ | _, (PInf | NInf) => PInf
  | NaN, _ | _, NaN => NaN
  | Fin x, Fin y => Fin (sqrt (x * x + y * y))
  end.

(** The angle of the point [(x, y)], in [(-pi, pi]]. *)
Definition Ratan2 (y x : R) : R :=
  match Rsign x with
  | Gt => atan (y / x)
  | Lt => if Rsign y is Lt then atan (y / x) - PI else atan (y / x) + PI
  | Eq =>
      match Rsign y with
      | Gt => PI / 2
      | Lt => - (PI / 2)
      | Eq => 0
      end
  end.

(** [math.atan2] with its special values. *)
Definition atan2 (b a : pyfloat) : pyfloat :=
  match b, a with
  | NaN, _ | _, NaN => NaN
  | Fin y, Fin x => Fin (Ratan2 y x)
  | Fin y, PInf => Fin 0
  | Fin y, NInf => if Rsign y is Lt then Fin (- PI) else Fin PI
  | PInf, Fin _ => Fin (PI / 2)
  | NInf, Fin _ => Fin (- (PI / 2))
  | PInf, PInf => Fin (PI / 4)
  | NInf, PInf => Fin (- (PI / 4))
  | PInf, NInf => Fin (3 * PI / 4)
  | NInf, NInf => Fin (- (3 * PI / 4))
  end.

(** [math.log] on the values a modulus can take. *)
Definition flog (a : pyfloat) : pyfloat :=
  match a with
  | Fin x =>
      match Rsign x with
      | Gt => Fin (ln x)
      | Eq => NInf
      | Lt => NaN
      end
  | PInf => PInf
  | NInf | NaN => NaN
  end.

(** *** Complex numbers

    A Python [complex] is a pair of floats; its arithmetic is the textbook
    formula applied to the components, which is what spreads [NaN] when a
    component is infinite. *)

Record pycomplex := Cx { re : pyfloat; im : pyfloat }.

(** A float operand of a mixed operation is promoted to a complex. *)
Definition of_float (a : pyfloat) : pycomplex := Cx a (Fin 0).

Definition c0 : pycomplex := Cx (Fin 0) (Fin 0).

(** [1j] *)
Definition c1j : pycomplex := Cx (Fin 0) (Fin 1).

Definition cneg (a : pycomplex) : pycomplex := Cx (fneg (re a)) (fneg (im a)).

Definition cadd (a b : pycomplex) : pycomplex :=
  Cx (fadd (re a) (re b)) (fadd (im a) (im b)).

Definition csub (a b : pycomplex) : pycomplex :=
  Cx (fsub (re a) (re b)) (fsub (im a) (im b)).

Definition cmul (a b : pycomplex) : pycomplex :=
  Cx (fsub (fmul (re a) (re b)) (fmul (im a) (im b)))
     (fadd (fmul (re a) (im b)) (fmul (im a) (re b))).

(** The quotient routine behind [a / b] (Smith's method), for a divisor
    that is not [0+0j]. *)
Definition c_quot (a b : pycomplex) : pycomplex :=
  let abs_breal := fabs (re b) in
  let abs_bimag := fabs (im b) in
  if fge abs_breal abs_bimag then
    let ratio := fdiv (im b) (re b) in
    let denom := fadd (re b) (fmul (im b) ratio) in
    Cx (fdiv (fadd (re a) (fmul (im a) ratio)) denom)
       (fdiv (fsub (im a) (fmul (re a) ratio)) denom)
  else if fge abs_bimag abs_breal then
    let ratio := fdiv (re b) (im b) in
    let denom := fadd (fmul (re b) ratio) (im b) in
    Cx (fdiv (fadd (fmul (re a) ratio) (im a)) denom)
       (fdiv (fsub (fmul (im a) ratio) (re a)) denom)
  else Cx NaN NaN.

(** Python's [a / b] on complex numbers. *)
Definition complex_div (a b : pycomplex) : result pycomplex :=
  if feq (re b) (Fin 0) && feq (im b) (Fin 0) then Raise ZeroDivisionError
  else Ok (c_quot a b).

(** [abs(z)] *)
Definition c_abs (z : pycomplex) : pyfloat := hypot (re z) (im z).

(** [cmath.polar]: modulus and phase. *)
Definition cmath_polar (z : pycomplex) : pyfloat * pyfloat :=
  (c_abs z, atan2 (im z) (re z)).

(** [cmath.log]; the logarithm of zero is a domain error. *)
Definition cmath_log (z : pycomplex) : result pycomplex :=
  if feq (re z) (Fin 0) && feq (im z) (Fin 0) then Raise ValueError
  else Ok (Cx (flog (c_abs z)) (atan2 (im z) (re z))).

(** [cmath.exp], with the special values of C99 Annex G as Python applies
    them; an infinite imaginary part is a domain error unless the real part
    is [-inf] or [NaN]. *)
Definition cmath_exp (z : pycomplex) : result pycomplex :=
  match re z, im z with
  | Fin x, Fin y => Ok (Cx (Fin (exp x * cos y)) (Fin (exp x * sin y)))
  | Fin _, (PInf | NInf) => Raise ValueError
  | Fin _, NaN => Ok (Cx NaN NaN)
  | NInf, _ => Ok c0
  | PInf, Fin y =>
      if Rsign y is Eq then Ok (Cx PInf (Fin 0))
      else Ok (Cx (if Rlt_dec (cos y) 0 then NInf else PInf)
                  (if Rlt_dec (sin y) 0 then NInf else PInf))
  | PInf, (PInf | NInf) => Raise ValueError
  | PInf, NaN => Ok (Cx PInf NaN)
  | NaN, Fin y => if Rsign y is Eq then Ok (Cx NaN (Fin 0)) else Ok (Cx NaN NaN)
  | NaN, _ => Ok (Cx NaN NaN)
  end.

(** *** Arrays of scalars ([numpy] one-dimensional arrays) *)

(** Shapes of an elementwise operation: equal lengths, or one operand of
    length one that is broadcast; anything else raises [ValueError]. *)
Definition broadcast2 A B (f : pycomplex -> pycomplex -> pycomplex)
    (toA : A -> pycomplex) (toB : B -> pycomplex) (x : seq A) (y : seq B)
  : result (seq pycomplex) :=
  if size x == size y then
    Ok [seq f (toA p.1) (toB p.2) | p <- zip x y]
  else match x, y with
       | [:: a], _ => Ok [seq f (toA a) (toB b) | b <- y]
       | _, [:: b] => Ok [seq f (toA a) (toB b) | a <- x]
       | _, _ => Raise ValueError
       end.

(** [x - y] for a float array [x] and a complex array [y]. *)
Definition array_sub (x : seq pyfloat) (y : seq pycomplex)
  : result (seq pycomplex) :=
  broadcast2 csub of_float (fun z => z) x y.

(** [x.dot(y)] on one-dimensional arrays: the sum of the products, with no
    conjugation; the lengths must agree. *)
Definition array_dot (x y : seq pycomplex) : result pycomplex :=
  if size x == size y then
    Ok (foldl (fun acc p => cadd acc (cmul p.1 p.2)) c0 (zip x y))
  else Raise ValueError.

(** *** Basic facts about the scalar model *)

Lemma Rsign_gt x : 0 < x -> Rsign x = Gt.
Proof.
unfold Rsign; destruct (total_order_T x 0) as [[H|H]|H]; intros; try Lra.lra.
reflexivity.
Qed.

Lemma Rsign_lt x : x < 0 -> Rsign x = Lt.
Proof.
unfold Rsign; destruct (total_order_T x 0) as [[H|H]|H]; intros; try Lra.lra.
reflexivity.
Qed.

Lemma Rsign_0 : Rsign 0 = Eq.
Proof.
unfold Rsign; destruct (total_order_T 0 0) as [[H|H]|H]; try Lra.lra.
reflexivity.
Qed.

Lemma Rabs_le_iff x b : Rabs x <= b <-> - b <= x <= b.
Proof. unfold Rabs; destruct (Rcase_abs x); split; intros; Lra.lra. Qed.

Lemma flt_Fin x y : flt (Fin x) (Fin y) = true <-> x < y.
Proof. simpl; destruct (Rlt_dec x y); split; intros; try easy. Qed.

Lemma flt_Fin_false x y : flt (Fin x) (Fin y) = false <-> y <= x.
Proof. simpl; destruct (Rlt_dec x y); split; intros; try easy; Lra.lra. Qed.

Lemma feq_Fin x y : feq (Fin x) (Fin y) = true <-> x = y.
Proof. simpl; destruct (Req_dec_T x y); split; intros; try easy. Qed.

Lemma feq_Fin_false x y : feq (Fin x) (Fin y) = false <-> x <> y.
Proof. simpl; destruct (Req_dec_T x y); split; intros; try easy. Qed.

Lemma fdiv_Fin x y : y <> 0 -> fdiv (Fin x) (Fin y) = Fin (x / y).
Proof.
intros Hy; simpl.
destruct (Rtotal_order y 0) as [H|[H|H]]; try Lra.lra.
- now rewrite (Rsign_lt H).
- now rewrite (Rsign_gt H).
Qed.

Lemma hypot_00 : hypot (Fin 0) (Fin 0) = Fin 0.
Proof.
simpl; f_equal.
replace (0 * 0 + 0 * 0) with 0 by ring.
exact sqrt_0.
Qed.

(** The cosine factor [max(0, math.cos(t))] is a finite number in
    [[0, 1]] whenever the cosine is defined. *)
Lemma max0_cos t c :
  math_cos t = Ok c -> exists c', max0 c = Fin c' /\ 0 <= c' <= 1.
Proof.
destruct t as [x| | |]; simpl; intros H; try discriminate; injection H as <-.
- unfold max0, fgt; simpl.
  destruct (Rlt_dec 0 (cos x)).
  + exists (cos x); split; [reflexivity|].
    generalize (COS_bound x); Lra.lra.
  + exists 0; split; [reflexivity|Lra.lra].
- exists 0; split; [reflexivity|Lra.lra].
Qed.

(** A modulus is never negative and never [-inf]. *)
Lemma hypot_cases a b :
  hypot a b = PInf \/ hypot a b = NaN \/
  exists m, hypot a b = Fin m /\ 0 <= m.
Proof.
destruct a as [x| | |], b as [y| | |]; simpl; auto.
right; right; exists (sqrt (x * x + y * y)); split; [reflexivity|].
apply sqrt_pos.
Qed.

(** Division of a finite complex number by a positive real. *)
Lemma c_quot_pos_real a b m :
  0 < m ->
  c_quot (Cx (Fin a) (Fin b)) (of_float (Fin m)) = Cx (Fin (a / m)) (Fin (b / m)).
Proof.
intros Hm; unfold c_quot, of_float, fge, fgt.
cbn [re im fabs].
assert (Hlt : flt (Fin (Rabs 0)) (Fin (Rabs m)) = true).
{ apply flt_Fin; rewrite Rabs_R0; apply Rabs_pos_lt; Lra.lra. }
rewrite Hlt; cbn [orb].
assert (Hm0 : m <> 0) by Lra.lra.
rewrite (fdiv_Fin 0 Hm0).
cbn [fmul fadd fsub fneg].
assert (Hd : m + 0 * (0 / m) <> 0).
{ unfold Rdiv; rewrite !Rmult_0_l; Lra.lra. }
rewrite !(fdiv_Fin _ Hd).
f_equal; f_equal; field; Lra.lra.
Qed.

(** Finite complex numbers, and those different from [0+0j]. *)
Definition cfin (z : pycomplex) : bool := is_finite (re z) && is_finite (im z).

Definition cnonzero (z : pycomplex) : bool :=
  ~~ (feq (re z) (Fin 0) && feq (im z) (Fin 0)).

Lemma cfinP z : cfin z -> exists a b, z = Cx (Fin a) (Fin b).
Proof.
destruct z as [[a| | |] [b| | |]]; cbn; try discriminate.
intros _; now exists a, b.
Qed.

Lemma cnonzero_Fin a b : cnonzero (Cx (Fin a) (Fin b)) -> a <> 0 \/ b <> 0.
Proof.
unfold cnonzero; cbn [re im].
destruct (feq (Fin a) (Fin 0)) eqn:Ea.
- destruct (feq (Fin b) (Fin 0)) eqn:Eb; [discriminate|].
  intros _; right; now apply feq_Fin_false.
- intros _; left; now apply feq_Fin_false.
Qed.

Lemma Rabs_eq_0 x : Rabs x <= 0 -> x = 0.
Proof. unfold Rabs; destruct (Rcase_abs x); intros; Lra.lra. Qed.

(** The quotient of finite complex numbers is the textbook one. *)
Lemma c_quot_finite a b c d :
  c <> 0 \/ d <> 0 ->
  c_quot (Cx (Fin a) (Fin b)) (Cx (Fin c) (Fin d))
    = Cx (Fin ((a * c + b * d) / (c * c + d * d)))
         (Fin ((b * c - a * d) / (c * c + d * d))).
Proof.
intros Hnz.
assert (HD : c * c + d * d <> 0) by (destruct Hnz; Lra.nra).
unfold c_quot, fge, fgt; cbn [re im fabs].
destruct (flt (Fin (Rabs d)) (Fin (Rabs c)) || feq (Fin (Rabs c)) (Fin (Rabs d)))
  eqn:E1.
- assert (Hle : Rabs d <= Rabs c).
  { move/orP: E1 => [E|E];
      [apply flt_Fin in E|apply feq_Fin in E]; Lra.lra. }
  assert (Hc : c <> 0).
  { intros Hc0; rewrite Hc0 Rabs_R0 in Hle.
    apply Rabs_eq_0 in Hle; destruct Hnz; Lra.lra. }
  rewrite (fdiv_Fin d Hc); cbn [fmul fadd fsub fneg].
  assert (Hden : c + d * (d / c) <> 0).
  { intros H0; apply HD.
    replace (c * c + d * d) with (c * (c + d * (d / c))) by (field; exact Hc).
    rewrite H0; ring. }
  rewrite !(fdiv_Fin _ Hden).
  f_equal; f_equal; field; auto.
- destruct (flt (Fin (Rabs c)) (Fin (Rabs d)) || feq (Fin (Rabs d)) (Fin (Rabs c)))
    eqn:E2.
  + assert (Hle : Rabs c <= Rabs d).
    { move/orP: E2 => [E|E];
        [apply flt_Fin in E|apply feq_Fin in E]; Lra.lra. }
    assert (Hd : d <> 0).
    { intros Hd0; rewrite Hd0 Rabs_R0 in Hle.
      apply Rabs_eq_0 in Hle; destruct Hnz; Lra.lra. }
    rewrite (fdiv_Fin c Hd); cbn [fmul fadd fsub fneg].
    assert (Hden : c * (c / d) + d <> 0).
    { intros H0; apply HD.
      replace (c * c + d * d) with (d * (c * (c / d) + d)) by (field; exact Hd).
      rewrite H0; ring. }
    rewrite !(fdiv_Fin _ Hden).
    f_equal; f_equal; field; auto.
  + exfalso.
    move/norP: (negbT E1) => [/negbTE A1 /negbTE A2].
    move/norP: (negbT E2) => [/negbTE B1 _].
    apply flt_Fin_false in A1; apply flt_Fin_false in B1.
    apply feq_Fin_false in A2; Lra.lra.
Qed.

Lemma complex_div_finite a b c d :
  c <> 0 \/ d <> 0 ->
  complex_div (Cx (Fin a) (Fin b)) (Cx (Fin c) (Fin d))
    = Ok (Cx (Fin ((a * c + b * d) / (c * c + d * d)))
             (Fin ((b * c - a * d) / (c * c + d * d)))).
Proof.
intros Hnz; unfold complex_div; cbn [re im].
rewrite (c_quot_finite a b Hnz).
destruct (feq (Fin c) (Fin 0)) eqn:Ec; [|reflexivity].
destruct (feq (Fin d) (Fin 0)) eqn:Ed; [|reflexivity].
apply feq_Fin in Ec; apply feq_Fin in Ed; destruct Hnz; contradiction.
Qed.

(** A quotient is zero only when its numerator is. *)
Lemma quotient_nonzero a b c d :
  a <> 0 \/ b <> 0 -> c <> 0 \/ d <> 0 ->
  (a * c + b * d) / (c * c + d * d) <> 0 \/
  (b * c - a * d) / (c * c + d * d) <> 0.
Proof.
intros Hab Hcd.
assert (HD : 0 < c * c + d * d) by (destruct Hcd; Lra.nra).
assert (HN : 0 < a * a + b * b) by (destruct Hab; Lra.nra).
destruct (Req_dec (a * c + b * d) 0) as [H1|H1].
- right; intros H2.
  assert (H3 : b * c - a * d = 0).
  { replace (b * c - a * d)
      with ((b * c - a * d) / (c * c + d * d) * (c * c + d * d))
      by (field; Lra.lra).
    rewrite H2; ring. }
  assert (H4 : (a * a + b * b) * (c * c + d * d) = 0).
  { replace ((a * a + b * b) * (c * c + d * d))
      with ((a * c + b * d) * (a * c + b * d)
            + (b * c - a * d) * (b * c - a * d)) by ring.
    rewrite H1 H3; ring. }
  assert (0 < (a * a + b * b) * (c * c + d * d))
    by (apply Rmult_lt_0_compat; assumption).
  Lra.lra.
- left; intros H2; apply H1.
  replace (a * c + b * d)
    with ((a * c + b * d) / (c * c + d * d) * (c * c + d * d))
    by (field; Lra.lra).
  rewrite H2; ring.
Qed.

Lemma cmath_log_finite a b :
  a <> 0 \/ b <> 0 ->
  cmath_log (Cx (Fin a) (Fin b))
    = Ok (Cx (Fin (ln (sqrt (a * a + b * b)))) (Fin (Ratan2 b a))).
Proof.
intros Hnz; unfold cmath_log, c_abs; cbn [re im hypot flog atan2].
assert (Hs : 0 < sqrt (a * a + b * b)).
{ apply sqrt_lt_R0; destruct Hnz; Lra.nra. }
rewrite (Rsign_gt Hs).
destruct (feq (Fin a) (Fin 0)) eqn:Ea; [|reflexivity].
destruct (feq (Fin b) (Fin 0)) eqn:Eb; [|reflexivity].
apply feq_Fin in Ea; apply feq_Fin in Eb; destruct Hnz; contradiction.
Qed.

(** Unfolds complex arithmetic down to the float operations and evaluates
    those on finite and special arguments. *)
Ltac cx_simpl :=
  unfold cadd, csub, cmul, cneg, of_float, c1j, c0;
  cbn [re im fadd fsub fmul fneg].

Lemma cfin_cadd a b : cfin a -> cfin b -> cfin (cadd a b).
Proof.
move=> /cfinP [a1 [a2 ->]] /cfinP [b1 [b2 ->]]; reflexivity.
Qed.

Lemma cfin_csub a b : cfin a -> cfin b -> cfin (csub a b).
Proof.
move=> /cfinP [a1 [a2 ->]] /cfinP [b1 [b2 ->]]; reflexivity.
Qed.

Lemma cfin_cmul a b : cfin a -> cfin b -> cfin (cmul a b).
Proof.
move=> /cfinP [a1 [a2 ->]] /cfinP [b1 [b2 ->]]; reflexivity.
Qed.

Lemma cfin_cneg a : cfin a -> cfin (cneg a).
Proof. move=> /cfinP [a1 [a2 ->]]; reflexivity. Qed.

Lemma cfin_of_float x : is_finite x -> cfin (of_float x).
Proof. destruct x; easy. Qed.

(** [cmath.exp] is defined on every finite argument, and its value is
    finite and not zero. *)
Lemma cmath_exp_finite z :
  cfin z -> exists e, cmath_exp z = Ok e /\ cfin e /\ cnonzero e.
Proof.
move=> /cfinP [x [y ->]]; eexists; split; [reflexivity|split; [reflexivity|]].
unfold cnonzero; cbn [re im].
destruct (feq (Fin (exp x * cos y)) (Fin 0)) eqn:Ec; [|reflexivity].
destruct (feq (Fin (exp x * sin y)) (Fin 0)) eqn:Es; [|reflexivity].
exfalso; apply feq_Fin in Ec; apply feq_Fin in Es.
assert (Hx := exp_pos x).
assert (Hc : cos y = 0).
{ apply Rmult_integral in Ec; destruct Ec; [Lra.lra|assumption]. }
assert (Hs : sin y = 0).
{ apply Rmult_integral in Es; destruct Es; [Lra.lra|assumption]. }
generalize (sin2_cos2 y); unfold Rsqr; rewrite Hc Hs; Lra.lra.
Qed.

(** An infinite real factor makes the modulus of a finite non-zero number
    infinite, whatever NaN the product leaves in the other component. *)
Lemma c_abs_inf_factor e :
  cfin e -> cnonzero e -> c_abs (cmul (of_float PInf) e) = PInf.
Proof.
move=> /cfinP [a [b ->]] /cnonzero_Fin Hnz.
unfold c_abs; cx_simpl; unfold inf_signed.
destruct (Rtotal_order a 0) as [Ha|[Ha|Ha]].
- rewrite (Rsign_lt Ha); reflexivity.
- destruct (Rtotal_order b 0) as [Hb|[Hb|Hb]].
  + rewrite (Rsign_lt Hb); destruct (Rsign a); reflexivity.
  + destruct Hnz; contradiction.
  + rewrite (Rsign_gt Hb); destruct (Rsign a); reflexivity.
- rewrite (Rsign_gt Ha); reflexivity.
Qed.

(** Division by a non-zero real. *)
Lemma complex_div_real z m :
  cfin z -> m <> 0 ->
  exists q, complex_div z (of_float (Fin m)) = Ok q /\ cfin q.
Proof.
move=> /cfinP [a [b ->]] Hm; unfold of_float.
rewrite (complex_div_finite a b (or_introl Hm)).
eexists; split; reflexivity.
Qed.

(** A dot product of finite arrays of equal length is a finite number. *)
Lemma foldl_dot_finite (ps : seq (pycomplex * pycomplex)) acc :
  cfin acc -> all (fun p => cfin p.1 && cfin p.2) ps ->
  cfin (foldl (fun acc p => cadd acc (cmul p.1 p.2)) acc ps).
Proof.
revert acc; induction ps as [|p ps IH]; intros acc Hacc; [easy|].
cbn [all foldl]; move=> /andP [/andP [H1 H2] Hps].
apply IH; [|exact Hps].
apply cfin_cadd; [exact Hacc|now apply cfin_cmul].
Qed.

Lemma all_zip_cfin (x y : seq pycomplex) :
  all cfin x -> all cfin y -> all (fun p => cfin p.1 && cfin p.2) (zip x y).
Proof.
revert y; induction x as [|a x IH]; intros [|b y]; try easy.
cbn [all zip fst snd]; move=> /andP [Ha Hx] /andP [Hb Hy].
rewrite Ha Hb; cbn [andb]; now apply IH.
Qed.

Lemma array_dot_finite x y :
  size x = size y -> all cfin x -> all cfin y ->
  exists z, array_dot x y = Ok z /\ cfin z.
Proof.
intros Hs Hx Hy; unfold array_dot; rewrite Hs eqxx.
eexists; split; [reflexivity|].
apply foldl_dot_finite; [reflexivity|now apply all_zip_cfin].
Qed.

Lemma array_sub_finite (x : seq pyfloat) (y : seq pycomplex) :
  size x = size y -> all is_finite x -> all cfin y ->
  exists z, array_sub x y = Ok z /\ size z = size y /\ all cfin z.
Proof.
intros Hs Hx Hy; unfold array_sub, broadcast2; rewrite Hs eqxx.
eexists; split; [reflexivity|].
split; [rewrite size_map size_zip Hs; apply minnn|].
clear Hs; revert y Hy Hx; induction x as [|a x IH]; intros [|b y]; try easy.
cbn [all zip map fst snd]; move=> /andP [Hb Hy] /andP [Ha Hx].
rewrite (cfin_csub (cfin_of_float Ha) Hb); cbn [andb]; now apply IH.
Qed.

(** NaN is absorbing. *)
Lemma flt_nan_r x : flt x NaN = false.
Proof. destruct x; reflexivity. Qed.

Lemma fmul_nan_r x : fmul x NaN = NaN.
Proof. destruct x; reflexivity. Qed.

Lemma c_quot_nan b : c_quot (Cx NaN NaN) b = Cx NaN NaN.
Proof.
unfold c_quot; cbn [re im].
destruct (fge _ _); [|destruct (fge _ _)]; try reflexivity;
  rewrite !fmul_nan_r; reflexivity.
Qed.

Lemma complex_div_nan b :
  cnonzero b -> complex_div (Cx NaN NaN) b = Ok (Cx NaN NaN).
Proof.
unfold cnonzero, complex_div; move=> /negbTE ->.
now rewrite c_quot_nan.
Qed.

(** *** The class [Continuous] *)

(** Values of the [options] dictionary. *)
Inductive pyval :=
| VBool (b : bool)
| VInt (n : Z).

(** Truth value of [v] in an [if]. *)
Definition truthy (v : pyval) : bool :=
  match v with
  | VBool b => b
  | VInt n => negb (Z.eqb n 0)
  end.

(** [v] used as an integer ([True] is [1]). *)
Definition as_int (v : pyval) : Z :=
  match v with
  | VBool b => if b then 1%Z else 0%Z
  | VInt n => n
  end.

(** [options.get(key, default)] on a dictionary given by its items. *)
Fixpoint dict_get (options : seq (string * pyval)) (key : string)
    (default : pyval) : pyval :=
  match options with
  | [::] => default
  | (k, v) :: rest => if String.eqb k key then v else dict_get rest key default
  end.

Section Continuous.

(** Two-dimensional arrays (determinant blocks, operator matrices) and the
    three operations [apply_exponential] performs on them: [V.dot(T)],
    [T / n] and [phi + T]. *)
Variable ndarray : Type.
Variable dot : ndarray -> ndarray -> ndarray.
Variable div_int : ndarray -> nat -> ndarray.
Variable add : ndarray -> ndarray -> ndarray.

(** The trial wavefunction object. *)
Variable Trial : Type.

(** The attributes of [system] and [qmc] read by the propagator. *)
Record System := {
  name : string;
  nfields : nat;
  nup : nat;
  ndown : nat
}.

Record QMCOpts := { qmc_dt : pyfloat; qmc_nstblz : nat }.

(** Modelled from the spec: the walker class is not part of the sources.
    Section 3 gives its fields: the occupied-orbital coefficients of the
    two spin species (here the column blocks [phi[:, :nup]] and
    [phi[:, nup:]]), a real [weight], a complex [phase], the complex overlap
    [ot] with the trial wavefunction, the cached [hybrid_energy], and an
    append-only buffer [field_configs] of the shifted fields with their
    reweighting factors ([None] when the walker carries no such buffer).
    [inv_ovlp] and [G] are the inverse overlap and the Green's function
    refreshed by [inverse_overlap] and [greens_function]. *)
Record Walker := {
  phi : ndarray * ndarray;
  weight : pyfloat;
  phase : pycomplex;
  ot : pycomplex;
  hybrid_energy : pycomplex;
  inv_ovlp : ndarray;
  G : ndarray;
  field_configs : option (seq (seq pycomplex * (pycomplex * pycomplex)))
}.

Definition set_phi (w : Walker) (p : ndarray * ndarray) : Walker :=
  {| phi := p; weight := weight w; phase := phase w; ot := ot w;
     hybrid_energy := hybrid_energy w; inv_ovlp := inv_ovlp w; G := G w;
     field_configs := field_configs w |}.

Definition set_weight (w : Walker) (x : pyfloat) : Walker :=
  {| phi := phi w; weight := x; phase := phase w; ot := ot w;
     hybrid_energy := hybrid_energy w; inv_ovlp := inv_ovlp w; G := G w;
     field_configs := field_configs w |}.

Definition set_phase (w : Walker) (z : pycomplex) : Walker :=
  {| phi := phi w; weight := weight w; phase := z; ot := ot w;
     hybrid_energy := hybrid_energy w; inv_ovlp := inv_ovlp w; G := G w;
     field_configs := field_configs w |}.

Definition set_ot (w : Walker) (z : pycomplex) : Walker :=
  {| phi := phi w; weight := weight w; phase := phase w; ot := z;
     hybrid_energy := hybrid_energy w; inv_ovlp := inv_ovlp w; G := G w;
     field_configs := field_configs w |}.

Definition set_hybrid_energy (w : Walker) (z : pycomplex) : Walker :=
  {| phi := phi w; weight := weight w; phase := phase w; ot := ot w;
     hybrid_energy := z; inv_ovlp := inv_ovlp w; G := G w;
     field_configs := field_configs w |}.

Definition set_inv_ovlp (w : Walker) (a : ndarray) : Walker :=
  {| phi := phi w; weight := weight w; phase := phase w; ot := ot w;
     hybrid_energy := hybrid_energy w; inv_ovlp := a; G := G w;
     field_configs := field_configs w |}.

Definition set_G (w : Walker) (a : ndarray) : Walker :=
  {| phi := phi w; weight := weight w; phase := phase w; ot := ot w;
     hybrid_energy := hybrid_energy w; inv_ovlp := inv_ovlp w; G := a;
     field_configs := field_configs w |}.

(** [walker.field_configs.update(xmxbar, wfac)] inside
    [try: ... except AttributeError: pass]. *)
Definition update_field_configs (w : Walker) (xmxbar : seq pycomplex)
    (wfac : pycomplex * pycomplex) : Walker :=
  {| phi := phi w; weight := weight w; phase := phase w; ot := ot w;
     hybrid_energy := hybrid_energy w; inv_ovlp := inv_ovlp w; G := G w;
     field_configs :=
       if field_configs w is Some buf then Some (rcons buf (xmxbar, wfac))
       else None |}.

(** The walker methods [inverse_overlap], [greens_function] and
    [calc_otrial], and [pauxy.propagation.operations.kinetic_real]. *)
Variable inverse_overlap_of : ndarray * ndarray -> Trial -> ndarray.
Variable greens_function_of : ndarray * ndarray -> ndarray -> Trial -> ndarray.
Variable calc_otrial : ndarray * ndarray -> ndarray -> Trial -> pycomplex.
Variable kinetic_real :
  ndarray * ndarray -> System -> ndarray -> ndarray * ndarray.

Definition inverse_overlap (w : Walker) (trial : Trial) : Walker :=
  set_inv_ovlp w (inverse_overlap_of (phi w) trial).

Definition greens_function (w : Walker) (trial : Trial) : Walker :=
  set_G w (greens_function_of (phi w) (inv_ovlp w) trial).

(** The system-specific propagator object ([PlaneWave],
    [HubbardContinuous] or [GenericContinuous]): the attributes and methods
    that [Continuous] uses. [BH1] is the one-body propagator left by
    [construct_one_body_propagator]. *)
Record Propagator := {
  mf_core : pycomplex;
  mf_shift : seq pycomplex;
  BH1 : ndarray;
  construct_force_bias : System -> Walker -> Trial -> seq pycomplex;
  construct_VHS : System -> seq pycomplex -> ndarray
}.

Variables PlaneWave HubbardContinuous GenericContinuous :
  System -> Trial -> QMCOpts -> seq (string * pyval) -> Propagator.

(** [get_continuous_propagator]: selection by [system.name]; [None] for an
    unknown name. *)
Definition get_continuous_propagator (system : System) (trial : Trial)
    (qmc : QMCOpts) (options : seq (string * pyval)) : option Propagator :=
  if String.eqb (name system) "UEG" then
    Some (PlaneWave system trial qmc options)
  else if String.eqb (name system) "Hubbard" then
    Some (HubbardContinuous system trial qmc options)
  else if String.eqb (name system) "Generic" then
    Some (GenericContinuous system trial qmc options)
  else None.

Record Continuous := {
  free_projection : bool;
  force_bias : bool;
  exp_nmax : Z;
  dt : pyfloat;
  sqrt_dt : pyfloat;
  isqrt_dt : pycomplex;
  propagator : Propagator;
  mf_const_fac : pyfloat;
  BT_BP : ndarray;
  nstblz : nat;
  nfb_trig : Z;
  nhe_trig : Z;
  ebound : pyfloat;
  mean_local_energy : Z;
  verbose : bool
}.

Definition set_nfb_trig (self : Continuous) (n : Z) : Continuous :=
  {| free_projection := free_projection self; force_bias := force_bias self;
     exp_nmax := exp_nmax self; dt := dt self; sqrt_dt := sqrt_dt self;
     isqrt_dt := isqrt_dt self; propagator := propagator self;
     mf_const_fac := mf_const_fac self; BT_BP := BT_BP self;
     nstblz := nstblz self; nfb_trig := n; nhe_trig := nhe_trig self;
     ebound := ebound self; mean_local_energy := mean_local_energy self;
     verbose := verbose self |}.

Definition set_nhe_trig (self : Continuous) (n : Z) : Continuous :=
  {| free_projection := free_projection self; force_bias := force_bias self;
     exp_nmax := exp_nmax self; dt := dt self; sqrt_dt := sqrt_dt self;
     isqrt_dt := isqrt_dt self; propagator := propagator self;
     mf_const_fac := mf_const_fac self; BT_BP := BT_BP self;
     nstblz := nstblz self; nfb_trig := nfb_trig self; nhe_trig := n;
     ebound := ebound self; mean_local_energy := mean_local_energy self;
     verbose := verbose self |}.

(** [Continuous.__init__]:
<<
    self.free_projection = options.get('free_projection', False)
    self.force_bias = options.get('force_bias', True)
    if self.free_projection:
        self.force_bias = False
    self.exp_nmax = options.get('expansion_order', 6)
    self.dt = qmc.dt
    self.sqrt_dt = qmc.dt**0.5
    self.isqrt_dt = 1j*self.sqrt_dt
    self.propagator = get_continuous_propagator(...)
    mf_core = self.propagator.mf_core
    self.mf_const_fac = math.exp(-self.dt*mf_core.real)
    self.propagator.construct_one_body_propagator(system, qmc.dt)
    self.BT_BP = self.propagator.BH1
    self.nstblz = qmc.nstblz
    self.nfb_trig = 0
    self.nhe_trig = 0
    self.ebound = (2.0/self.dt)**0.5
    self.mean_local_energy = 0
>>
    The two flags are stored by their truth value, which is all the class
    reads of them. *)
Definition __init__ (system : System) (trial : Trial) (qmc : QMCOpts)
    (options : seq (string * pyval)) (verbose : bool) : result Continuous :=
  let free_projection := truthy (dict_get options "free_projection" (VBool false)) in
  let force_bias := truthy (dict_get options "force_bias" (VBool true)) in
  let force_bias := if free_projection then false else force_bias in
  let exp_nmax := as_int (dict_get options "expansion_order" (VInt 6)) in
  let dt := qmc_dt qmc in
  let* sqrt_dt := float_pow_half (qmc_dt qmc) in
  let isqrt_dt := cmul c1j (of_float sqrt_dt) in
  let* propagator :=
    if get_continuous_propagator system trial qmc options is Some p then Ok p
    else Raise AttributeError in
  let mf_core := mf_core propagator in
  let mf_const_fac := math_exp (fmul (fneg dt) (re mf_core)) in
  let* two_over_dt := float_div (Fin 2) dt in
  let* ebound := float_pow_half two_over_dt in
  Ok {| free_projection := free_projection; force_bias := force_bias;
        exp_nmax := exp_nmax; dt := dt; sqrt_dt := sqrt_dt;
        isqrt_dt := isqrt_dt; propagator := propagator;
        mf_const_fac := mf_const_fac; BT_BP := BH1 propagator;
        nstblz := qmc_nstblz qmc; nfb_trig := 0; nhe_trig := 0;
        ebound := ebound; mean_local_energy := 0; verbose := verbose |}.

(** [apply_exponential(phi, VHS)]: the truncated Taylor series
<<
    numpy.copyto(Temp, phi)
    for n in range(1, self.exp_nmax+1):
        Temp = VHS.dot(Temp) / n
        phi += Temp
    return phi
>> *)
Definition apply_exponential (self : Continuous) (phi0 VHS : ndarray)
  : ndarray :=
  let body (st : ndarray * ndarray) (n : nat) :=
    let Temp := div_int (dot VHS st.1) n in
    (Temp, add st.2 Temp) in
  (foldl body (phi0, phi0) (iota 1 (Z.to_nat (exp_nmax self)))).2.

(** One turn of the loop over the force-bias components:
<<
    if numpy.absolute(xbar[i]) > 1.0:
        if self.nfb_trig < 1:
            if self.verbose:
                pass
        self.nfb_trig += 1
        xbar[i] /= numpy.absolute(xbar[i])
>>
    The state is the array [xbar] and the counter [self.nfb_trig]. *)
Definition rescale_force_bias (st : seq pycomplex * Z) (i : nat)
  : result (seq pycomplex * Z) :=
  if (i < size st.1)%nat then
    let x := nth c0 st.1 i in
    if fgt (c_abs x) (Fin 1) then
      Ok (set_nth c0 st.1 i (c_quot x (of_float (c_abs x))), (st.2 + 1)%Z)
    else Ok st
  else Raise IndexError.

(** The bias vector the loop starts from. *)
Definition initial_force_bias (self : Continuous) (walker : Walker)
    (system : System) (trial : Trial) : seq pycomplex :=
  if force_bias self then
    construct_force_bias (propagator self) system walker trial
  else nseq (nfields system) c0.

(** [two_body_propagator(walker, system, trial)]; [xi] is the draw
    [numpy.random.normal(0.0, 1.0, system.nfields)]. Returns the updated
    propagator and walker with [(cmf, cfb, xshifted)]. *)
Definition two_body_propagator (self : Continuous) (walker : Walker)
    (system : System) (trial : Trial) (xi : seq pyfloat)
  : result (Continuous * Walker * (pycomplex * pycomplex * seq pycomplex)) :=
  let xbar := initial_force_bias self walker system trial in
  let* st := for_each rescale_force_bias (xbar, nfb_trig self)
               (iota 0 (nfields system)) in
  let xbar := st.1 in
  let self := set_nfb_trig self st.2 in
  let* xshifted := array_sub xi xbar in
  let* xs_mf := array_dot xshifted (mf_shift (propagator self)) in
  let cmf := cmul (of_float (fneg (sqrt_dt self))) xs_mf in
  let* xi_xbar := array_dot [seq of_float x | x <- xi] xbar in
  let* xbar_xbar := array_dot xbar xbar in
  let cfb := csub xi_xbar (cmul (of_float (Fin (1 / 2))) xbar_xbar) in
  let VHS := construct_VHS (propagator self) system xshifted in
  let up := apply_exponential self (phi walker).1 VHS in
  let down :=
    if (0 < ndown system)%nat then apply_exponential self (phi walker).2 VHS
    else (phi walker).2 in
  Ok (self, set_phi walker (up, down), (cmf, cfb, xshifted)).

(** [kinetic_real(walker.phi, system, self.propagator.BH1)]: the one-body
    half-step. *)
Definition apply_kinetic (self : Continuous) (walker : Walker)
    (system : System) : Walker :=
  set_phi walker (kinetic_real (phi walker) system (BH1 (propagator self))).

(** [propagate_walker_free(walker, system, trial, eshift)]:
<<
    kinetic_real(walker.phi, system, self.propagator.BH1)
    (cmf, cfb, xmxbar) = self.two_body_propagator(walker, system, trial)
    kinetic_real(walker.phi, system, self.propagator.BH1)
    walker.inverse_overlap(trial)
    walker.ot = walker.calc_otrial(trial)
    walker.greens_function(trial)
    (magn, dtheta) = cmath.polar(cmath.exp(cmf+self.dt*eshift))
    walker.weight *= magn
    walker.phase *= cmath.exp(1j*dtheta)
>> *)
Definition propagate_walker_free (self : Continuous) (walker : Walker)
    (system : System) (trial : Trial) (eshift : pycomplex) (xi : seq pyfloat)
  : result (Continuous * Walker) :=
  let walker := apply_kinetic self walker system in
  let* r := two_body_propagator self walker system trial xi in
  let self := r.1.1 in
  let walker := r.1.2 in
  let cmf := r.2.1.1 in
  let walker := apply_kinetic self walker system in
  let walker := inverse_overlap walker trial in
  let walker :=
    set_ot walker (calc_otrial (phi walker) (inv_ovlp walker) trial) in
  let walker := greens_function walker trial in
  let* factor := cmath_exp (cadd cmf (cmul (of_float (dt self)) eshift)) in
  let magn := (cmath_polar factor).1 in
  let dtheta := (cmath_polar factor).2 in
  let walker := set_weight walker (fmul (weight walker) magn) in
  let* rot := cmath_exp (cmul c1j (of_float dtheta)) in
  Ok (self, set_phase walker (cmul (phase walker) rot)).

(** [apply_bound(ehyb, eshift)]:
<<
    if ehyb.real > eshift.real + self.ebound:
        ehyb = eshift.real+self.ebound+1j*ehyb.imag
        self.nhe_trig += 1
    elif ehyb.real < eshift.real - self.ebound:
        ehyb = eshift.real-self.ebound+1j*ehyb.imag
        self.nhe_trig += 1
    return ehyb
>> *)
Definition apply_bound (self : Continuous) (ehyb eshift : pycomplex)
  : Continuous * pycomplex :=
  if fgt (re ehyb) (fadd (re eshift) (ebound self)) then
    (set_nhe_trig self (nhe_trig self + 1)%Z,
     cadd (of_float (fadd (re eshift) (ebound self)))
          (cmul c1j (of_float (im ehyb))))
  else if flt (re ehyb) (fsub (re eshift) (ebound self)) then
    (set_nhe_trig self (nhe_trig self + 1)%Z,
     cadd (of_float (fsub (re eshift) (ebound self)))
          (cmul c1j (of_float (im ehyb))))
  else (self, ehyb).

(** The importance function of a phaseless step:
<<
    importance_function = (
            self.mf_const_fac *
            cmath.exp(-self.dt*(0.5*(hybrid_energy+walker.hybrid_energy)-eshift))
    )
>> *)
Definition importance (self : Continuous) (walker : Walker)
    (hybrid : pycomplex) (eshift : pycomplex) : result pycomplex :=
  let mean := cmul (of_float (Fin (1 / 2))) (cadd hybrid (hybrid_energy walker)) in
  let* e := cmath_exp (cmul (of_float (fneg (dt self))) (csub mean eshift)) in
  Ok (cmul (of_float (mf_const_fac self)) e).

(** The weight update that closes a phaseless step:
<<
    (magn, phase) = cmath.polar(importance_function)
    walker.hybrid_energy = hybrid_energy
    if not math.isinf(magn):
        dtheta = (-self.dt*hybrid_energy-cfb).imag
        cosine_fac = max(0, math.cos(dtheta))
        walker.weight *= magn * cosine_fac
        walker.ot = ot_new
        if magn > 1e-16:
            wfac = numpy.array([importance_function/magn, cosine_fac])
        else:
            wfac = numpy.array([0,0])
        try:
            walker.field_configs.update(xmxbar, wfac)
        except AttributeError:
            pass
    else:
        walker.ot = ot_new
        walker.weight = 0.0
>> *)
Definition reweight (self : Continuous) (walker : Walker)
    (importance_function hybrid cfb ot_new : pycomplex)
    (xmxbar : seq pycomplex) : result Walker :=
  let magn := (cmath_polar importance_function).1 in
  let walker := set_hybrid_energy walker hybrid in
  if ~~ math_isinf magn then
    let dtheta :=
      im (csub (cmul (of_float (fneg (dt self))) hybrid) cfb) in
    let* c := math_cos dtheta in
    let cosine_fac := max0 c in
    let walker := set_weight walker (fmul (weight walker) (fmul magn cosine_fac)) in
    let walker := set_ot walker ot_new in
    let* wfac :=
      if fgt magn (Fin (/ 10 ^ 16)) then
        let* unit_factor := complex_div importance_function (of_float magn) in
        Ok (unit_factor, of_float cosine_fac)
      else Ok (c0, c0) in
    Ok (update_field_configs walker xmxbar wfac)
  else
    let walker := set_ot walker ot_new in
    Ok (set_weight walker (Fin 0)).

(** The local variables of [propagate_walker_phaseless] once
    [importance_function] has been computed. *)
Record phaseless_locals := {
  l_self : Continuous;
  l_walker : Walker;
  l_cfb : pycomplex;
  l_xmxbar : seq pycomplex;
  l_ot_new : pycomplex;
  l_hybrid_energy : pycomplex;
  l_importance_function : pycomplex
}.

(** [propagate_walker_phaseless], up to the importance function:
<<
    kinetic_real(walker.phi, system, self.propagator.BH1)
    (cmf, cfb, xmxbar) = self.two_body_propagator(walker, system, trial)
    kinetic_real(walker.phi, system, self.propagator.BH1)
    walker.inverse_overlap(trial)
    walker.greens_function(trial)
    ot_new = walker.calc_otrial(trial)
    ovlp_ratio = ot_new / walker.ot
    hybrid_energy = -(cmath.log(ovlp_ratio) + cfb + cmf)/self.dt
    hybrid_energy = self.apply_bound(hybrid_energy, eshift)
    importance_function = ...
>> *)
Definition phaseless_importance (self : Continuous) (walker : Walker)
    (system : System) (trial : Trial) (eshift : pycomplex) (xi : seq pyfloat)
  : result phaseless_locals :=
  let walker := apply_kinetic self walker system in
  let* r := two_body_propagator self walker system trial xi in
  let self := r.1.1 in
  let walker := r.1.2 in
  let cmf := r.2.1.1 in
  let cfb := r.2.1.2 in
  let xmxbar := r.2.2 in
  let walker := apply_kinetic self walker system in
  let walker := inverse_overlap walker trial in
  let walker := greens_function walker trial in
  let ot_new := calc_otrial (phi walker) (inv_ovlp walker) trial in
  let* ovlp_ratio := complex_div ot_new (ot walker) in
  let* log_ratio := cmath_log ovlp_ratio in
  let* hybrid :=
    complex_div (cneg (cadd (cadd log_ratio cfb) cmf)) (of_float (dt self)) in
  let bounded := apply_bound self hybrid eshift in
  let self := bounded.1 in
  let hybrid := bounded.2 in
  let* importance_function := importance self walker hybrid eshift in
  Ok {| l_self := self; l_walker := walker; l_cfb := cfb;
        l_xmxbar := xmxbar; l_ot_new := ot_new; l_hybrid_energy := hybrid;
        l_importance_function := importance_function |}.

(** [propagate_walker_phaseless(walker, system, trial, eshift)]: the steps
    above followed by the weight update. *)
Definition propagate_walker_phaseless (self : Continuous) (walker : Walker)
    (system : System) (trial : Trial) (eshift : pycomplex) (xi : seq pyfloat)
  : result (Continuous * Walker) :=
  let* l := phaseless_importance self walker system trial eshift xi in
  let* walker :=
    reweight (l_self l) (l_walker l) (l_importance_function l)
      (l_hybrid_energy l) (l_cfb l) (l_ot_new l) (l_xmxbar l) in
  Ok (l_self l, walker).

(** [self.propagate_walker], bound by [__init__] to one of the two
    policies. *)
Definition propagate_walker (self : Continuous) :=
  if free_projection self then propagate_walker_free self
  else propagate_walker_phaseless self.

(** A run of steps on one walker: each step has its own reference energy
    and its own draw of auxiliary fields. *)
Fixpoint propagate_steps (self : Continuous) (walker : Walker)
    (system : System) (trial : Trial)
    (steps : seq (pycomplex * seq pyfloat)) : result (Continuous * Walker) :=
  match steps with
  | [::] => Ok (self, walker)
  | (eshift, xi) :: rest =>
      let* r := propagate_walker self walker system trial eshift xi in
      propagate_steps r.1 r.2 system trial rest
  end.

(** *** The constructor *)

Lemma init_finite_dt system trial qmc options verbose self d :
  __init__ system trial qmc options verbose = Ok self ->
  qmc_dt qmc = Fin d ->
  0 < d /\ dt self = Fin d /\ ebound self = Fin (sqrt (2 / d)).
Proof.
unfold __init__; intros H Hd; rewrite Hd in H; revert H.
cbn [float_pow_half bind].
destruct (Rlt_dec d 0) as [Hneg|Hpos]; [discriminate|].
cbn [bind].
destruct (get_continuous_propagator system trial qmc options); [|discriminate].
cbn [bind]; unfold float_div.
destruct (feq (Fin d) (Fin 0)) eqn:E0; [discriminate|].
apply feq_Fin_false in E0.
rewrite (fdiv_Fin 2 E0); cbn [bind float_pow_half].
destruct (Rlt_dec (2 / d) 0); [discriminate|].
cbn [bind]; intros H; injection H as <-; cbn.
repeat split; Lra.lra.
Qed.

Lemma init_flags system trial qmc options verbose self :
  __init__ system trial qmc options verbose = Ok self ->
  free_projection self
    = truthy (dict_get options "free_projection" (VBool false)) /\
  force_bias self
    = (if free_projection self then false
       else truthy (dict_get options "force_bias" (VBool true))) /\
  nfb_trig self = 0%Z /\ nhe_trig self = 0%Z.
Proof.
unfold __init__.
destruct (float_pow_half (qmc_dt qmc)); [|discriminate]; cbn [bind].
destruct (get_continuous_propagator system trial qmc options); [|discriminate].
cbn [bind].
destruct (float_div (Fin 2) (qmc_dt qmc)); [|discriminate]; cbn [bind].
destruct (float_pow_half a0); [|discriminate]; cbn [bind].
intros H; injection H as <-; cbn.
repeat split.
Qed.

(** *** The force-bias loop *)

(** [numpy.absolute(x) > 1.0] *)
Definition exceeds_one (x : pycomplex) : bool := fgt (c_abs x) (Fin 1).

(** The value the loop leaves in a component that held [x]. *)
Definition rescaled (x : pycomplex) : pycomplex :=
  if exceeds_one x then c_quot x (of_float (c_abs x)) else x.

Lemma rescale_force_bias_cons x xs k i :
  rescale_force_bias (x :: xs, k) i.+1
    = let* st := rescale_force_bias (xs, k) i in Ok (x :: st.1, st.2).
Proof.
unfold rescale_force_bias; cbn [fst snd size nth].
rewrite ltnS.
destruct (i < size xs)%nat; [|reflexivity].
destruct (fgt (c_abs (nth c0 xs i)) (Fin 1)); reflexivity.
Qed.

Lemma for_each_rescale_cons x xs k (idx : seq nat) :
  for_each rescale_force_bias (x :: xs, k) [seq i.+1 | i <- idx]
    = let* st := for_each rescale_force_bias (xs, k) idx in
      Ok (x :: st.1, st.2).
Proof.
revert xs k; induction idx as [|i idx IH]; intros xs k; [reflexivity|].
cbn [map for_each]; rewrite rescale_force_bias_cons.
destruct (rescale_force_bias (xs, k) i) as [[xs' k']|e]; [|reflexivity].
cbn [bind fst snd]; apply IH.
Qed.

(** The loop over a bias vector of the expected length: every component
    is replaced by its rescaled value and the counter grows by the number of
    components whose magnitude exceeds 1. *)
Lemma rescale_loop xbar k :
  for_each rescale_force_bias (xbar, k) (iota 0 (size xbar))
    = Ok ([seq rescaled x | x <- xbar],
          (k + Z.of_nat (count exceeds_one xbar))%Z).
Proof.
revert k; induction xbar as [|x xs IH]; intros k.
- cbn; do 2 f_equal; Lia.lia.
- cbn [size iota for_each].
  unfold rescale_force_bias at 1; cbn [fst snd size nth].
  rewrite ltn0Sn.
  replace (iota 1 (size xs)) with [seq i.+1 | i <- iota 0 (size xs)]
    by (symmetry; apply (iotaDl 1 0 (size xs))).
  change (fgt (c_abs x) (Fin 1)) with (exceeds_one x).
  cbn [map count]; unfold rescaled at 1.
  destruct (exceeds_one x); cbn [bind set_nth fst snd nat_of_bool];
    rewrite for_each_rescale_cons IH; cbn [bind fst snd];
    do 2 f_equal; rewrite -?plusE; Lia.lia.
Qed.

Lemma exceeds_one_c0 : exceeds_one c0 = false.
Proof.
unfold exceeds_one, c_abs, c0; cbn [re im]; rewrite hypot_00.
unfold fgt; apply flt_Fin_false; Lra.lra.
Qed.

Lemma rescale_loop_zeros n k :
  for_each rescale_force_bias (nseq n c0, k) (iota 0 n) = Ok (nseq n c0, k).
Proof.
have := rescale_loop (nseq n c0) k; rewrite size_nseq => ->.
do 2 f_equal.
- rewrite map_nseq; unfold rescaled; now rewrite exceeds_one_c0.
- rewrite count_nseq exceeds_one_c0 mul0n; Lia.lia.
Qed.

(** What [two_body_propagator] does to the propagator and to the walker:
    its only effects are the counter, the determinant and the returned
    triple. *)
Lemma two_body_propagator_inv self walker system trial xi self' walker' out :
  two_body_propagator self walker system trial xi = Ok (self', walker', out) ->
  exists st,
    for_each rescale_force_bias
      (initial_force_bias self walker system trial, nfb_trig self)
      (iota 0 (nfields system)) = Ok st /\
    self' = set_nfb_trig self st.2 /\
    array_sub xi st.1 = Ok out.2 /\
    weight walker' = weight walker /\ phase walker' = phase walker /\
    ot walker' = ot walker /\ hybrid_energy walker' = hybrid_energy walker /\
    field_configs walker' = field_configs walker.
Proof.
unfold two_body_propagator.
destruct (for_each _ _ _) as [st|e] eqn:Hloop; [|discriminate]; cbn [bind].
destruct (array_sub xi st.1) as [xs|e] eqn:Hsub; [|discriminate]; cbn [bind].
destruct (array_dot xs _) as [d1|e]; [|discriminate]; cbn [bind].
destruct (array_dot _ st.1) as [d2|e]; [|discriminate]; cbn [bind].
destruct (array_dot st.1 st.1) as [d3|e]; [|discriminate]; cbn [bind].
intros H; injection H as <- <- <-.
exists st; repeat split; assumption.
Qed.

(** Division by the modulus keeps the direction and gives unit modulus. *)
Lemma rescaled_finite a b :
  exceeds_one (Cx (Fin a) (Fin b)) ->
  let m := sqrt (a * a + b * b) in
  1 < m /\
  rescaled (Cx (Fin a) (Fin b)) = Cx (Fin (a / m)) (Fin (b / m)) /\
  c_abs (rescaled (Cx (Fin a) (Fin b))) = Fin 1.
Proof.
intros Hex m.
assert (Hm : 1 < m).
{ unfold exceeds_one, fgt, c_abs in Hex; cbn [re im hypot] in Hex.
  now apply flt_Fin. }
assert (Hr : rescaled (Cx (Fin a) (Fin b)) = Cx (Fin (a / m)) (Fin (b / m))).
{ unfold rescaled; rewrite Hex.
  unfold c_abs; cbn [re im hypot]; fold m.
  apply c_quot_pos_real; Lra.lra. }
split; [exact Hm|split; [exact Hr|]].
rewrite Hr; unfold c_abs; cbn [re im hypot]; f_equal.
assert (Hsq : m * m = a * a + b * b).
{ apply sqrt_sqrt. generalize (Rle_0_sqr a) (Rle_0_sqr b); unfold Rsqr; Lra.lra. }
replace (a / m * (a / m) + b / m * (b / m)) with 1.
- exact sqrt_1.
- field_simplify_eq; [|Lra.lra].
  Lra.lra.
Qed.

(** C3 (as the code behaves). In [two_body_propagator] a bias component of
    magnitude above 1 is divided by its magnitude, which leaves a number of
    unit magnitude and of the same direction, and the counter [nfb_trig] is
    incremented once for every such component of the call. *)
Theorem two_body_propagator_force_bias_clamp
    self walker system trial xi self' walker' out :
  size (initial_force_bias self walker system trial) = nfields system ->
  two_body_propagator self walker system trial xi = Ok (self', walker', out) ->
  let xbar := initial_force_bias self walker system trial in
  nfb_trig self' = (nfb_trig self + Z.of_nat (count exceeds_one xbar))%Z /\
  array_sub xi [seq rescaled x | x <- xbar] = Ok out.2 /\
  forall a b, exceeds_one (Cx (Fin a) (Fin b)) ->
    let m := sqrt (a * a + b * b) in
    1 < m /\
    rescaled (Cx (Fin a) (Fin b)) = Cx (Fin (a / m)) (Fin (b / m)) /\
    c_abs (rescaled (Cx (Fin a) (Fin b))) = Fin 1.
Proof.
intros Hsize H xbar.
destruct (two_body_propagator_inv H) as [st [Hloop [-> [Hsub _]]]].
rewrite -Hsize rescale_loop in Hloop; injection Hloop as <-.
split; [reflexivity|split; [exact Hsub|]].
exact rescaled_finite.
Qed.

(** *** Free projection *)

Lemma propagate_walker_free_counter self walker system trial eshift xi
    self' walker' :
  force_bias self = false ->
  propagate_walker_free self walker system trial eshift xi
    = Ok (self', walker') ->
  self' = set_nfb_trig self (nfb_trig self).
Proof.
intros Hfb; unfold propagate_walker_free.
destruct (two_body_propagator _ _ _ _ _) as [[[s1 w1] o1]|e] eqn:H2;
  [|discriminate].
cbn [bind fst snd].
destruct (cmath_exp _) as [f|e]; [|discriminate]; cbn [bind].
destruct (cmath_exp _) as [g|e]; [|discriminate]; cbn [bind].
intros H; injection H as <- _.
destruct (two_body_propagator_inv H2) as [st [Hloop [-> _]]].
unfold initial_force_bias in Hloop; rewrite Hfb rescale_loop_zeros in Hloop.
now injection Hloop as <-.
Qed.

Lemma propagate_steps_free self walker system trial steps self' walker' :
  free_projection self = true -> force_bias self = false ->
  propagate_steps self walker system trial steps = Ok (self', walker') ->
  nfb_trig self' = nfb_trig self.
Proof.
revert self walker; induction steps as [|[eshift xi] rest IH];
  intros self walker Hfree Hfb.
- cbn; intros H; now injection H as <- _.
- cbn [propagate_steps]; unfold propagate_walker; rewrite Hfree.
  destruct (propagate_walker_free _ _ _ _ _ _) as [[s1 w1]|e] eqn:H1;
    [|discriminate].
  cbn [bind fst snd]; intros H.
  rewrite (propagate_walker_free_counter Hfb H1) in H.
  now apply IH in H.
Qed.

(** C8. A propagator constructed in free-projection mode has force bias
    disabled whatever the [force_bias] option says, and after any number of
    free-projection steps its clamp counter [nfb_trig] is still zero. *)
Theorem free_projection_never_clamps
    system trial qmc options verbose self walker steps self' walker' :
  truthy (dict_get options "free_projection" (VBool false)) = true ->
  __init__ system trial qmc options verbose = Ok self ->
  propagate_steps self walker system trial steps = Ok (self', walker') ->
  force_bias self = false /\ nfb_trig self' = 0%Z.
Proof.
intros Hopt Hinit Hrun.
destruct (init_flags Hinit) as [Hfree [Hfb [Hn _]]].
rewrite Hopt in Hfree; rewrite Hfree in Hfb.
split; [exact Hfb|].
now rewrite (propagate_steps_free Hfree Hfb Hrun).
Qed.

(** *** The energy bound *)

(** C7 (as the code behaves). Let the propagator have been built with a
    positive finite time step [d], so that its bound is
    [ebound = sqrt(2/d)], which no method changes. For a hybrid energy whose
    real part is not NaN and whose imaginary part is finite, and a reference
    energy of finite real part, [apply_bound] returns a value whose real
    part is within [ebound] of [eshift.real] and whose imaginary part is
    that of [ehyb]; the value is [ehyb] itself and the counter [nhe_trig] is
    unchanged when the real part was within the bound, and otherwise (a
    finite real part outside the bound, or an infinite one) the value
    differs and the counter is incremented by one. *)
Theorem apply_bound_clamps_real_part
    system trial qmc options verbose self0 self d hr y eshift e :
  __init__ system trial qmc options verbose = Ok self0 ->
  qmc_dt qmc = Fin d -> 0 < d ->
  ebound self = ebound self0 ->
  is_nan hr = false -> re eshift = Fin e ->
  let ehyb := Cx hr (Fin y) in
  let bound := sqrt (2 / d) in
  let r := apply_bound self ehyb eshift in
  ebound self = Fin bound /\
  (exists x', r.2 = Cx (Fin x') (Fin y) /\ Rabs (x' - e) <= bound) /\
  (forall x, hr = Fin x -> Rabs (x - e) <= bound ->
     r.2 = ehyb /\ nhe_trig r.1 = nhe_trig self) /\
  ((forall x, hr = Fin x -> bound < Rabs (x - e)) ->
     r.2 <> ehyb /\ nhe_trig r.1 = (nhe_trig self + 1)%Z).
Proof.
intros Hinit Hd Hpos Hsame Hnan He ehyb bound r.
destruct (init_finite_dt Hinit Hd) as [_ [_ Hb]].
rewrite -Hsame in Hb.
assert (Hb0 : 0 <= bound) by apply sqrt_pos.
split; [exact Hb|].
assert (Hup : cadd (of_float (Fin (e + bound))) (cmul c1j (of_float (Fin y)))
              = Cx (Fin (e + bound)) (Fin y)).
{ cx_simpl; f_equal; f_equal; ring. }
assert (Hlo : cadd (of_float (Fin (e + - bound)))
                (cmul c1j (of_float (Fin y)))
              = Cx (Fin (e - bound)) (Fin y)).
{ cx_simpl; f_equal; f_equal; ring. }
assert (Rup : Rabs (e + bound - e) <= bound).
{ replace (e + bound - e) with bound by ring.
  rewrite Rabs_pos_eq; Lra.lra. }
assert (Rlo : Rabs (e - bound - e) <= bound).
{ replace (e - bound - e) with (- bound) by ring.
  rewrite Rabs_Ropp Rabs_pos_eq; Lra.lra. }
unfold r, apply_bound, fgt; rewrite Hb He; fold bound.
cbn [re im ehyb fadd fsub fneg].
destruct hr as [x| | |]; [| | |discriminate].
- destruct (flt (Fin (e + bound)) (Fin x)) eqn:Eup.
  + apply flt_Fin in Eup; cbn [fst snd nhe_trig set_nhe_trig].
    rewrite Hup; split; [|split].
    * exists (e + bound); split; [reflexivity|exact Rup].
    * intros x0 Hx0 Hin; injection Hx0 as <-.
      apply Rabs_le_iff in Hin; Lra.lra.
    * intros _; split; [|reflexivity].
      intros Heq; injection Heq as Heq; Lra.lra.
  + apply flt_Fin_false in Eup.
    destruct (flt (Fin x) (Fin (e + - bound))) eqn:Elow.
    * apply flt_Fin in Elow; cbn [fst snd nhe_trig set_nhe_trig].
      rewrite Hlo; split; [|split].
      -- exists (e - bound); split; [reflexivity|exact Rlo].
      -- intros x0 Hx0 Hin; injection Hx0 as <-.
         apply Rabs_le_iff in Hin; Lra.lra.
      -- intros _; split; [|reflexivity].
         intros Heq; injection Heq as Heq; Lra.lra.
    * apply flt_Fin_false in Elow; cbn [fst snd].
      assert (Hle : Rabs (x - e) <= bound) by (apply Rabs_le_iff; Lra.lra).
      split; [|split].
      -- exists x; split; [reflexivity|exact Hle].
      -- intros _ _ _; split; reflexivity.
      -- intros Hout; specialize (Hout x (erefl _)); Lra.lra.
- cbn [flt fst snd nhe_trig set_nhe_trig]; rewrite Hup; split; [|split].
  + exists (e + bound); split; [reflexivity|exact Rup].
  + intros x0 Hx0; discriminate.
  + intros _; split; [discriminate|reflexivity].
- cbn [flt fst snd nhe_trig set_nhe_trig]; rewrite Hlo; split; [|split].
  + exists (e - bound); split; [reflexivity|exact Rlo].
  + intros x0 Hx0; discriminate.
  + intros _; split; [discriminate|reflexivity].
Qed.

(** *** The phaseless weight update *)

(** Up to the importance function, a phaseless step leaves the weight and
    the phase of the walker alone. *)
Lemma phaseless_importance_walker self walker system trial eshift xi l :
  phaseless_importance self walker system trial eshift xi = Ok l ->
  weight (l_walker l) = weight walker /\ phase (l_walker l) = phase walker.
Proof.
unfold phaseless_importance.
destruct (two_body_propagator _ _ _ _ _) as [[[s1 w1] o1]|e] eqn:H2;
  [|discriminate].
cbn [bind fst snd].
destruct (complex_div _ _) as [ratio|e]; [|discriminate]; cbn [bind].
destruct (cmath_log _) as [lg|e]; [|discriminate]; cbn [bind].
destruct (complex_div _ _) as [hyb|e]; [|discriminate]; cbn [bind].
destruct (importance _ _ _ _) as [imp|e]; [|discriminate]; cbn [bind].
intros H; injection H as <-; cbn.
destruct (two_body_propagator_inv H2) as [st [_ [_ [_ [Hw [Hp _]]]]]].
now rewrite Hw Hp.
Qed.

(** The two branches of the weight update. *)
Lemma reweight_inv self walker importance_function hybrid cfb ot_new xmxbar
    walker' :
  reweight self walker importance_function hybrid cfb ot_new xmxbar
    = Ok walker' ->
  phase walker' = phase walker /\ ot walker' = ot_new /\
  hybrid_energy walker' = hybrid /\
  (if math_isinf (c_abs importance_function) then weight walker' = Fin 0
   else exists c, 0 <= c <= 1 /\
        weight walker'
          = fmul (weight walker) (fmul (c_abs importance_function) (Fin c))).
Proof.
unfold reweight; cbn [cmath_polar fst].
destruct (math_isinf (c_abs importance_function)); cbn [negb].
- intros H; injection H as <-; cbn; auto.
- destruct (math_cos _) as [c|e] eqn:Hcos; [|discriminate]; cbn [bind].
  destruct (max0_cos Hcos) as [c' [Hc' Hrange]]; rewrite Hc'.
  destruct (fgt (c_abs importance_function) (Fin (/ 10 ^ 16))).
  + destruct (complex_div _ _) as [u|e]; [|discriminate]; cbn [bind].
    intros H; injection H as <-; cbn.
    split; [reflexivity|split; [reflexivity|split; [reflexivity|]]].
    now exists c'.
  + cbn [bind]; intros H; injection H as <-; cbn.
    split; [reflexivity|split; [reflexivity|split; [reflexivity|]]].
    now exists c'.
Qed.

(** The branch taken when [math.isinf(magn)] holds. *)
Lemma reweight_isinf
    self walker importance_function hybrid cfb ot_new xmxbar :
  math_isinf (cmath_polar importance_function).1 = true ->
  exists walker',
    reweight self walker importance_function hybrid cfb ot_new xmxbar
      = Ok walker' /\
    weight walker' = Fin 0 /\ ot walker' = ot_new.
Proof.
intros Hinf; unfold reweight; rewrite Hinf; cbn [negb].
eexists; split; [reflexivity|]; cbn; auto.
Qed.

(** C2 (as the code behaves). In a phaseless step that reaches the weight
    update with an importance function of infinite modulus, the step
    returns, the weight is exactly zero and [walker.ot] holds the newly
    computed overlap. *)
Theorem phaseless_infinite_modulus_zeroes_weight
    self walker system trial eshift xi l :
  phaseless_importance self walker system trial eshift xi = Ok l ->
  math_isinf (cmath_polar (l_importance_function l)).1 = true ->
  exists walker',
    propagate_walker_phaseless self walker system trial eshift xi
      = Ok (l_self l, walker') /\
    weight walker' = Fin 0 /\ ot walker' = l_ot_new l.
Proof.
intros Hl Hinf; unfold propagate_walker_phaseless; rewrite Hl; cbn [bind].
destruct (reweight_isinf (l_self l) (l_walker l) (l_hybrid_energy l)
            (l_cfb l) (l_ot_new l) (l_xmxbar l) Hinf) as [w' [-> Hw']].
now exists w'.
Qed.

(** C4 (as the code behaves). A phaseless step never touches the phase, and
    it takes a non-negative real weight to a non-negative real weight
    provided the modulus of its importance function is not NaN. *)
Theorem phaseless_step_keeps_weight_and_phase
    self walker system trial eshift xi l self' walker' w :
  weight walker = Fin w -> 0 <= w -> c_abs (phase walker) = Fin 1 ->
  phaseless_importance self walker system trial eshift xi = Ok l ->
  is_nan (cmath_polar (l_importance_function l)).1 = false ->
  propagate_walker_phaseless self walker system trial eshift xi
    = Ok (self', walker') ->
  (exists w', weight walker' = Fin w' /\ 0 <= w') /\
  phase walker' = phase walker /\ c_abs (phase walker') = Fin 1.
Proof.
intros Hw Hw0 Hphase Hl Hnan; unfold propagate_walker_phaseless.
rewrite Hl; cbn [bind].
destruct (reweight _ _ _ _ _ _ _) as [w1|e] eqn:Hre; [|discriminate].
cbn [bind]; intros H; injection H as _ <-.
destruct (phaseless_importance_walker Hl) as [Hlw Hlp].
destruct (reweight_inv Hre) as [Hp [_ [_ Hweight]]].
rewrite Hp Hlp; split; [|split; [reflexivity|exact Hphase]].
cbn [cmath_polar fst] in Hnan; unfold c_abs in *.
destruct (hypot_cases (re (l_importance_function l))
            (im (l_importance_function l))) as [Hm|[Hm|[m [Hm Hm0]]]];
  rewrite Hm in Hweight Hnan; cbn [math_isinf] in Hweight.
- exists 0; split; [exact Hweight|Lra.lra].
- discriminate.
- destruct Hweight as [c [Hc ->]]; rewrite Hlw Hw; cbn [fmul].
  eexists; split; [reflexivity|].
  apply Rmult_le_pos; [exact Hw0|apply Rmult_le_pos; Lra.lra].
Qed.

(** *** Steps on finite data return a result *)

Lemma cfin_rescaled x : cfin x -> cfin (rescaled x).
Proof.
move=> /cfinP [a [b ->]].
destruct (exceeds_one (Cx (Fin a) (Fin b))) eqn:E.
- destruct (rescaled_finite E) as [_ [Hr _]]; now rewrite Hr.
- unfold rescaled; now rewrite E.
Qed.

(** [two_body_propagator] returns whenever the bias vector, the draw and the
    mean-field shift have [nfields] entries; on finite data the two constant
    factors are finite. *)
Lemma two_body_propagator_ok self walker system trial xi :
  let xbar := initial_force_bias self walker system trial in
  size xbar = nfields system -> size xi = nfields system ->
  size (mf_shift (propagator self)) = nfields system ->
  all cfin xbar -> all is_finite xi ->
  all cfin (mf_shift (propagator self)) -> is_finite (sqrt_dt self) ->
  exists walker' cmf cfb xshifted,
    two_body_propagator self walker system trial xi
      = Ok (set_nfb_trig self
              (nfb_trig self + Z.of_nat (count exceeds_one xbar))%Z,
            walker', (cmf, cfb, xshifted)) /\
    cfin cmf /\ cfin cfb.
Proof.
intros xbar Hsb Hsx Hsm Hfb Hfx Hfm Hsq.
unfold two_body_propagator; fold xbar.
rewrite -Hsb rescale_loop; cbn [bind fst snd].
assert (Hres : all cfin [seq rescaled x | x <- xbar]).
{ rewrite all_map; apply: sub_all Hfb => x; exact: cfin_rescaled. }
assert (Hsr : size [seq rescaled x | x <- xbar] = nfields system)
  by (now rewrite size_map).
destruct (@array_sub_finite xi [seq rescaled x | x <- xbar])
  as [xs [-> [Hsz Hxs]]]; [now rewrite Hsx Hsr|exact Hfx|exact Hres|].
cbn [bind propagator set_nfb_trig sqrt_dt].
destruct (@array_dot_finite xs (mf_shift (propagator self)))
  as [d1 [-> Hd1]]; [now rewrite Hsz Hsr Hsm|exact Hxs|exact Hfm|].
cbn [bind].
destruct (@array_dot_finite [seq of_float x | x <- xi]
            [seq rescaled x | x <- xbar])
  as [d2 [-> Hd2]]; [now rewrite size_map Hsx Hsr| |exact Hres|].
{ rewrite all_map; apply: sub_all Hfx => x; exact: cfin_of_float. }
cbn [bind].
destruct (@array_dot_finite [seq rescaled x | x <- xbar]
            [seq rescaled x | x <- xbar])
  as [d3 [-> Hd3]]; [reflexivity|exact Hres|exact Hres|].
cbn [bind].
do 4 eexists; split; [reflexivity|split].
- apply cfin_cmul; [|exact Hd1].
  apply cfin_of_float; destruct (sqrt_dt self); easy.
- apply cfin_csub; [exact Hd2|].
  apply cfin_cmul; [reflexivity|exact Hd3].
Qed.

(** [apply_bound] keeps finite values finite. *)
Lemma apply_bound_finite self ehyb eshift :
  is_finite (ebound self) -> cfin ehyb -> cfin eshift ->
  cfin (apply_bound self ehyb eshift).2 /\
  dt (apply_bound self ehyb eshift).1 = dt self /\
  mf_const_fac (apply_bound self ehyb eshift).1 = mf_const_fac self.
Proof.
destruct (ebound self) as [b| | |] eqn:Hb; try discriminate; intros _.
move=> /cfinP [x [y ->]] /cfinP [e [f ->]].
unfold apply_bound; rewrite Hb.
destruct (fgt _ _); [split; [reflexivity|split; reflexivity]|].
destruct (flt _ _); split; try reflexivity; split; reflexivity.
Qed.

(** The weight update returns on finite data. *)
Lemma reweight_ok self walker importance_function hybrid cfb ot_new xmxbar :
  is_finite (dt self) ->
  cfin importance_function -> cfin hybrid -> cfin cfb ->
  exists walker',
    reweight self walker importance_function hybrid cfb ot_new xmxbar
      = Ok walker'.
Proof.
destruct (dt self) as [d| | |] eqn:Hd; try discriminate; intros _.
move=> /cfinP [a [b ->]] /cfinP [h1 [h2 ->]] /cfinP [c1 [c2 ->]].
unfold reweight; rewrite Hd.
cbn [cmath_polar fst c_abs re im hypot math_isinf negb].
cx_simpl; cbn [math_cos bind].
unfold fgt.
destruct (flt (Fin (/ 10 ^ 16)) (Fin (sqrt (a * a + b * b)))) eqn:E.
- apply flt_Fin in E.
  assert (Hm : sqrt (a * a + b * b) <> 0).
  { assert (0 < / 10 ^ 16) by (apply Rinv_0_lt_compat; Lra.lra).
    Lra.lra. }
  rewrite (complex_div_finite a b (or_introl Hm)); cbn [bind].
  eexists; reflexivity.
- cbn [bind]; eexists; reflexivity.
Qed.

(** Up to the importance function, a phaseless step returns on finite
    data, provided the stored and the new overlap are not zero. *)
Lemma phaseless_importance_shape self walker system trial eshift xi d :
  let xbar :=
    initial_force_bias self (apply_kinetic self walker system) system trial in
  size xbar = nfields system -> size xi = nfields system ->
  size (mf_shift (propagator self)) = nfields system ->
  all cfin xbar -> all is_finite xi ->
  all cfin (mf_shift (propagator self)) -> is_finite (sqrt_dt self) ->
  dt self = Fin d -> d <> 0 ->
  is_finite (ebound self) ->
  cfin eshift -> cfin (hybrid_energy walker) ->
  cfin (ot walker) -> cnonzero (ot walker) ->
  (forall p i t, cfin (calc_otrial p i t) /\ cnonzero (calc_otrial p i t)) ->
  exists l e,
    phaseless_importance self walker system trial eshift xi = Ok l /\
    l_importance_function l = cmul (of_float (mf_const_fac self)) e /\
    cfin e /\ cnonzero e /\ cfin (l_hybrid_energy l) /\
    cfin (l_cfb l) /\ dt (l_self l) = Fin d.
Proof.
intros xbar Hsb Hsx Hsm Hfb Hfx Hfm Hsq Hd Hd0 Heb Hes Hhy Hot Hotnz Hcalc.
destruct (two_body_propagator_ok Hsb Hsx Hsm Hfb Hfx Hfm Hsq)
  as [w1 [cmf [cfb [xs [H2 [Hcmf Hcfb]]]]]].
destruct (two_body_propagator_inv H2) as [_ [_ [_ [_ [_ [_ [Ho [Hh _]]]]]]]].
unfold phaseless_importance; rewrite H2; cbn [bind fst snd].
match goal with
| |- context [calc_otrial ?p ?i ?t] =>
    destruct (Hcalc p i t) as [Hnf Hnnz]; set (ot_new := calc_otrial p i t) in *
end.
change (ot (greens_function (inverse_overlap
          (apply_kinetic (set_nfb_trig self
             (nfb_trig self + Z.of_nat (count exceeds_one xbar))%Z) w1 system)
          trial) trial)) with (ot w1).
rewrite Ho; change (ot (apply_kinetic self walker system)) with (ot walker).
destruct (cfinP Hot) as [c [e Hote]]; rewrite Hote in Hotnz |- *.
destruct (cfinP Hnf) as [a [b Hne]]; rewrite Hne in Hnnz |- *.
apply cnonzero_Fin in Hotnz; apply cnonzero_Fin in Hnnz.
rewrite (complex_div_finite a b Hotnz); cbn [bind].
rewrite (cmath_log_finite (quotient_nonzero Hnnz Hotnz)); cbn [bind].
match goal with
| |- context [complex_div ?z (of_float (dt ?s))] =>
    change (dt s) with (dt self); rewrite Hd;
    destruct (@complex_div_real z d) as [hyb [-> Hhyb]];
      [apply cfin_cneg; apply cfin_cadd; [apply cfin_cadd|];
         [reflexivity|exact Hcfb|exact Hcmf]
      |exact Hd0|]
end.
cbn [bind].
match goal with
| |- context [apply_bound ?s hyb eshift] =>
    destruct (@apply_bound_finite s hyb eshift Heb Hhyb Hes)
      as [Hbf [Hbd Hbm]];
    set (bounded := apply_bound s hyb eshift) in *
end.
unfold importance.
change (hybrid_energy (greens_function (inverse_overlap
          (apply_kinetic (set_nfb_trig self
             (nfb_trig self + Z.of_nat (count exceeds_one xbar))%Z) w1 system)
          trial) trial)) with (hybrid_energy w1).
rewrite Hh; change (hybrid_energy (apply_kinetic self walker system))
  with (hybrid_energy walker).
rewrite Hbd Hbm; cbn [dt mf_const_fac set_nfb_trig]; rewrite Hd.
match goal with
| |- context [cmath_exp ?z] =>
    destruct (@cmath_exp_finite z) as [ex [-> [Hex Hexnz]]]
end.
{ apply cfin_cmul; [reflexivity|].
  apply cfin_csub; [|exact Hes].
  apply cfin_cmul; [reflexivity|now apply cfin_cadd]. }
cbn [bind]; eexists; exists ex; split; [reflexivity|].
cbn [l_importance_function l_hybrid_energy l_cfb l_self].
split; [reflexivity|split; [exact Hex|split; [exact Hexnz|]]].
split; [exact Hbf|split; [exact Hcfb|now rewrite Hbd]].
Qed.

Lemma phaseless_importance_ok self walker system trial eshift xi d :
  let xbar :=
    initial_force_bias self (apply_kinetic self walker system) system trial in
  size xbar = nfields system -> size xi = nfields system ->
  size (mf_shift (propagator self)) = nfields system ->
  all cfin xbar -> all is_finite xi ->
  all cfin (mf_shift (propagator self)) -> is_finite (sqrt_dt self) ->
  dt self = Fin d -> d <> 0 ->
  is_finite (ebound self) -> is_finite (mf_const_fac self) ->
  cfin eshift -> cfin (hybrid_energy walker) ->
  cfin (ot walker) -> cnonzero (ot walker) ->
  (forall p i t, cfin (calc_otrial p i t) /\ cnonzero (calc_otrial p i t)) ->
  exists l,
    phaseless_importance self walker system trial eshift xi = Ok l /\
    cfin (l_importance_function l) /\ cfin (l_hybrid_energy l) /\
    cfin (l_cfb l) /\ dt (l_self l) = Fin d.
Proof.
intros xbar Hsb Hsx Hsm Hfb Hfx Hfm Hsq Hd Hd0 Heb Hmf Hes Hhy Hot Hotnz Hcalc.
destruct (phaseless_importance_shape Hsb Hsx Hsm Hfb Hfx Hfm Hsq Hd Hd0 Heb
            Hes Hhy Hot Hotnz Hcalc)
  as [l [e [Hl [Himp [He [_ [Hhyb [Hcfb Hdl]]]]]]]].
exists l; split; [exact Hl|split; [|auto]].
rewrite Himp; apply cfin_cmul; [now apply cfin_of_float|exact He].
Qed.


(** A phaseless step on finite data with non-zero overlaps returns, and its
    importance function has a finite modulus. *)
Lemma propagate_walker_phaseless_ok self walker system trial eshift xi d :
  let xbar :=
    initial_force_bias self (apply_kinetic self walker system) system trial in
  size xbar = nfields system -> size xi = nfields system ->
  size (mf_shift (propagator self)) = nfields system ->
  all cfin xbar -> all is_finite xi ->
  all cfin (mf_shift (propagator self)) -> is_finite (sqrt_dt self) ->
  dt self = Fin d -> d <> 0 ->
  is_finite (ebound self) -> is_finite (mf_const_fac self) ->
  cfin eshift -> cfin (hybrid_energy walker) ->
  cfin (ot walker) -> cnonzero (ot walker) ->
  (forall p i t, cfin (calc_otrial p i t) /\ cnonzero (calc_otrial p i t)) ->
  exists l self' walker',
    phaseless_importance self walker system trial eshift xi = Ok l /\
    is_nan (cmath_polar (l_importance_function l)).1 = false /\
    propagate_walker_phaseless self walker system trial eshift xi
      = Ok (self', walker').
Proof.
intros xbar Hsb Hsx Hsm Hfb Hfx Hfm Hsq Hd Hd0 Heb Hmf Hes Hhy Hot Hotnz Hcalc.
destruct (phaseless_importance_ok Hsb Hsx Hsm Hfb Hfx Hfm Hsq Hd Hd0 Heb Hmf
            Hes Hhy Hot Hotnz Hcalc) as [l [Hl [Himp [Hhyb [Hcfb Hdl]]]]].
assert (Hdt : is_finite (dt (l_self l))) by (now rewrite Hdl).
destruct (@reweight_ok (l_self l) (l_walker l) _ _ _ (l_ot_new l) (l_xmxbar l)
            Hdt Himp Hhyb Hcfb) as [w' Hw'].
exists l, (l_self l), w'; split; [exact Hl|split].
- destruct (cfinP Himp) as [a [b ->]]; reflexivity.
- unfold propagate_walker_phaseless; rewrite Hl; cbn [bind].
  now rewrite Hw'.
Qed.

(** The constructor returns for a positive finite time step and a known
    system name. *)
Lemma init_ok system trial qmc options verbose d p :
  qmc_dt qmc = Fin d -> 0 < d ->
  get_continuous_propagator system trial qmc options = Some p ->
  exists self,
    __init__ system trial qmc options verbose = Ok self /\
    propagator self = p /\ sqrt_dt self = Fin (sqrt d) /\ dt self = Fin d.
Proof.
intros Hd Hpos Hp; unfold __init__; rewrite Hd Hp.
cbn [float_pow_half].
destruct (Rlt_dec d 0) as [Hneg|Hnn]; [Lra.lra|]; cbn [bind].
unfold float_div.
assert (Hd0 : d <> 0) by Lra.lra.
rewrite (proj2 (feq_Fin_false d 0) Hd0) (fdiv_Fin 2 Hd0).
cbn [bind float_pow_half].
destruct (Rlt_dec (2 / d) 0) as [Hneg|Hnn2].
{ assert (0 < 2 / d) by (apply Rdiv_lt_0_compat; Lra.lra); Lra.lra. }
cbn [bind]; eexists; split; [reflexivity|]; cbn; auto.
Qed.

(** A free-projection step returns on finite data. *)
Lemma propagate_walker_free_ok self walker system trial eshift xi :
  force_bias self = false ->
  size xi = nfields system ->
  size (mf_shift (propagator self)) = nfields system ->
  all is_finite xi -> all cfin (mf_shift (propagator self)) ->
  is_finite (sqrt_dt self) -> is_finite (dt self) -> cfin eshift ->
  exists r, propagate_walker_free self walker system trial eshift xi = Ok r.
Proof.
intros Hfb Hsx Hsm Hfx Hfm Hsq Hdt Hes.
assert (Hxb : initial_force_bias self (apply_kinetic self walker system)
                system trial = nseq (nfields system) c0).
{ unfold initial_force_bias; now rewrite Hfb. }
destruct (@two_body_propagator_ok self (apply_kinetic self walker system)
            system trial xi)
  as [w1 [cmf [cfb [xs [H2 [Hcmf _]]]]]];
  rewrite ?Hxb ?size_nseq ?all_nseq //.
{ now rewrite orbT. }
unfold propagate_walker_free; rewrite H2; cbn [bind fst snd dt set_nfb_trig].
match goal with
| |- context [cmath_exp ?z] =>
    destruct (@cmath_exp_finite z) as [ex [-> [Hex _]]]
end.
{ apply cfin_cadd; [exact Hcmf|].
  apply cfin_cmul; [now apply cfin_of_float|exact Hes]. }
cbn [bind].
destruct (cfinP Hex) as [a [b ->]].
cbn [cmath_polar fst snd c_abs re im hypot atan2]; cx_simpl.
cbn [cmath_exp re im bind]; eexists; reflexivity.
Qed.

(** A NaN overlap goes through the whole step: nothing raises, the
    modulus of the importance function is NaN and so is the new weight. *)
Lemma phaseless_nan_overlap self walker system trial eshift xi s1 w1 out d :
  two_body_propagator self (apply_kinetic self walker system) system trial xi
    = Ok (s1, w1, out) ->
  (forall p i t, calc_otrial p i t = Cx NaN NaN) ->
  cnonzero (ot walker) -> dt self = Fin d -> d <> 0 ->
  exists l walker',
    phaseless_importance self walker system trial eshift xi = Ok l /\
    is_nan (cmath_polar (l_importance_function l)).1 = true /\
    propagate_walker_phaseless self walker system trial eshift xi
      = Ok (s1, walker') /\
    weight walker' = NaN.
Proof.
intros H2 Hcalc Hot Hd Hd0.
destruct (two_body_propagator_inv H2) as [st [_ [Hs1 [_ [_ [_ [Ho _]]]]]]].
assert (Hdt : dt s1 = Fin d) by (now rewrite Hs1).
assert (Hl : exists l,
  phaseless_importance self walker system trial eshift xi = Ok l /\
  l_self l = s1 /\ l_importance_function l = Cx NaN NaN /\
  l_hybrid_energy l = Cx NaN NaN).
{ unfold phaseless_importance; rewrite H2; cbn [bind fst snd].
  rewrite Hcalc.
  change (ot (greens_function (inverse_overlap (apply_kinetic s1 w1 system)
            trial) trial)) with (ot w1).
  rewrite Ho; change (ot (apply_kinetic self walker system)) with (ot walker).
  rewrite (complex_div_nan Hot); cbn [bind cmath_log re im feq andb].
  cbn [c_abs re im hypot flog atan2 bind]; cx_simpl.
  assert (Hnz : cnonzero (of_float (Fin d))).
  { unfold cnonzero; cbn [re im of_float].
    now rewrite (proj2 (feq_Fin_false d 0) Hd0). }
  rewrite Hdt (complex_div_nan Hnz).
  cbn [bind]; unfold apply_bound, fgt; cbn [re].
  rewrite flt_nan_r; cbn [flt fst snd].
  unfold importance; rewrite Hdt; cx_simpl.
  cbn [cmath_exp re im bind]; rewrite ?fmul_nan_r; cbn [fadd fsub fneg].
  eexists; split; [reflexivity|]; cbn; auto. }
destruct Hl as [l [Hl [Hls [Himp Hhyb]]]].
exists l; unfold propagate_walker_phaseless; rewrite Hl; cbn [bind].
unfold reweight; rewrite Himp Hhyb Hls Hdt.
cbn [cmath_polar fst c_abs re im hypot math_isinf negb]; cx_simpl.
cbn [math_cos bind]; unfold max0, fgt; cbn [flt bind].
eexists; split; [reflexivity|split; [reflexivity|split; [reflexivity|]]].
cbn; apply fmul_nan_r.
Qed.

End Continuous.

(** *** Closed instances

    The collaborators are instantiated by the simplest objects of the right
    shape: determinants and operator matrices carry no data, the system has
    two auxiliary fields, and the system-specific propagator returns a
    fixed bias vector. *)

Definition nd_dot (_ _ : unit) : unit := tt.
Definition nd_div (_ : unit) (_ : nat) : unit := tt.
Definition nd_add (_ _ : unit) : unit := tt.
Definition nd_inverse_overlap (_ : unit * unit) (_ : unit) : unit := tt.
Definition nd_greens_function (_ : unit * unit) (_ _ : unit) : unit := tt.
Definition nd_kinetic_real (p : unit * unit) (_ : System) (_ : unit)
  : unit * unit := p.

(** An overlap routine that always answers [z]. *)
Definition const_otrial (z : pycomplex) (_ : unit * unit) (_ _ : unit)
  : pycomplex := z.

Definition stub_propagator (bias : seq pycomplex) : Propagator unit unit :=
  {| mf_core := c0; mf_shift := [:: c0; c0]; BH1 := tt;
     construct_force_bias := fun _ _ _ => bias;
     construct_VHS := fun _ _ => tt |}.

Definition stub_class (bias : seq pycomplex) (_ : System) (_ : unit)
    (_ : QMCOpts) (_ : seq (string * pyval)) : Propagator unit unit :=
  stub_propagator bias.

Definition hubbard2 : System :=
  {| name := "Hubbard"; nfields := 2; nup := 1; ndown := 1 |}.

Definition qmc_opts : QMCOpts := {| qmc_dt := Fin (1 / 100); qmc_nstblz := 10 |}.

Definition walker1 : Walker unit :=
  {| phi := (tt, tt); weight := Fin 1; phase := Cx (Fin 1) (Fin 0);
     ot := Cx (Fin 1) (Fin 0); hybrid_energy := c0; inv_ovlp := tt; G := tt;
     field_configs := Some [::] |}.

(** A bias vector with two components of magnitude above one. *)
Definition bias23 : seq pycomplex := [:: Cx (Fin 2) (Fin 0); Cx (Fin 3) (Fin 0)].

(** A phaseless propagator with force bias whose bias vector is [bias]. *)
Definition phaseless_self (bias : seq pycomplex) : Continuous unit unit :=
  {| free_projection := false; force_bias := true; exp_nmax := 6;
     dt := Fin (1 / 100); sqrt_dt := Fin (sqrt (1 / 100));
     isqrt_dt := Cx (Fin 0) (Fin (sqrt (1 / 100)));
     propagator := stub_propagator bias;
     mf_const_fac := Fin 1; BT_BP := tt; nstblz := 10;
     nfb_trig := 0; nhe_trig := 0; ebound := Fin (sqrt (2 / (1 / 100)));
     mean_local_energy := 0; verbose := false |}.

Definition xi0 : seq pyfloat := [:: Fin 0; Fin 0].

Lemma c_abs_real x : 0 <= x -> c_abs (Cx (Fin x) (Fin 0)) = Fin x.
Proof.
intros Hx; unfold c_abs; cbn [re im hypot]; f_equal.
replace (x * x + 0 * 0) with (x * x) by ring.
now apply sqrt_square.
Qed.

Lemma exceeds_one_real x : 1 < x -> exceeds_one (Cx (Fin x) (Fin 0)) = true.
Proof.
intros Hx; unfold exceeds_one, fgt.
assert (H0 : 0 <= x) by Lra.lra.
rewrite (c_abs_real H0); now apply flt_Fin.
Qed.

Lemma count_bias23 : count exceeds_one bias23 = 2%nat.
Proof.
assert (H2 : 1 < 2) by Lra.lra.
assert (H3 : 1 < 3) by Lra.lra.
cbn [count bias23]; now rewrite (exceeds_one_real H2) (exceeds_one_real H3).
Qed.

Lemma two_body_bias23 :
  exists walker' out,
    two_body_propagator nd_dot nd_div nd_add (phaseless_self bias23) walker1
      hubbard2 tt xi0
    = Ok (set_nfb_trig (phaseless_self bias23) 2, walker', out).
Proof.
destruct (@two_body_propagator_ok _ nd_dot nd_div nd_add _
            (phaseless_self bias23) walker1 hubbard2 tt xi0)
  as [w [cmf [cfb [xs [H _]]]]]; try reflexivity.
exists w, (cmf, cfb, xs); rewrite H.
change (initial_force_bias (phaseless_self bias23) walker1 hubbard2 tt)
  with bias23.
now rewrite count_bias23.
Qed.

(** C3, counterexample: one call of [two_body_propagator] in which two
    components of the bias exceed one takes the counter from 0 to 2. *)
Lemma force_bias_counter_counts_components :
  nfb_trig (phaseless_self bias23) = 0%Z /\
  exists self' walker' out,
    two_body_propagator nd_dot nd_div nd_add (phaseless_self bias23) walker1
      hubbard2 tt xi0 = Ok (self', walker', out) /\
    nfb_trig self' = 2%Z.
Proof.
split; [reflexivity|].
destruct two_body_bias23 as [w [o H]].
now exists (set_nfb_trig (phaseless_self bias23) 2), w, o.
Qed.

(** Witness of C3 (as the code behaves). *)
Lemma two_body_propagator_force_bias_clamp_witness :
  exists self' walker' out,
    two_body_propagator nd_dot nd_div nd_add (phaseless_self bias23) walker1
      hubbard2 tt xi0 = Ok (self', walker', out) /\
    nfb_trig self'
      = (nfb_trig (phaseless_self bias23)
         + Z.of_nat (count exceeds_one
             (initial_force_bias (phaseless_self bias23) walker1 hubbard2 tt)))%Z.
Proof.
destruct two_body_bias23 as [w [o H]].
exists (set_nfb_trig (phaseless_self bias23) 2), w, o; split; [exact H|].
exact (proj1 (@two_body_propagator_force_bias_clamp _ nd_dot nd_div nd_add _
                (phaseless_self bias23) walker1 hubbard2 tt xi0 _ w o
                (erefl _) H)).
Defined.

(** Options that ask for free projection and for force bias at once. *)
Definition free_options : seq (string * pyval) :=
  [:: ("free_projection"%string, VBool true); ("force_bias"%string, VBool true)].

Lemma init_free :
  exists self,
    __init__ (stub_class bias23) (stub_class bias23) (stub_class bias23)
      hubbard2 tt qmc_opts free_options false = Ok self /\
    propagator self = stub_propagator bias23 /\
    sqrt_dt self = Fin (sqrt (1 / 100)) /\ dt self = Fin (1 / 100).
Proof.
apply init_ok; [reflexivity|Lra.lra|reflexivity].
Qed.

(** Witness of C8: a propagator built with [free_projection] and
    [force_bias] both set, then one free-projection step. *)
Lemma free_projection_never_clamps_witness :
  exists self self' walker',
    __init__ (stub_class bias23) (stub_class bias23) (stub_class bias23)
      hubbard2 tt qmc_opts free_options false = Ok self /\
    propagate_steps nd_dot nd_div nd_add nd_inverse_overlap
      nd_greens_function (const_otrial (Cx (Fin 1) (Fin 0))) nd_kinetic_real
      self walker1 hubbard2 tt [:: (c0, xi0)] = Ok (self', walker') /\
    force_bias self = false /\ nfb_trig self' = 0%Z.
Proof.
destruct init_free as [self [Hinit [Hp [Hsq Hdt]]]].
destruct (init_flags Hinit) as [Hfree [Hfb _]].
change (truthy (dict_get free_options "free_projection" (VBool false)))
  with true in Hfree.
rewrite Hfree in Hfb.
destruct (@propagate_walker_free_ok _ nd_dot nd_div nd_add _
            nd_inverse_overlap nd_greens_function
            (const_otrial (Cx (Fin 1) (Fin 0))) nd_kinetic_real
            self walker1 hubbard2 tt c0 xi0) as [[s1 w1] Hstep];
  rewrite ?Hp ?Hsq ?Hdt //.
assert (Hrun : propagate_steps nd_dot nd_div nd_add nd_inverse_overlap
      nd_greens_function (const_otrial (Cx (Fin 1) (Fin 0))) nd_kinetic_real
      self walker1 hubbard2 tt [:: (c0, xi0)] = Ok (s1, w1)).
{ cbn [propagate_steps]; unfold propagate_walker; rewrite Hfree Hstep.
  reflexivity. }
exists self, s1, w1; split; [exact Hinit|split; [exact Hrun|]].
exact (@free_projection_never_clamps _ nd_dot nd_div nd_add _
         nd_inverse_overlap nd_greens_function
         (const_otrial (Cx (Fin 1) (Fin 0))) nd_kinetic_real
         (stub_class bias23) (stub_class bias23) (stub_class bias23)
         hubbard2 tt qmc_opts free_options false self walker1
         [:: (c0, xi0)] s1 w1 (erefl _) Hinit Hrun).
Defined.

(** The propagator built with default options. *)
Lemma init_default :
  exists self,
    __init__ (stub_class bias23) (stub_class bias23) (stub_class bias23)
      hubbard2 tt qmc_opts [::] false = Ok self /\
    propagator self = stub_propagator bias23 /\
    sqrt_dt self = Fin (sqrt (1 / 100)) /\ dt self = Fin (1 / 100).
Proof.
apply init_ok; [reflexivity|Lra.lra|reflexivity].
Qed.

Lemma dt_positive : 0 < 1 / 100.
Proof. Lra.lra. Qed.

(** Witness of C7 (as the code behaves): that propagator after three earlier
    clamps, a hybrid energy of real part 100 and a zero reference energy. *)
Lemma apply_bound_clamps_real_part_witness :
  exists self0,
    __init__ (stub_class bias23) (stub_class bias23) (stub_class bias23)
      hubbard2 tt qmc_opts [::] false = Ok self0 /\
    let self := set_nhe_trig self0 3 in
    let ehyb := Cx (Fin 100) (Fin 1) in
    let bound := sqrt (2 / (1 / 100)) in
    let r := apply_bound self ehyb c0 in
    ebound self = Fin bound /\
    (exists x', r.2 = Cx (Fin x') (Fin 1) /\ Rabs (x' - 0) <= bound) /\
    (forall x, Fin 100 = Fin x -> Rabs (x - 0) <= bound ->
       r.2 = ehyb /\ nhe_trig r.1 = nhe_trig self) /\
    ((forall x, Fin 100 = Fin x -> bound < Rabs (x - 0)) ->
       r.2 <> ehyb /\ nhe_trig r.1 = (nhe_trig self + 1)%Z).
Proof.
destruct init_default as [self0 [Hinit _]].
exists self0; split; [exact Hinit|].
exact (@apply_bound_clamps_real_part _ _ (stub_class bias23)
         (stub_class bias23) (stub_class bias23) hubbard2 tt qmc_opts
         [::] false self0 (set_nhe_trig self0 3) (1 / 100) (Fin 100) 1 c0 0
         Hinit (erefl _) dt_positive (erefl _) (erefl _) (erefl _)).
Defined.

(** C7, counterexample: for the same propagator, a hybrid energy whose real
    part is NaN fails both comparisons and is returned as it is, uncounted:
    the real part of the result is no number within the bound. A finite
    real part above the bound together with an infinite imaginary part is
    clamped and counted, but [1j*ehyb.imag] then has a NaN real part, and so
    has the result. *)
Lemma apply_bound_nan_not_clamped :
  exists self,
    __init__ (stub_class bias23) (stub_class bias23) (stub_class bias23)
      hubbard2 tt qmc_opts [::] false = Ok self /\
    apply_bound self (Cx NaN (Fin 1)) c0 = (self, Cx NaN (Fin 1)) /\
    re (apply_bound self (Cx (Fin 100) PInf) c0).2 = NaN /\
    forall ehyb, re (apply_bound self ehyb c0).2 = NaN ->
      ~ exists x', re (apply_bound self ehyb c0).2 = Fin x' /\
                   Rabs (x' - 0) <= sqrt (2 / (1 / 100)).
Proof.
destruct init_default as [self [Hinit _]].
destruct (init_finite_dt Hinit (erefl _)) as [_ [_ Hb]].
exists self; split; [exact Hinit|split; [|split]].
- unfold apply_bound, fgt; rewrite Hb; reflexivity.
- unfold apply_bound, fgt; rewrite Hb.
  cbn [re im c0 fadd fsub fneg].
  assert (Hlt : 0 + sqrt (2 / (1 / 100)) < 100).
  { rewrite Rplus_0_l.
    replace (2 / (1 / 100)) with 200 by field.
    apply Rlt_le_trans with (sqrt (100 * 100));
      [apply sqrt_lt_1_alt; Lra.lra|right; apply sqrt_square; Lra.lra]. }
  rewrite (proj2 (flt_Fin _ _) Hlt); cbn [snd].
  cx_simpl; unfold inf_signed; rewrite Rsign_0; reflexivity.
- intros ehyb -> [x' [Hx' _]]; discriminate.
Qed.

(** The weight update on an importance function whose modulus is NaN:
    [math.isinf(nan)] is false, the regular branch multiplies the weight by
    NaN. *)
Lemma reweight_nan_modulus :
  exists walker',
    reweight (phaseless_self bias23) walker1 (Cx NaN NaN) (Cx NaN NaN) c0
      (Cx NaN NaN) [::] = Ok walker' /\
    weight walker' = NaN.
Proof.
unfold reweight.
cbn [cmath_polar fst c_abs re im hypot math_isinf negb]; cx_simpl.
cbn [phaseless_self dt fneg fmul fadd math_cos bind]; unfold max0, fgt.
cbn [flt bind].
eexists; split; reflexivity.
Qed.

Lemma phase_walker1 : c_abs (phase walker1) = Fin 1.
Proof. apply c_abs_real; Lra.lra. Qed.

Lemma dt_nonzero : 1 / 100 <> 0.
Proof. Lra.lra. Qed.

Lemma const_otrial_one p i t :
  cfin (const_otrial (Cx (Fin 1) (Fin 0)) p i t) /\
  cnonzero (const_otrial (Cx (Fin 1) (Fin 0)) p i t).
Proof.
unfold const_otrial, cnonzero; split; [reflexivity|]; cbn [re im].
assert (H : 1 <> 0) by Lra.lra.
now rewrite (proj2 (feq_Fin_false 1 0) H).
Qed.

Lemma cnonzero_ot_walker1 : cnonzero (ot walker1).
Proof. exact (proj2 (const_otrial_one (tt, tt) tt tt)). Qed.

(** Witness of C4 (as the code behaves): a phaseless step with force bias on a
    walker of weight 1 whose overlap with the trial state stays 1. *)
Lemma phaseless_step_keeps_weight_and_phase_witness :
  exists l self' walker',
    phaseless_importance nd_dot nd_div nd_add nd_inverse_overlap
      nd_greens_function (const_otrial (Cx (Fin 1) (Fin 0))) nd_kinetic_real
      (phaseless_self bias23) walker1 hubbard2 tt c0 xi0 = Ok l /\
    is_nan (cmath_polar (l_importance_function l)).1 = false /\
    propagate_walker_phaseless nd_dot nd_div nd_add nd_inverse_overlap
      nd_greens_function (const_otrial (Cx (Fin 1) (Fin 0))) nd_kinetic_real
      (phaseless_self bias23) walker1 hubbard2 tt c0 xi0
      = Ok (self', walker') /\
    (exists w', weight walker' = Fin w' /\ 0 <= w') /\
    phase walker' = phase walker1 /\ c_abs (phase walker') = Fin 1.
Proof.
destruct (@propagate_walker_phaseless_ok _ nd_dot nd_div nd_add _
            nd_inverse_overlap nd_greens_function
            (const_otrial (Cx (Fin 1) (Fin 0))) nd_kinetic_real
            (phaseless_self bias23) walker1 hubbard2 tt c0 xi0 (1 / 100)
            (erefl _) (erefl _) (erefl _) (erefl _) (erefl _) (erefl _)
            (erefl _) (erefl _) dt_nonzero (erefl _) (erefl _) (erefl _)
            (erefl _) (erefl _) cnonzero_ot_walker1 const_otrial_one)
  as [l [self' [walker' [Hl [Hnan Hstep]]]]].
exists l, self', walker'.
split; [exact Hl|split; [exact Hnan|split; [exact Hstep|]]].
exact (@phaseless_step_keeps_weight_and_phase _ nd_dot nd_div nd_add _
         nd_inverse_overlap nd_greens_function
         (const_otrial (Cx (Fin 1) (Fin 0))) nd_kinetic_real
         (phaseless_self bias23) walker1 hubbard2 tt c0 xi0 l self' walker' 1
         (erefl _) Rle_0_1 phase_walker1 Hl Hnan Hstep).
Defined.

(** C4, counterexample: the same step when the overlap with the trial state
    evaluates to NaN. The walker enters with weight 1 and a phase of modulus
    1; the step returns normally and leaves the weight NaN. *)
Lemma phaseless_step_nan_weight :
  weight walker1 = Fin 1 /\ c_abs (phase walker1) = Fin 1 /\
  exists self' walker',
    propagate_walker_phaseless nd_dot nd_div nd_add nd_inverse_overlap
      nd_greens_function (const_otrial (Cx NaN NaN)) nd_kinetic_real
      (phaseless_self bias23) walker1 hubbard2 tt c0 xi0
      = Ok (self', walker') /\
    weight walker' = NaN.
Proof.
split; [reflexivity|split; [exact phase_walker1|]].
destruct two_body_bias23 as [w [o H2]].
destruct (@phaseless_nan_overlap _ nd_dot nd_div nd_add _
            nd_inverse_overlap nd_greens_function
            (const_otrial (Cx NaN NaN)) nd_kinetic_real
            (phaseless_self bias23) walker1 hubbard2 tt c0 xi0 _ w o (1 / 100)
            H2 (fun _ _ _ => erefl _) cnonzero_ot_walker1 (erefl _) dt_nonzero)
  as [l [walker' [_ [_ [Hstep Hw]]]]].
now exists (set_nfb_trig (phaseless_self bias23) 2), walker'.
Qed.

(** A propagator whose constant factor [mf_const_fac] has overflowed. *)
Definition saturated_self : Continuous unit unit :=
  {| free_projection := false; force_bias := true; exp_nmax := 6;
     dt := Fin (1 / 100); sqrt_dt := Fin (sqrt (1 / 100));
     isqrt_dt := Cx (Fin 0) (Fin (sqrt (1 / 100)));
     propagator := stub_propagator bias23;
     mf_const_fac := PInf; BT_BP := tt; nstblz := 10;
     nfb_trig := 0; nhe_trig := 0; ebound := Fin (sqrt (2 / (1 / 100)));
     mean_local_energy := 0; verbose := false |}.

(** Witness of C2 (as the code behaves): with an infinite constant factor the
    importance function has infinite modulus, and the step sets the weight
    to zero. *)
Lemma phaseless_infinite_modulus_zeroes_weight_witness :
  exists l walker',
    phaseless_importance nd_dot nd_div nd_add nd_inverse_overlap
      nd_greens_function (const_otrial (Cx (Fin 1) (Fin 0))) nd_kinetic_real
      saturated_self walker1 hubbard2 tt c0 xi0 = Ok l /\
    math_isinf (cmath_polar (l_importance_function l)).1 = true /\
    propagate_walker_phaseless nd_dot nd_div nd_add nd_inverse_overlap
      nd_greens_function (const_otrial (Cx (Fin 1) (Fin 0))) nd_kinetic_real
      saturated_self walker1 hubbard2 tt c0 xi0 = Ok (l_self l, walker') /\
    weight walker' = Fin 0 /\ ot walker' = l_ot_new l.
Proof.
destruct (@phaseless_importance_shape _ nd_dot nd_div nd_add _
            nd_inverse_overlap nd_greens_function
            (const_otrial (Cx (Fin 1) (Fin 0))) nd_kinetic_real
            saturated_self walker1 hubbard2 tt c0 xi0 (1 / 100)
            (erefl _) (erefl _) (erefl _) (erefl _) (erefl _) (erefl _)
            (erefl _) (erefl _) dt_nonzero (erefl _) (erefl _)
            (erefl _) (erefl _) cnonzero_ot_walker1 const_otrial_one)
  as [l [e [Hl [Himp [He [Hnz _]]]]]].
assert (Hinf : math_isinf (cmath_polar (l_importance_function l)).1 = true).
{ rewrite Himp; cbn [cmath_polar fst mf_const_fac saturated_self].
  now rewrite (c_abs_inf_factor He Hnz). }
destruct (@phaseless_infinite_modulus_zeroes_weight _ nd_dot nd_div nd_add _
            nd_inverse_overlap nd_greens_function
            (const_otrial (Cx (Fin 1) (Fin 0))) nd_kinetic_real
            saturated_self walker1 hubbard2 tt c0 xi0 l Hl Hinf)
  as [walker' Hw].
exists l, walker'; split; [exact Hl|split; [exact Hinf|exact Hw]].
Defined.

(** C2, counterexample: when the overlap with the trial state evaluates to
    NaN, the importance function of the step has modulus NaN; the step
    returns normally and the weight, 1 before the step, is NaN afterwards,
    not zero. *)
Lemma phaseless_nan_modulus_not_zeroed :
  exists l self' walker',
    phaseless_importance nd_dot nd_div nd_add nd_inverse_overlap
      nd_greens_function (const_otrial (Cx NaN NaN)) nd_kinetic_real
      (phaseless_self bias23) walker1 hubbard2 tt c0 xi0 = Ok l /\
    is_nan (cmath_polar (l_importance_function l)).1 = true /\
    propagate_walker_phaseless nd_dot nd_div nd_add nd_inverse_overlap
      nd_greens_function (const_otrial (Cx NaN NaN)) nd_kinetic_real
      (phaseless_self bias23) walker1 hubbard2 tt c0 xi0
      = Ok (self', walker') /\
    weight walker' <> Fin 0.
Proof.
destruct two_body_bias23 as [w [o H2]].
destruct (@phaseless_nan_overlap _ nd_dot nd_div nd_add _
            nd_inverse_overlap nd_greens_function
            (const_otrial (Cx NaN NaN)) nd_kinetic_real
            (phaseless_self bias23) walker1 hubbard2 tt c0 xi0 _ w o (1 / 100)
            H2 (fun _ _ _ => erefl _) cnonzero_ot_walker1 (erefl _) dt_nonzero)
  as [l [walker' [Hl [Hnan [Hstep Hw]]]]].
exists l, (set_nfb_trig (phaseless_self bias23) 2), walker'.
split; [exact Hl|split; [exact Hnan|split; [exact Hstep|]]].
now rewrite Hw.
Qed.

End Propagation.

(** ** Part III: further properties of [afqmcpy/estimators.py] *)

Module Observables.
Import Estimators.
Import GRing.Theory Num.Theory.
Local Open Scope ring_scope.

Section Algebra.
Variable C : numClosedFieldType.

Lemma conjT_mul m n p (A : 'M[C]_(m, n)) (M : 'M[C]_(n, p)) :
  conjT (A *m M) = conjT M *m conjT A.
Proof. by rewrite /conjT map_mxM trmx_mul. Qed.

Lemma conjTK m n (A : 'M[C]_(m, n)) : conjT (conjT A) = A.
Proof.
rewrite /conjT map_trmx trmxK -map_mx_comp.
by apply/matrixP=> i j; rewrite !mxE /= conjCK.
Qed.

Lemma unitmx_conjT n (M : 'M[C]_n) : (conjT M \in unitmx) = (M \in unitmx).
Proof.
by rewrite /conjT unitmx_tr !unitmxE det_map_mx !unitfE fmorph_eq0.
Qed.

(** X1. The trace of a matrix returned by [gab] is the number of columns of
    the determinants, that is the number of occupied orbitals. *)
Theorem gab_trace nbasis nocc (A B : 'M[C]_(nbasis, nocc)) G :
  gab A B = Some G -> \tr G = nocc%:R.
Proof.
case/gab_Some_unit=> HS ->.
by rewrite mxtrace_tr mxtrace_mulC -mulmxA mulVmx // mxtrace1.
Qed.

(** X2. The transpose of [gab A B] leaves every column of [B] in place, and
    [conj(A)^T] is unchanged when it is multiplied by it on the right: the
    result is the projector onto the span of [B] along the complement of
    [A]. *)
Theorem gab_fixes_columns nbasis nocc (A B : 'M[C]_(nbasis, nocc)) G :
  gab A B = Some G -> G^T *m B = B /\ conjT A *m G^T = conjT A.
Proof.
case/gab_Some_unit=> HS ->; rewrite trmxK; split.
  by rewrite -!mulmxA mulVmx // mulmx1.
by rewrite !mulmxA mulmxV // mul1mx.
Qed.

Lemma invmx_mul n (X Y : 'M[C]_n) :
  X \in unitmx -> Y \in unitmx -> invmx (X *m Y) = invmx Y *m invmx X.
Proof.
move=> HX HY.
have HXY : X *m Y \in unitmx by rewrite unitmx_mul HX HY.
rewrite -[RHS](mulKmx HXY).
by rewrite -[X *m Y *m _]mulmxA [Y *m _]mulmxA mulmxV // mul1mx mulmxV // mulmx1.
Qed.

Lemma conjT_tr m n (X : 'M[C]_(m, n)) : conjT X^T = (conjT X)^T.
Proof. by rewrite /conjT -map_trmx. Qed.

Lemma invmx_conjT n (X : 'M[C]_n) : invmx (conjT X) = conjT (invmx X).
Proof. by rewrite /conjT map_invmx trmx_inv. Qed.

(** X3. [gab] depends only on the spaces the two determinants span: mixing
    the columns of [A] by an invertible matrix and those of [B] by another
    (rescaling or re-orthogonalising a walker, for instance) changes neither
    whether the call returns nor the matrix it returns. *)
Theorem gab_change_of_basis nbasis nocc (A B : 'M[C]_(nbasis, nocc))
    (M N : 'M[C]_nocc) :
  M \in unitmx -> N \in unitmx -> gab (A *m M) (B *m N) = gab A B.
Proof.
move=> HM HN; rewrite /gab /scipy_linalg_inv conjT_mul.
have HM' : conjT M \in unitmx by rewrite unitmx_conjT.
have -> : conjT M *m conjT A *m (B *m N) = conjT M *m (conjT A *m B) *m N.
  by rewrite !mulmxA.
rewrite !unitmx_mul HM' HN andbT /=.
case: ifP => // HS; congr (Some _^T).
rewrite !invmx_mul ?unitmx_mul ?HM' ?HS //.
rewrite -!mulmxA; congr (_ *m _).
rewrite !mulmxA mulmxV // mul1mx -!mulmxA; congr (_ *m _).
by rewrite mulmxA mulVmx // mul1mx.
Qed.

(** X4. Exchanging the two determinants conjugates and transposes the result:
    when [gab A B] returns [G], [gab B A] returns [conj(G)^T]. *)
Theorem gab_swap nbasis nocc (A B : 'M[C]_(nbasis, nocc)) G :
  gab A B = Some G -> gab B A = Some (conjT G).
Proof.
case/gab_Some_unit=> HS ->.
have ES : conjT B *m A = conjT (conjT A *m B) by rewrite conjT_mul conjTK.
have HS' : conjT B *m A \in unitmx by rewrite ES unitmx_conjT.
rewrite (gab_unit HS') ES invmx_conjT; congr (Some _).
rewrite conjT_tr !conjT_mul conjTK mulmxA.
done.
Qed.

End Algebra.

Section BackPropagated.

Variable C : numClosedFieldType.
Variables nbasis nup ndown : nat.
Notation walker := (walker C nbasis nup ndown).
Notation system := (system C nbasis).

(** The walker [w] with its weight multiplied by [c]. *)
Definition scale_weight (c : C) (w : walker) : walker :=
  Walker (phi w) (c * weight w).

Lemma foldl_weight acc (psi : seq walker) :
  foldl (fun a w => a + weight w) acc psi = acc + \sum_(w <- psi) weight w.
Proof.
elim: psi acc => [|w psi IH] acc /=; first by rewrite big_nil addr0.
by rewrite IH big_cons addrA.
Qed.

(** [sum(w.weight for w in psi)] as a sum. *)
Lemma total_weight (psi : seq walker) :
  foldl (fun acc w => acc + weight w) 0 psi = \sum_(w <- psi) weight w.
Proof. by rewrite foldl_weight add0r. Qed.

Lemma bp_loop_scale (sys : system) c acc psi psit psib :
  bp_loop sys (scale3 c acc) (zip (zip [seq scale_weight c w | w <- psi] psit) psib)
    = omap (scale3 c) (bp_loop sys acc (zip (zip psi psit) psib)).
Proof.
elim: psi psit psib acc => [|w psi IH] [|wt psit] [|wb psib] acc //=.
case: (gab _ _) => [G0|] //; case: (gab _ _) => [G1|] //.
rewrite -IH; congr (bp_loop _ _ _).
rewrite /scale3 /add3 /=.
by rewrite !mulrDr !mulrA.
Qed.

(** X5. When the weights of [psi] do not sum to zero, multiplying every one of
    them by the same non-zero factor does not change what
    [back_propagated_energy] returns. *)
Theorem back_propagated_energy_scale (sys : system) c psi psit psib :
  c != 0 -> \sum_(w <- psi) weight w != 0 ->
  back_propagated_energy sys [seq scale_weight c w | w <- psi] psit psib
    = back_propagated_energy sys psi psit psib.
Proof.
move=> Hc HW; rewrite /back_propagated_energy.
have E0 : scale3 c (0, 0, 0) = (0, 0, 0) :> C * C * C.
  by rewrite /scale3 /= !mulr0.
rewrite -{1}E0 bp_loop_scale !total_weight big_map /= -mulr_sumr.
case: (bp_loop _ _ _) => [e|] //=.
rewrite mulf_eq0 (negbTE Hc) (negbTE HW) /=; congr Some.
rewrite /div3 /scale3 /=.
by rewrite !invfM !mulrA ![c * _ * c^-1]mulrAC !mulfV // !mul1r.
Qed.

Lemma bp_loop_same (sys : system) acc (psi : seq walker) (wt wb : walker) G0 G1 :
  gab (phi wb).1 (phi wt).1 = Some G0 ->
  gab (phi wb).2 (phi wt).2 = Some G1 ->
  bp_loop sys acc (zip (zip psi (nseq (size psi) wt)) (nseq (size psi) wb))
    = Some (add3 acc (scale3 (\sum_(w <- psi) weight w)
                        (local_energy sys (G0, G1)))).
Proof.
move=> HG0 HG1; elim: psi acc => [|w psi IH] acc /=.
  by rewrite big_nil /add3 /scale3 /= !mul0r !addr0; case: acc => [[]].
rewrite HG0 HG1 IH big_cons; congr Some.
by rewrite /add3 /scale3 /= !mulrDl !addrA.
Qed.

(** X6. When every walker of [psi] is paired with the same two determinants
    [wt] and [wb], [back_propagated_energy] returns the local energy of that
    pair, whatever the individual weights, provided their sum is not zero. *)
Theorem back_propagated_energy_same_determinants
    (sys : system) (psi : seq walker) (wt wb : walker) G0 G1 :
  \sum_(w <- psi) weight w != 0 ->
  gab (phi wb).1 (phi wt).1 = Some G0 ->
  gab (phi wb).2 (phi wt).2 = Some G1 ->
  back_propagated_energy sys psi (nseq (size psi) wt) (nseq (size psi) wb)
    = Some (local_energy sys (G0, G1)).
Proof.
move=> Hw HG0 HG1.
rewrite /back_propagated_energy (bp_loop_same _ _ _ HG0 HG1) total_weight.
rewrite (negbTE Hw); congr Some.
case: (local_energy _ _) => [[e1 e2] e3].
rewrite /div3 /add3 /scale3 /= !add0r.
by rewrite ![_ * _ / _]mulrAC !mulfV // !mul1r.
Qed.

Lemma zip_cat_short (S T : Type) (s s' : seq S) (t : seq T) :
  (size t <= size s)%nat -> zip (s ++ s') t = zip s t.
Proof.
elim: s t => [|x s IH] [|y t] //=; first by case: s'.
by rewrite ltnS => /IH ->.
Qed.

(** X7. [zip] stops at the shortest list, but the denominator sums the weights
    of the whole of [psi]: walkers of [psi] that have no partner in [psit]
    leave the sum of the loop as it is and scale the returned estimate by
    the ratio of the two total weights. *)
Theorem back_propagated_energy_unmatched
    (sys : system) (psi extra psit psib : seq walker) e :
  (size psit <= size psi)%nat ->
  back_propagated_energy sys psi psit psib = Some e ->
  \sum_(w <- psi ++ extra) weight w != 0 ->
  back_propagated_energy sys (psi ++ extra) psit psib
    = Some (scale3 ((\sum_(w <- psi) weight w)
                      / (\sum_(w <- psi ++ extra) weight w)) e).
Proof.
move=> Hs; rewrite /back_propagated_energy zip_cat_short // !total_weight.
case: (bp_loop _ _ _) => [est|] //.
case: ifP => // /negbT HW [<-] /negbTE ->; congr Some.
set W := \sum_(w <- psi) weight w in HW *.
set W' := \sum_(w <- psi ++ extra) weight w.
have E x : W / W' * (x / W) = x / W' by rewrite mulrC mulrA divfK.
by rewrite /scale3 /div3 /= !E.
Qed.

(** X8. [local_energy] does not distinguish the two spin species: exchanging
    [G[0]] and [G[1]] gives the same three energies. *)
Theorem local_energy_spin_symmetric (sys : system) (G0 G1 : 'M[C]_nbasis) :
  local_energy sys (G0, G1) = local_energy sys (G1, G0).
Proof.
rewrite /local_energy /= [G1 + G0]addrC.
by congr (_ + _, _, _); apply: eq_bigr => i _; rewrite mulrAC -!mulrA
  [G1 i i * _]mulrC.
Qed.

End BackPropagated.

(** *** Closed instances over the algebraic numbers *)

Definition two : algC := 2%:R.

Lemma two_neq0 : two != 0.
Proof. by rewrite /two pnatr_eq0. Qed.

Lemma two_unit : (two%:M : 'M[algC]_1) \in unitmx.
Proof. by rewrite unitmxE det_scalar unitfE expf_neq0 // two_neq0. Qed.

Lemma weight_w1 : weight w1 = 1.
Proof. by []. Qed.

Lemma total_weight_w1 : \sum_(w <- [:: w1; w1]) weight w != 0.
Proof.
by rewrite !big_cons big_nil addr0 !weight_w1 -[1]/(1%:R) -natrD pnatr_eq0.
Qed.

Lemma bp_w1 :
  back_propagated_energy sys1 [:: w1] [:: w1] [:: w1]
    = Some (local_energy sys1 (I1, I1)).
Proof.
rewrite /back_propagated_energy.
rewrite (@bp_loop_same _ _ _ _ sys1 (0, 0, 0) [:: w1] w1 w1 I1 I1 gab_I1 gab_I1).
rewrite total_weight.
rewrite big_seq1 weight_w1 oner_eq0; congr Some.
case: (local_energy _ _) => [[e1 e2] e3].
by rewrite /div3 /add3 /scale3 /= !add0r !mul1r !divr1.
Qed.

(** An instance of X1. *)
Lemma gab_trace_witness : gab I1 I1 = Some I1 /\ \tr I1 = (1%:R : algC).
Proof. split; [exact gab_I1|exact (gab_trace gab_I1)]. Defined.

(** An instance of X2. *)
Lemma gab_fixes_columns_witness :
  gab I1 I1 = Some I1 /\ I1^T *m I1 = I1 /\ conjT I1 *m I1^T = conjT I1.
Proof. split; [exact gab_I1|exact (gab_fixes_columns gab_I1)]. Defined.

(** An instance of X3. *)
Lemma gab_change_of_basis_witness :
  (two%:M : 'M[algC]_1) \in unitmx /\
  gab (I1 *m two%:M) (I1 *m two%:M) = gab I1 I1.
Proof.
split; [exact two_unit|exact (gab_change_of_basis I1 I1 two_unit two_unit)].
Defined.

(** An instance of X4. *)
Lemma gab_swap_witness :
  gab I1 I1 = Some I1 /\ gab I1 I1 = Some (conjT I1).
Proof. split; [exact gab_I1|exact (gab_swap gab_I1)]. Defined.

(** An instance of X5. *)
Lemma back_propagated_energy_scale_witness :
  two != 0 /\ \sum_(w <- [:: w1; w1]) weight w != 0 /\
  back_propagated_energy sys1 [seq scale_weight two w | w <- [:: w1; w1]]
      [:: w1; w1] [:: w1; w1]
    = back_propagated_energy sys1 [:: w1; w1] [:: w1; w1] [:: w1; w1].
Proof.
split; [exact two_neq0|split; [exact total_weight_w1|]].
exact (@back_propagated_energy_scale _ _ _ _ sys1 two [:: w1; w1]
         [:: w1; w1] [:: w1; w1] two_neq0 total_weight_w1).
Defined.

(** An instance of X6. *)
Lemma back_propagated_energy_same_determinants_witness :
  \sum_(w <- [:: w1; w1]) weight w != 0 /\
  back_propagated_energy sys1 [:: w1; w1] [:: w1; w1] [:: w1; w1]
    = Some (local_energy sys1 (I1, I1)).
Proof.
split; [exact total_weight_w1|].
exact (@back_propagated_energy_same_determinants _ _ _ _ sys1 [:: w1; w1]
         w1 w1 I1 I1 total_weight_w1 gab_I1 gab_I1).
Defined.

(** An instance of X7. *)
Lemma back_propagated_energy_unmatched_witness :
  back_propagated_energy sys1 ([:: w1] ++ [:: w1]) [:: w1] [:: w1]
    = Some (scale3 ((\sum_(w <- [:: w1]) weight w)
                      / (\sum_(w <- [:: w1] ++ [:: w1]) weight w))
              (local_energy sys1 (I1, I1))).
Proof.
exact (@back_propagated_energy_unmatched _ _ _ _ sys1 [:: w1] [:: w1]
         [:: w1] [:: w1] _ (leqnn 1) bp_w1 total_weight_w1).
Defined.

End Observables.

(** *** The class [Estimators] *)

Module EstimatorsClass.

Import Propagation.
Local Open Scope R_scope.
Local Open Scope string_scope.

(** [EstimatorEnum]: the positions of the named estimates,
<<
    def __init__(self, nestimators):
        (self.weight, self.enumer, self.edenom, self.eproj,
         self.time, self.evar, self.kin, self.pot) = range(nestimators)
>>
    Unpacking into eight targets raises [ValueError] unless the range has
    exactly eight items. *)
Record EstimatorEnum := {
  weight : nat;
  enumer : nat;
  edenom : nat;
  eproj : nat;
  time : nat;
  evar : nat;
  kin : nat;
  pot : nat
}.

Definition EstimatorEnum_init (nestimators : nat) : result EstimatorEnum :=
  if iota 0 nestimators is [:: a; b; c; d; e; f; g; h] then
    Ok {| weight := a; enumer := b; edenom := c; eproj := d; time := e;
          evar := f; kin := g; pot := h |}
  else Raise ValueError.

(** The attributes of [state] that the constructor of [Estimators] reads. *)
Record State := {
  root : bool;
  back_propagation : bool;
  itcf : bool;
  itcf_nmax : nat;
  nbasis : nat
}.

(** The attributes of an [Estimators] object. The two optional headers
    exist only when back propagation (and the correlation function) is
    requested. *)
Record Estimators := {
  header : seq string;
  back_propagated_header : option (seq string);
  ifcf_header : option (seq string);
  nestimators : nat;
  names : EstimatorEnum;
  spgf : seq (seq (seq R));
  estimates : seq R
}.

(** [numpy.zeros(shape=(itcf_nmax+1, nbasis, nbasis))] *)
Definition zeros3 (state : State) : seq (seq (seq R)) :=
  nseq (itcf_nmax state).+1 (nseq (nbasis state) (nseq (nbasis state) 0)).

(** [zero(state)]; [now] is the reading of [time.time()]:
<<
    self.estimates[:] = 0
    self.estimates[self.names.time] = time.time()
    self.spgf = numpy.zeros(shape=(state.itcf_nmax+1, state.system.nbasis,
                                   state.system.nbasis))
>> *)
Definition zero (self : Estimators) (state : State) (now : R)
  : result Estimators :=
  let cleared := nseq (size (estimates self)) 0 in
  if (time (names self) < size cleared)%nat then
    Ok {| header := header self;
          back_propagated_header := back_propagated_header self;
          ifcf_header := ifcf_header self;
          nestimators := nestimators self; names := names self;
          spgf := zeros3 state;
          estimates := set_nth 0 cleared (time (names self)) now |}
  else Raise IndexError.

(** [Estimators.__init__(state)], without its console and file output:
<<
    self.header = ['iteration', 'Weight', 'E_num', 'E_denom', 'E', 'time']
    if state.back_propagation:
        self.back_propagated_header = ['iteration', 'E', 'T', 'V']
        if state.itcf:
            self.ifcf_header = ['tau', 'g00']
        self.nestimators = len(self.header+self.back_propagated_header) - 2
        self.names = EstimatorEnum(self.nestimators)
    else:
        self.nestimators = len(self.header)
        self.names = EstimatorEnum(self.nestimators+3)
    self.spgf = numpy.zeros(shape=(state.itcf_nmax+1, state.system.nbasis,
                                   state.system.nbasis))
    self.estimates = numpy.zeros(self.nestimators+len(self.spgf.flatten()))
    self.zero(state)
>> *)
Definition __init__ (state : State) (now : R) : result Estimators :=
  let header := [:: "iteration"; "Weight"; "E_num"; "E_denom"; "E"; "time"] in
  let* r :=
    if back_propagation state then
      let back_propagated_header := [:: "iteration"; "E"; "T"; "V"] in
      let ifcf_header :=
        if itcf state then Some [:: "tau"; "g00"] else None in
      let nestimators := (size (header ++ back_propagated_header) - 2)%nat in
      let* names := EstimatorEnum_init nestimators in
      Ok (Some back_propagated_header, ifcf_header, nestimators, names)
    else
      let nestimators := size header in
      let* names := EstimatorEnum_init (nestimators + 3) in
      Ok (None, None, nestimators, names) in
  let spgf := zeros3 state in
  let estimates := nseq (r.1.2 + size (flatten (flatten spgf))) 0 in
  zero {| header := header; back_propagated_header := r.1.1.1;
          ifcf_header := r.1.1.2; nestimators := r.1.2; names := r.2;
          spgf := spgf; estimates := estimates |} state now.

(** The positions the eight names take. *)
Definition layout : EstimatorEnum :=
  {| weight := 0; enumer := 1; edenom := 2; eproj := 3; time := 4;
     evar := 5; kin := 6; pot := 7 |}.

Lemma EstimatorEnum_init_eight n :
  EstimatorEnum_init n = if n == 8%nat then Ok layout else Raise ValueError.
Proof. by do 10 (destruct n as [|n]; [reflexivity|]). Qed.

Lemma size_zeros3 state :
  size (flatten (flatten (zeros3 state)))
    = ((itcf_nmax state).+1 * (nbasis state * nbasis state))%nat.
Proof.
unfold zeros3.
set row := nseq (nbasis state) 0.
set plane := nseq (nbasis state) row.
assert (Hp : size (flatten plane) = (nbasis state * nbasis state)%nat).
{ rewrite size_flatten /shape map_nseq sumn_nseq size_nseq; apply mulnC. }
generalize (itcf_nmax state).+1 => k.
induction k as [|k IH]; [reflexivity|].
by rewrite /= flatten_cat size_cat IH Hp.
Qed.

Lemma nth_cleared N k (x : R) i :
  i <> k -> nth 0 (set_nth 0 (nseq N 0) k x) i = 0.
Proof.
move=> Hi; rewrite nth_set_nth /=; case: eqP => // _.
rewrite nth_nseq; by case: ifP.
Qed.

(** X9. Without back propagation the constructor of [Estimators] does not
    return: the header has six entries, [EstimatorEnum] is asked to unpack a
    range of nine items into its eight names, and that raises
    [ValueError]. *)
Theorem estimators_init_without_back_propagation (state : State) (now : R) :
  back_propagation state = false ->
  __init__ state now = Raise ValueError.
Proof. by intros H; unfold __init__; rewrite H. Qed.

(** X10. With back propagation the constructor returns an object with eight
    estimators at the positions 0 to 7. Its array [estimates] has
    [8 + (itcf_nmax+1) * nbasis * nbasis] entries, all zero except the time
    stamp, and what follows position [names.pot] has exactly the size of the
    flattened [spgf], as the assignment in [print_step] needs. *)
Theorem estimators_init_with_back_propagation (state : State) (now : R) :
  back_propagation state = true ->
  exists self,
    __init__ state now = Ok self /\
    nestimators self = 8%nat /\ names self = layout /\
    size (estimates self)
      = (8 + (itcf_nmax state).+1 * (nbasis state * nbasis state))%nat /\
    nth 0 (estimates self) (time (names self)) = now /\
    (forall i, i <> time (names self) -> nth 0 (estimates self) i = 0) /\
    size (flatten (flatten (spgf self)))
      = (size (estimates self) - (pot (names self)).+1)%nat.
Proof.
intros H; unfold __init__; rewrite H.
set n := (size _ - 2)%nat.
assert (Hn : n = 8%nat) by reflexivity.
rewrite Hn EstimatorEnum_init_eight eqxx; cbn [bind fst snd].
unfold zero; cbn [names estimates time layout].
rewrite !size_nseq size_zeros3.
assert (H4 : (4 < 8 + (itcf_nmax state).+1 * (nbasis state * nbasis state))%nat)
  by exact (ltn_addr _ (isT : (4 < 8)%nat)).
rewrite H4; eexists; split; [reflexivity|].
cbn [nestimators names estimates spgf layout time pot].
split; [reflexivity|split; [reflexivity|]].
rewrite size_set_nth size_nseq size_zeros3.
assert (Hmax : maxn 5 (8 + (itcf_nmax state).+1 * (nbasis state * nbasis state))
               = (8 + (itcf_nmax state).+1 * (nbasis state * nbasis state))%nat)
  by (apply/maxn_idPr; exact (ltn_addr _ (isT : (4 < 8)%nat))).
rewrite Hmax.
split; [reflexivity|split; [|split]].
- now rewrite nth_set_nth /=.
- intros i Hi; exact: nth_cleared.
- now rewrite addKn.
Qed.

(** *** Closed instances *)

(** The state of the four-site test calculation, and the same state with
    back propagation and the correlation function requested. *)
Definition state_plain : State :=
  {| root := true; back_propagation := false; itcf := false; itcf_nmax := 0;
     nbasis := 4 |}.

Definition state_bp : State :=
  {| root := true; back_propagation := true; itcf := true; itcf_nmax := 2;
     nbasis := 4 |}.

(** An instance of X9. *)
Lemma estimators_init_without_back_propagation_witness :
  back_propagation state_plain = false /\
  __init__ state_plain 0 = Raise ValueError.
Proof.
split; [reflexivity|].
exact (@estimators_init_without_back_propagation state_plain 0 (erefl _)).
Defined.

(** An instance of X10. *)
Lemma estimators_init_with_back_propagation_witness :
  exists self,
    __init__ state_bp 0 = Ok self /\
    nestimators self = 8%nat /\ names self = layout /\
    size (estimates self) = (8 + 3 * (4 * 4))%nat /\
    nth 0 (estimates self) (time (names self)) = 0 /\
    (forall i, i <> time (names self) -> nth 0 (estimates self) i = 0) /\
    size (flatten (flatten (spgf self)))
      = (size (estimates self) - (pot (names self)).+1)%nat.
Proof.
exact (@estimators_init_with_back_propagation state_bp 0 (erefl _)).
Defined.

End EstimatorsClass.

(** ** Part IV: further properties of
    [pauxy/propagation/continuous.py] *)

Module Dynamics.

Import Propagation.
Local Open Scope R_scope.

(** *** Loops and dictionaries *)

Lemma for_each_cat A S (body : S -> A -> result S) s xs ys :
  for_each body s (xs ++ ys)
    = let* s' := for_each body s xs in for_each body s' ys.
Proof.
revert s; induction xs as [|x xs IH]; intros s; [reflexivity|].
cbn [cat for_each]; destruct (body s x) as [s'|e]; [|reflexivity].
cbn [bind]; apply IH.
Qed.

(** A key that no item of the dictionary carries. *)
Definition absent (options : seq (string * pyval)) (key : string) : bool :=
  all (fun item => ~~ String.eqb item.1 key) options.

Lemma dict_get_absent options key default :
  absent options key -> dict_get options key default = default.
Proof.
induction options as [|[k v] rest IH]; [reflexivity|].
cbn [absent all fst dict_get]; move=> /andP [Hk Hrest].
rewrite (negbTE Hk); exact (IH Hrest).
Qed.

(** *** Scalars *)

Lemma fsub_0_r x : fsub x (Fin 0) = x.
Proof.
destruct x as [x| | |]; try reflexivity.
unfold fsub; cbn [fneg fadd]; f_equal; ring.
Qed.

Lemma csub_c0 x : csub (of_float x) c0 = of_float x.
Proof.
unfold csub, of_float, c0; cbn [re im]; rewrite !fsub_0_r; reflexivity.
Qed.

Lemma cadd_cmul_c0_r acc x :
  cfin x -> cadd acc (cmul x c0) = cadd acc c0.
Proof.
move=> /cfinP [a [b ->]]; cx_simpl; do 2 f_equal; f_equal; ring.
Qed.

Lemma cadd_c0_c0 : cadd c0 c0 = c0.
Proof. cx_simpl; f_equal; f_equal; ring. Qed.

Lemma foldl_dot_zeros (xs : seq pycomplex) :
  all cfin xs ->
  foldl (fun acc p => cadd acc (cmul p.1 p.2)) c0
        (zip xs (nseq (size xs) c0)) = c0.
Proof.
induction xs as [|x xs IH]; [reflexivity|].
move=> /= /andP [Hx Hxs].
rewrite (cadd_cmul_c0_r c0 Hx) cadd_c0_c0; exact (IH Hxs).
Qed.

Lemma array_dot_zeros (xs : seq pycomplex) :
  all cfin xs -> array_dot xs (nseq (size xs) c0) = Ok c0.
Proof.
intros H; unfold array_dot; rewrite size_nseq eqxx.
now rewrite (foldl_dot_zeros H).
Qed.

Lemma array_sub_zeros (xi : seq pyfloat) :
  array_sub xi (nseq (size xi) c0) = Ok [seq of_float x | x <- xi].
Proof.
unfold array_sub, broadcast2; rewrite size_nseq eqxx; f_equal.
induction xi as [|x xi IH]; [reflexivity|].
rewrite /= csub_c0 IH; reflexivity.
Qed.

Section Steps.

Variable ndarray : Type.
Variable dot : ndarray -> ndarray -> ndarray.
Variable div_int : ndarray -> nat -> ndarray.
Variable add : ndarray -> ndarray -> ndarray.
Variable Trial : Type.
Variable inverse_overlap_of : ndarray * ndarray -> Trial -> ndarray.
Variable greens_function_of : ndarray * ndarray -> ndarray -> Trial -> ndarray.
Variable calc_otrial : ndarray * ndarray -> ndarray -> Trial -> pycomplex.
Variable kinetic_real :
  ndarray * ndarray -> System -> ndarray -> ndarray * ndarray.
Variables PlaneWave HubbardContinuous GenericContinuous :
  System -> Trial -> QMCOpts -> seq (string * pyval) -> Propagator ndarray Trial.

Local Notation Walker := (Walker ndarray).
Local Notation Continuous := (Continuous ndarray Trial).
Local Notation __init__ :=
  (Propagation.__init__ PlaneWave HubbardContinuous GenericContinuous).
Local Notation get_continuous_propagator :=
  (Propagation.get_continuous_propagator PlaneWave HubbardContinuous
     GenericContinuous).
Local Notation apply_exponential :=
  (Propagation.apply_exponential dot div_int add).
Local Notation two_body_propagator :=
  (Propagation.two_body_propagator dot div_int add).
Local Notation propagate_walker_free :=
  (Propagation.propagate_walker_free dot div_int add inverse_overlap_of
     greens_function_of calc_otrial kinetic_real).
Local Notation phaseless_importance :=
  (Propagation.phaseless_importance dot div_int add inverse_overlap_of
     greens_function_of calc_otrial kinetic_real).
Local Notation propagate_walker_phaseless :=
  (Propagation.propagate_walker_phaseless dot div_int add inverse_overlap_of
     greens_function_of calc_otrial kinetic_real).
Local Notation propagate_walker :=
  (Propagation.propagate_walker dot div_int add inverse_overlap_of
     greens_function_of calc_otrial kinetic_real).
Local Notation propagate_steps :=
  (Propagation.propagate_steps dot div_int add inverse_overlap_of
     greens_function_of calc_otrial kinetic_real).
Local Notation apply_kinetic := (Propagation.apply_kinetic kinetic_real).
Local Notation inverse_overlap :=
  (Propagation.inverse_overlap inverse_overlap_of).
Local Notation greens_function :=
  (Propagation.greens_function greens_function_of).

Implicit Types (self : Continuous) (walker : Walker) (system : System)
  (trial : Trial) (xi : seq pyfloat) (eshift : pycomplex).

(** *** Shape errors of the two-body propagator *)

Lemma rescale_loop_short (xbar : seq pycomplex) k n :
  (size xbar < n)%nat ->
  for_each rescale_force_bias (xbar, k) (iota 0 n) = Raise IndexError.
Proof.
intros Hn.
rewrite -(subnKC Hn) addSnnS iotaD for_each_cat rescale_loop.
cbn [bind iota for_each]; unfold rescale_force_bias; cbn [fst snd].
now rewrite add0n size_map ltnn.
Qed.

(** X17. When the force-bias vector has fewer than [nfields] components,
    [two_body_propagator] raises [IndexError]: the loop reads [xbar[i]] for
    every [i] below [nfields]. *)
Theorem two_body_propagator_short_bias self walker system trial xi :
  (size (initial_force_bias self walker system trial) < nfields system)%nat ->
  two_body_propagator self walker system trial xi = Raise IndexError.
Proof.
intros Hn; unfold Propagation.two_body_propagator.
now rewrite (rescale_loop_short _ Hn).
Qed.

(** X18. When the bias vector and the draw have [nfields] components but the
    mean-field shift has not, [two_body_propagator] raises [ValueError], at
    [xshifted.dot(self.propagator.mf_shift)]. *)
Theorem two_body_propagator_shift_length self walker system trial xi :
  size (initial_force_bias self walker system trial) = nfields system ->
  size xi = nfields system ->
  size (mf_shift (propagator self)) <> nfields system ->
  two_body_propagator self walker system trial xi = Raise ValueError.
Proof.
intros Hb Hx Hm; unfold Propagation.two_body_propagator.
rewrite -Hb rescale_loop; cbn [bind fst snd].
unfold array_sub, broadcast2; rewrite size_map Hx Hb eqxx; cbn [bind].
unfold array_dot at 1; rewrite size_map size_zip size_map Hx Hb minnn.
cbn [propagator set_nfb_trig].
destruct (nfields system == size (mf_shift (propagator self))) eqn:E;
  [|reflexivity].
move/eqP in E; congruence.
Qed.

(** *** The two-body propagator without force bias *)

Lemma set_nfb_trig_same self : set_nfb_trig self (nfb_trig self) = self.
Proof. now destruct self. Qed.

Lemma half_of_zero : csub c0 (cmul (of_float (Fin (1 / 2))) c0) = c0.
Proof. cx_simpl; f_equal; f_equal; field. Qed.

(** X19. Without force bias the fields are not shifted: on a finite draw of
    [nfields] numbers [two_body_propagator] returns the draw itself as
    [xshifted], a constant factor [cfb] of zero, and a propagator whose clamp
    counter has not moved. *)
Theorem two_body_propagator_without_force_bias self walker system trial xi :
  force_bias self = false ->
  size xi = nfields system ->
  size (mf_shift (propagator self)) = nfields system ->
  all is_finite xi ->
  exists walker' cmf,
    two_body_propagator self walker system trial xi
      = Ok (self, walker', (cmf, c0, [seq of_float x | x <- xi])).
Proof.
intros Hfb Hx Hm Hfin.
assert (H1 : array_dot [seq of_float x | x <- xi] (nseq (nfields system) c0)
             = Ok c0).
{ rewrite -Hx -(size_map of_float xi); apply array_dot_zeros.
  rewrite all_map; apply: sub_all Hfin => x; exact: cfin_of_float. }
assert (H2 : array_dot (nseq (nfields system) c0) (nseq (nfields system) c0)
             = Ok c0).
{ rewrite -{2}(size_nseq (nfields system) c0); apply array_dot_zeros.
  rewrite all_nseq; apply/orP; now right. }
assert (H3 : array_sub xi (nseq (nfields system) c0)
             = Ok [seq of_float x | x <- xi]).
{ rewrite -Hx; apply array_sub_zeros. }
unfold Propagation.two_body_propagator, initial_force_bias.
rewrite Hfb rescale_loop_zeros; cbn [bind fst snd].
rewrite set_nfb_trig_same H3; cbn [bind].
unfold array_dot at 1; rewrite size_map Hx Hm eqxx; cbn [bind].
rewrite H1 H2; cbn [bind]; rewrite half_of_zero.
do 2 eexists; reflexivity.
Qed.

(** *** The shift applied to the auxiliary fields *)

Lemma rescaled_bounded x : cfin x -> exceeds_one (rescaled x) = false.
Proof.
move=> /cfinP [a [b ->]].
destruct (exceeds_one (Cx (Fin a) (Fin b))) eqn:E.
- destruct (rescaled_finite E) as [_ [_ Hr]].
  unfold exceeds_one, fgt; rewrite Hr; apply flt_Fin_false; Lra.lra.
- unfold rescaled; now rewrite E.
Qed.

Lemma map_rescaled_idem (xbar : seq pycomplex) :
  all cfin xbar ->
  [seq rescaled x | x <- [seq rescaled x | x <- xbar]]
    = [seq rescaled x | x <- xbar].
Proof.
induction xbar as [|x xs IH]; [reflexivity|].
move=> /= /andP [Hx Hxs]; rewrite (IH Hxs); f_equal.
unfold rescaled at 1; now rewrite (rescaled_bounded Hx).
Qed.

(** X20. For a finite bias vector of [nfields] components, the vector that
    [two_body_propagator] subtracts from the draw has finite components of
    magnitude at most 1, and clamping it once more would change nothing. *)
Theorem two_body_propagator_bounded_shift
    self walker system trial xi self' walker' out :
  size (initial_force_bias self walker system trial) = nfields system ->
  all cfin (initial_force_bias self walker system trial) ->
  two_body_propagator self walker system trial xi = Ok (self', walker', out) ->
  exists xbar,
    size xbar = nfields system /\
    array_sub xi xbar = Ok out.2 /\
    all (fun x => cfin x && ~~ exceeds_one x) xbar /\
    [seq rescaled x | x <- xbar] = xbar.
Proof.
intros Hsize Hfin H.
destruct (two_body_propagator_inv H) as [st [Hloop [_ [Hsub _]]]].
rewrite -Hsize rescale_loop in Hloop; injection Hloop as <-.
exists [seq rescaled x | x <- initial_force_bias self walker system trial].
split; [now rewrite size_map|split; [exact Hsub|split]].
- rewrite all_map; apply: sub_all Hfin => x Hx /=.
  now rewrite (cfin_rescaled Hx) (rescaled_bounded Hx).
- exact (map_rescaled_idem Hfin).
Qed.

(** *** The expansion order *)

Lemma apply_exponential_order0 self phi0 VHS :
  (exp_nmax self <= 0)%Z -> apply_exponential self phi0 VHS = phi0.
Proof.
intros H; unfold Propagation.apply_exponential.
replace (Z.to_nat (exp_nmax self)) with 0%nat by Lia.lia.
reflexivity.
Qed.

(** X16. With an expansion order that is not positive the loop of
    [apply_exponential] has no turn, and [two_body_propagator] leaves both
    determinants of the walker as they were. *)
Theorem two_body_propagator_order0
    self walker system trial xi self' walker' out :
  (exp_nmax self <= 0)%Z ->
  two_body_propagator self walker system trial xi = Ok (self', walker', out) ->
  phi walker' = phi walker.
Proof.
intros H0; unfold Propagation.two_body_propagator.
destruct (for_each _ _ _) as [st|e]; [|discriminate]; cbn [bind].
destruct (array_sub xi st.1) as [xs|e]; [|discriminate]; cbn [bind].
destruct (array_dot xs _) as [d1|e]; [|discriminate]; cbn [bind].
destruct (array_dot _ st.1) as [d2|e]; [|discriminate]; cbn [bind].
destruct (array_dot st.1 st.1) as [d3|e]; [|discriminate]; cbn [bind].
intros H; injection H as _ <- _; cbn [phi set_phi].
assert (H1 : (exp_nmax (set_nfb_trig self st.2) <= 0)%Z) by exact H0.
rewrite !(apply_exponential_order0 _ _ H1).
destruct (phi walker) as [u d]; now destruct (0 < ndown system)%nat.
Qed.

(** *** What a step changes in the propagator *)

(** The attributes of the propagator other than its two counters. *)
Definition settings self :=
  (free_projection self, force_bias self, exp_nmax self, dt self,
   sqrt_dt self, isqrt_dt self, propagator self, mf_const_fac self,
   BT_BP self, nstblz self, ebound self, mean_local_energy self,
   verbose self).

Lemma rescale_loop_counter (st st' : seq pycomplex * Z) (idx : seq nat) :
  for_each rescale_force_bias st idx = Ok st' ->
  (st.2 <= st'.2 <= st.2 + Z.of_nat (size idx))%Z.
Proof.
revert st; induction idx as [|i idx IH]; intros st.
- cbn; intros H; injection H as <-; Lia.lia.
- cbn [for_each size].
  destruct (rescale_force_bias st i) as [s1|e] eqn:E; [|discriminate].
  cbn [bind]; intros H; apply IH in H.
  assert (Hs : (st.2 <= s1.2 <= st.2 + 1)%Z).
  { revert E; unfold rescale_force_bias.
    destruct (i < size st.1)%nat; [|discriminate].
    destruct (fgt _ _); intros E; injection E as <-; cbn [snd]; Lia.lia. }
  Lia.lia.
Qed.

Lemma two_body_propagator_counters
    self walker system trial xi self' walker' out :
  two_body_propagator self walker system trial xi = Ok (self', walker', out) ->
  settings self' = settings self /\ nhe_trig self' = nhe_trig self /\
  (nfb_trig self <= nfb_trig self'
     <= nfb_trig self + Z.of_nat (nfields system))%Z.
Proof.
intros H; destruct (two_body_propagator_inv H) as [st [Hloop [-> _]]].
apply rescale_loop_counter in Hloop; rewrite size_iota in Hloop.
split; [reflexivity|split; [reflexivity|exact Hloop]].
Qed.

Lemma apply_bound_counters self ehyb eshift :
  settings (apply_bound self ehyb eshift).1 = settings self /\
  nfb_trig (apply_bound self ehyb eshift).1 = nfb_trig self /\
  (nhe_trig self <= nhe_trig (apply_bound self ehyb eshift).1
     <= nhe_trig self + 1)%Z.
Proof.
unfold apply_bound.
destruct (fgt _ _); [cbn; repeat split; Lia.lia|].
destruct (flt _ _); cbn; repeat split; Lia.lia.
Qed.

Lemma propagate_walker_free_counters
    self walker system trial eshift xi self' walker' :
  propagate_walker_free self walker system trial eshift xi
    = Ok (self', walker') ->
  settings self' = settings self /\ nhe_trig self' = nhe_trig self /\
  (nfb_trig self <= nfb_trig self'
     <= nfb_trig self + Z.of_nat (nfields system))%Z.
Proof.
unfold Propagation.propagate_walker_free.
destruct (Propagation.two_body_propagator _ _ _ _ _ _ _ _)
  as [[[s1 w1] o1]|e] eqn:H2; [|discriminate].
cbn [bind fst snd].
destruct (cmath_exp _) as [f|e]; [|discriminate]; cbn [bind].
destruct (cmath_exp _) as [g|e]; [|discriminate]; cbn [bind].
intros H; injection H as <- _.
exact (two_body_propagator_counters H2).
Qed.

Lemma propagate_walker_phaseless_counters
    self walker system trial eshift xi self' walker' :
  propagate_walker_phaseless self walker system trial eshift xi
    = Ok (self', walker') ->
  settings self' = settings self /\
  (nhe_trig self <= nhe_trig self' <= nhe_trig self + 1)%Z /\
  (nfb_trig self <= nfb_trig self'
     <= nfb_trig self + Z.of_nat (nfields system))%Z.
Proof.
unfold Propagation.propagate_walker_phaseless, Propagation.phaseless_importance.
destruct (Propagation.two_body_propagator _ _ _ _ _ _ _ _)
  as [[[s1 w1] o1]|e] eqn:H2; [|discriminate].
cbn [bind fst snd].
destruct (complex_div _ _) as [ratio|e]; [|discriminate]; cbn [bind].
destruct (cmath_log _) as [lg|e]; [|discriminate]; cbn [bind].
destruct (complex_div _ _) as [hyb|e]; [|discriminate]; cbn [bind].
destruct (importance _ _ _ _) as [imp|e]; [|discriminate]; cbn [bind].
cbn [l_self l_walker l_importance_function l_hybrid_energy l_cfb l_ot_new
     l_xmxbar].
destruct (reweight _ _ _ _ _ _ _) as [w2|e]; [|discriminate]; cbn [bind].
intros H; injection H as <- _.
destruct (two_body_propagator_counters H2) as [Hs [Hhe Hfb]].
destruct (apply_bound_counters s1 hyb eshift) as [Hs' [Hfb' Hhe']].
rewrite Hs' Hs Hfb'; split; [reflexivity|split; Lia.lia].
Qed.

(** X28. Whatever the policy, a run of steps changes nothing of the propagator
    but its two counters. Neither counter decreases, [nhe_trig] grows by at
    most one for each step and [nfb_trig] by at most [nfields] for each
    step. *)
Theorem propagate_steps_changes_counters_only
    self walker system trial steps self' walker' :
  propagate_steps self walker system trial steps = Ok (self', walker') ->
  settings self' = settings self /\
  (nhe_trig self <= nhe_trig self'
     <= nhe_trig self + Z.of_nat (size steps))%Z /\
  (nfb_trig self <= nfb_trig self'
     <= nfb_trig self + Z.of_nat (nfields system * size steps))%Z.
Proof.
revert self walker; induction steps as [|[eshift xi] rest IH];
  intros self walker.
- cbn; intros H; injection H as <- _; rewrite muln0; repeat split; Lia.lia.
- cbn [Propagation.propagate_steps size].
  destruct (Propagation.propagate_walker _ _ _ _ _ _ _ _ _ _ _ _ _)
    as [[s1 w1]|e] eqn:H1; [|discriminate].
  cbn [bind fst snd]; intros H; apply IH in H.
  destruct H as [Hs [Hhe Hfb]].
  assert (Hstep : settings s1 = settings self /\
    (nhe_trig self <= nhe_trig s1 <= nhe_trig self + 1)%Z /\
    (nfb_trig self <= nfb_trig s1
       <= nfb_trig self + Z.of_nat (nfields system))%Z).
  { revert H1; unfold Propagation.propagate_walker.
    destruct (free_projection self); intros H1.
    - destruct (propagate_walker_free_counters H1) as [A [B C]].
      split; [exact A|split; [Lia.lia|exact C]].
    - exact (propagate_walker_phaseless_counters H1). }
  destruct Hstep as [Hs1 [Hhe1 Hfb1]].
  rewrite Hs Hs1 mulnS Nat2Z.inj_add.
  split; [reflexivity|split; Lia.lia].
Qed.

(** *** The constructor *)

(** The names [get_continuous_propagator] knows. *)
Definition known_system system : bool :=
  String.eqb (name system) "UEG" || String.eqb (name system) "Hubbard"
  || String.eqb (name system) "Generic".

Lemma get_continuous_propagator_known system trial qmc options :
  known_system system
    = isSome (get_continuous_propagator system trial qmc options).
Proof.
unfold known_system, Propagation.get_continuous_propagator.
destruct (String.eqb (name system) "UEG"); [reflexivity|].
destruct (String.eqb (name system) "Hubbard"); [reflexivity|].
now destruct (String.eqb (name system) "Generic").
Qed.

Lemma float_pow_half_nonneg x :
  flt x (Fin 0) = false -> exists r, float_pow_half x = Ok r.
Proof.
destruct x as [x| | |]; cbn [float_pow_half]; try (now eexists).
intros H; apply flt_Fin_false in H.
destruct (Rlt_dec x 0); [Lra.lra|now eexists].
Qed.

(** X11. For a time step that is not negative and a system whose name is none
    of "UEG", "Hubbard" and "Generic", [get_continuous_propagator] returns
    [None] and the constructor raises [AttributeError] when it reads
    [self.propagator.mf_core]. *)
Theorem init_unknown_system system trial qmc options verbose :
  flt (qmc_dt qmc) (Fin 0) = false ->
  known_system system = false ->
  __init__ system trial qmc options verbose = Raise AttributeError.
Proof.
intros Hdt Hname; unfold Propagation.__init__.
destruct (float_pow_half_nonneg Hdt) as [r ->]; cbn [bind].
rewrite (get_continuous_propagator_known system trial qmc options) in Hname.
now destruct (get_continuous_propagator system trial qmc options).
Qed.

(** X12. For a known system and a time step of zero the constructor raises
    [ZeroDivisionError], at [2.0/self.dt]. *)
Theorem init_zero_time_step system trial qmc options verbose :
  qmc_dt qmc = Fin 0 ->
  known_system system ->
  __init__ system trial qmc options verbose = Raise ZeroDivisionError.
Proof.
intros Hdt Hname; unfold Propagation.__init__; rewrite Hdt.
cbn [float_pow_half].
destruct (Rlt_dec 0 0) as [H|H]; [Lra.lra|]; cbn [bind].
rewrite (get_continuous_propagator_known system trial qmc options) in Hname.
destruct (get_continuous_propagator system trial qmc options); [|discriminate].
cbn [bind]; unfold float_div.
now rewrite (proj2 (feq_Fin 0 0) (erefl 0)).
Qed.

(** The constructor on a positive finite time step, within the model. *)
Lemma init_positive_time_step system trial qmc options verbose d :
  qmc_dt qmc = Fin d -> 0 < d ->
  known_system system ->
  exists self s b,
    __init__ system trial qmc options verbose = Ok self /\
    Some (propagator self) = get_continuous_propagator system trial qmc options /\
    dt self = Fin d /\
    sqrt_dt self = Fin s /\ 0 < s /\ s * s = d /\
    isqrt_dt self = Cx (Fin 0) (Fin s) /\
    ebound self = Fin b /\ 0 < b /\ b * b * d = 2 /\
    mf_const_fac self
      = math_exp (fmul (Fin (- d)) (re (mf_core (propagator self)))) /\
    BT_BP self = BH1 (propagator self) /\
    nstblz self = qmc_nstblz qmc /\
    nfb_trig self = 0%Z /\ nhe_trig self = 0%Z.
Proof.
intros Hd Hpos Hname.
rewrite (get_continuous_propagator_known system trial qmc options) in Hname.
destruct (get_continuous_propagator system trial qmc options) as [p|] eqn:Hp;
  [|discriminate].
unfold Propagation.__init__; rewrite Hd; fold get_continuous_propagator.
rewrite Hp.
cbn [float_pow_half].
destruct (Rlt_dec d 0) as [Hneg|Hnn]; [Lra.lra|]; cbn [bind].
unfold float_div.
assert (Hd0 : d <> 0) by Lra.lra.
rewrite (proj2 (feq_Fin_false d 0) Hd0) (fdiv_Fin 2 Hd0).
cbn [bind float_pow_half].
assert (H2d : 0 < 2 / d) by (apply Rdiv_lt_0_compat; Lra.lra).
destruct (Rlt_dec (2 / d) 0) as [Hneg|Hnn2]; [Lra.lra|].
cbn [bind]; eexists; exists (sqrt d), (sqrt (2 / d)).
split; [reflexivity|]; cbn.
split; [reflexivity|split; [reflexivity|split; [reflexivity|]]].
split; [now apply sqrt_lt_R0|].
split; [apply sqrt_sqrt; Lra.lra|].
split; [cx_simpl; f_equal; f_equal; ring|].
split; [reflexivity|split; [now apply sqrt_lt_R0|]].
split; [|repeat split].
replace (sqrt (2 / d) * sqrt (2 / d)) with (2 / d)
  by (symmetry; apply sqrt_sqrt; Lra.lra).
now field.
Qed.

Lemma init_known_system system trial qmc options verbose self :
  __init__ system trial qmc options verbose = Ok self -> known_system system.
Proof.
unfold Propagation.__init__; fold get_continuous_propagator.
rewrite (get_continuous_propagator_known system trial qmc options).
destruct (float_pow_half (qmc_dt qmc)); [|discriminate]; cbn [bind].
now destruct (get_continuous_propagator system trial qmc options).
Qed.

(** X13. Whenever the constructor returns for a positive finite time step [d],
    the derived attributes of the propagator are consistent: [sqrt_dt]
    squared is [d], [isqrt_dt] is the imaginary number of that modulus,
    [ebound] is positive with [ebound^2 * d = 2], [mf_const_fac] is the
    exponential of [-d] times the real part of the mean-field core energy,
    [BT_BP] is the one-body propagator of the selected class, and both
    counters are zero. *)
Theorem init_derived_attributes system trial qmc options verbose d self :
  qmc_dt qmc = Fin d -> 0 < d ->
  __init__ system trial qmc options verbose = Ok self ->
  exists s b,
    Some (propagator self) = get_continuous_propagator system trial qmc options /\
    dt self = Fin d /\
    sqrt_dt self = Fin s /\ 0 < s /\ s * s = d /\
    isqrt_dt self = Cx (Fin 0) (Fin s) /\
    ebound self = Fin b /\ 0 < b /\ b * b * d = 2 /\
    mf_const_fac self
      = math_exp (fmul (Fin (- d)) (re (mf_core (propagator self)))) /\
    BT_BP self = BH1 (propagator self) /\
    nstblz self = qmc_nstblz qmc /\
    nfb_trig self = 0%Z /\ nhe_trig self = 0%Z.
Proof.
intros Hd Hpos Hinit.
destruct (@init_positive_time_step system trial qmc options verbose d Hd Hpos
            (init_known_system Hinit)) as [self1 [s [b [Heq H]]]].
rewrite Hinit in Heq; injection Heq as <-.
now exists s, b.
Qed.

(** X14. When the options set none of [free_projection], [force_bias] and
    [expansion_order], the propagator is phaseless, uses force bias, expands
    the exponential to sixth order and is bound to
    [propagate_walker_phaseless]. *)
Theorem init_default_policy system trial qmc options verbose self :
  absent options "free_projection" -> absent options "force_bias" ->
  absent options "expansion_order" ->
  __init__ system trial qmc options verbose = Ok self ->
  free_projection self = false /\ force_bias self = true /\
  exp_nmax self = 6%Z /\
  propagate_walker self = propagate_walker_phaseless self.
Proof.
intros Hfp Hfb Hex; unfold Propagation.__init__.
rewrite (dict_get_absent _ Hfp) (dict_get_absent _ Hfb)
        (dict_get_absent _ Hex).
destruct (float_pow_half (qmc_dt qmc)); [|discriminate]; cbn [bind].
destruct (Propagation.get_continuous_propagator _ _ _ _ _ _ _);
  [|discriminate].
cbn [bind].
destruct (float_div (Fin 2) (qmc_dt qmc)); [|discriminate]; cbn [bind].
destruct (float_pow_half _); [|discriminate]; cbn [bind].
intros H; injection H as <-; unfold Propagation.propagate_walker; cbn.
repeat split.
Qed.

(** *** The energy bound *)

Lemma clamped_value x y :
  cadd (of_float (Fin x)) (cmul c1j (of_float (Fin y))) = Cx (Fin x) (Fin y).
Proof. cx_simpl; f_equal; f_equal; ring. Qed.

Lemma clamped_value_finite x y :
  cfin (cadd (of_float (Fin x)) (cmul c1j (of_float y))) ->
  exists y', y = Fin y'.
Proof.
destruct y as [y| | |]; [now exists y| | |];
  unfold cfin, cadd, cmul, of_float, c1j;
  cbn [re im fadd fsub fmul fneg]; unfold inf_signed; rewrite ?Rsign_0;
  discriminate.
Qed.

(** X22. [apply_bound] is idempotent on finite values: applied to its own
    result it returns that result and does not count another clamp. *)
Theorem apply_bound_idempotent self ehyb eshift b :
  ebound self = Fin b -> 0 <= b -> cfin ehyb -> cfin eshift ->
  let r := apply_bound self ehyb eshift in
  apply_bound r.1 r.2 eshift = r.
Proof.
intros Hb Hb0; move=> /cfinP [x [y ->]] /cfinP [e [f ->]] r.
assert (Hle : e + - b <= e + b) by Lra.lra.
assert (H1 := proj2 (flt_Fin_false (e + b) (e + b)) (Rle_refl _)).
assert (H2 := proj2 (flt_Fin_false (e + b) (e + - b)) Hle).
assert (H3 := proj2 (flt_Fin_false (e + - b) (e + - b)) (Rle_refl _)).
unfold r, apply_bound, fgt; rewrite Hb.
cbn [re im fadd fsub fneg].
destruct (flt (Fin (e + b)) (Fin x)) eqn:Hup.
- cbn [fst snd ebound set_nhe_trig]; rewrite Hb clamped_value.
  cbn [re im fadd fsub fneg]; now rewrite H1 H2.
- destruct (flt (Fin x) (Fin (e + - b))) eqn:Hlow.
  + cbn [fst snd ebound set_nhe_trig]; rewrite Hb clamped_value.
    cbn [re im fadd fsub fneg]; now rewrite H2 H3.
  + cbn [fst snd re im fadd fsub fneg]; rewrite Hb.
    cbn [fadd fneg]; now rewrite Hup Hlow.
Qed.

(** X23. A hybrid energy whose real part is NaN passes [apply_bound] unchanged
    and uncounted, since both comparisons are false; a real part of plus or
    minus infinity is clamped to the finite upper or lower bound and
    counted. *)
Theorem apply_bound_non_finite self y eshift b e :
  ebound self = Fin b -> re eshift = Fin e ->
  apply_bound self (Cx NaN (Fin y)) eshift = (self, Cx NaN (Fin y)) /\
  apply_bound self (Cx PInf (Fin y)) eshift
    = (set_nhe_trig self (nhe_trig self + 1), Cx (Fin (e + b)) (Fin y)) /\
  apply_bound self (Cx NInf (Fin y)) eshift
    = (set_nhe_trig self (nhe_trig self + 1), Cx (Fin (e - b)) (Fin y)).
Proof.
intros Hb He; unfold apply_bound, fgt; rewrite Hb He.
cbn [re im fadd fsub fneg flt]; rewrite !clamped_value.
repeat split.
Qed.

(** Whenever [apply_bound] returns a finite value, its real part is within
    the bound of the reference energy. *)
Lemma apply_bound_finite_range self ehyb eshift b e :
  ebound self = Fin b -> 0 <= b -> re eshift = Fin e ->
  cfin (apply_bound self ehyb eshift).2 ->
  exists x', re (apply_bound self ehyb eshift).2 = Fin x' /\
             Rabs (x' - e) <= b.
Proof.
intros Hb Hb0 He; unfold apply_bound, fgt; rewrite Hb He.
cbn [fadd fsub fneg].
destruct (flt (Fin (e + b)) (re ehyb)) eqn:Hup.
- cbn [snd]; intros Hfin.
  destruct (clamped_value_finite Hfin) as [y' ->]; rewrite clamped_value.
  exists (e + b); split; [reflexivity|].
  replace (e + b - e) with b by ring; rewrite Rabs_pos_eq; Lra.lra.
- destruct (flt (re ehyb) (Fin (e + - b))) eqn:Hlow.
  + cbn [snd]; intros Hfin.
    destruct (clamped_value_finite Hfin) as [y' ->]; rewrite clamped_value.
    exists (e + - b); split; [reflexivity|].
    replace (e + - b - e) with (- b) by ring.
    rewrite Rabs_Ropp Rabs_pos_eq; Lra.lra.
  + cbn [snd]; move=> /cfinP [x [y Hxy]]; rewrite Hxy in Hup Hlow |- *.
    cbn [re] in *; apply flt_Fin_false in Hup; apply flt_Fin_false in Hlow.
    exists x; split; [reflexivity|apply Rabs_le_iff; Lra.lra].
Qed.

(** *** The phaseless step *)

Lemma settings_eq self self' :
  settings self' = settings self ->
  dt self' = dt self /\ ebound self' = ebound self /\
  mf_const_fac self' = mf_const_fac self.
Proof. unfold settings; intros H; injection H; auto. Qed.

(** What the first half of a phaseless step leaves in its local
    variables. *)
Lemma phaseless_importance_inv self walker system trial eshift xi l :
  phaseless_importance self walker system trial eshift xi = Ok l ->
  exists s1 hyb,
    settings s1 = settings self /\
    l_self l = (apply_bound s1 hyb eshift).1 /\
    l_hybrid_energy l = (apply_bound s1 hyb eshift).2 /\
    importance (l_self l) (l_walker l) (l_hybrid_energy l) eshift
      = Ok (l_importance_function l) /\
    hybrid_energy (l_walker l) = hybrid_energy walker /\
    weight (l_walker l) = weight walker.
Proof.
unfold Propagation.phaseless_importance.
destruct (Propagation.two_body_propagator _ _ _ _ _ _ _ _)
  as [[[s1 w1] o1]|e] eqn:H2; [|discriminate].
cbn [bind fst snd].
destruct (complex_div _ _) as [ratio|e]; [|discriminate]; cbn [bind].
destruct (cmath_log _) as [lg|e]; [|discriminate]; cbn [bind].
destruct (complex_div _ _) as [hyb|e]; [|discriminate]; cbn [bind].
destruct (importance _ _ _ _) as [imp|e] eqn:Himp; [|discriminate].
cbn [bind]; intros H; injection H as <-.
cbn [l_self l_walker l_importance_function l_hybrid_energy].
destruct (two_body_propagator_counters H2) as [Hs _].
destruct (two_body_propagator_inv H2) as [st [_ [_ [_ [Hw [_ [_ [Hh _]]]]]]]].
exists s1, hyb; split; [exact Hs|split; [reflexivity|split; [reflexivity|]]].
split; [exact Himp|split; [exact Hh|exact Hw]].
Qed.

Lemma propagate_walker_phaseless_inv
    self walker system trial eshift xi self' walker' :
  propagate_walker_phaseless self walker system trial eshift xi
    = Ok (self', walker') ->
  exists l,
    phaseless_importance self walker system trial eshift xi = Ok l /\
    self' = l_self l /\
    reweight (l_self l) (l_walker l) (l_importance_function l)
      (l_hybrid_energy l) (l_cfb l) (l_ot_new l) (l_xmxbar l) = Ok walker'.
Proof.
unfold Propagation.propagate_walker_phaseless.
destruct (Propagation.phaseless_importance _ _ _ _ _ _ _ _ _ _ _ _ _)
  as [l|e]; [|discriminate].
cbn [bind].
destruct (reweight _ _ _ _ _ _ _) as [w2|e] eqn:Hre; [|discriminate].
cbn [bind]; intros H; injection H as <- <-.
now exists l.
Qed.

(** X25. After a phaseless step the hybrid energy cached in the walker, when
    finite, has its real part within [ebound] of the real part of the
    reference energy. *)
Theorem phaseless_step_hybrid_energy_bounded
    self walker system trial eshift xi self' walker' b e :
  ebound self = Fin b -> 0 <= b -> re eshift = Fin e ->
  propagate_walker_phaseless self walker system trial eshift xi
    = Ok (self', walker') ->
  cfin (hybrid_energy walker') ->
  exists x', re (hybrid_energy walker') = Fin x' /\ Rabs (x' - e) <= b.
Proof.
intros Hb Hb0 He Hstep.
destruct (propagate_walker_phaseless_inv Hstep) as [l [Hl [_ Hre]]].
destruct (reweight_inv Hre) as [_ [_ [-> _]]].
destruct (phaseless_importance_inv Hl) as [s1 [hyb [Hs [_ [-> _]]]]].
destruct (settings_eq Hs) as [_ [Hbs _]].
apply apply_bound_finite_range; [now rewrite Hbs|exact Hb0|exact He].
Qed.

(** The modulus of [exp(x + iy)]. *)
Lemma exp_modulus x y :
  sqrt (exp x * cos y * (exp x * cos y) + exp x * sin y * (exp x * sin y))
    = exp x.
Proof.
replace (exp x * cos y * (exp x * cos y) + exp x * sin y * (exp x * sin y))
  with (exp x * exp x).
- apply sqrt_square; left; apply exp_pos.
- generalize (sin2_cos2 y); unfold Rsqr; intros H.
  replace (exp x * cos y * (exp x * cos y) + exp x * sin y * (exp x * sin y))
    with (exp x * exp x * (sin y * sin y + cos y * cos y)) by ring.
  rewrite H; ring.
Qed.

Lemma sqrt_scaled m r :
  0 <= r -> sqrt (m * m * (r * r)) = Rabs m * r.
Proof.
intros Hr.
replace (m * m * (r * r)) with ((Rabs m * r) * (Rabs m * r)).
- apply sqrt_square; apply Rmult_le_pos; [apply Rabs_pos|exact Hr].
- replace (Rabs m * r * (Rabs m * r)) with (Rabs m * Rabs m * (r * r)) by ring.
  f_equal; generalize (Rsqr_abs m); unfold Rsqr; auto.
Qed.

(** The modulus of the importance function on finite data. *)
Lemma importance_modulus self walker hr hi ho hoi e f d m imp :
  dt self = Fin d -> mf_const_fac self = Fin m ->
  hybrid_energy walker = Cx (Fin ho) (Fin hoi) ->
  importance self walker (Cx (Fin hr) (Fin hi)) (Cx (Fin e) (Fin f)) = Ok imp ->
  c_abs imp = Fin (Rabs m * exp (- d * ((hr + ho) / 2 - e))).
Proof.
intros Hd Hm Hh; unfold importance; rewrite Hd Hm Hh.
cx_simpl; cbn [cmath_exp re im bind].
intros H; injection H as <-; cx_simpl.
unfold c_abs; cbn [re im hypot]; f_equal.
match goal with
| |- sqrt ?t = Rabs m * exp ?z =>
    replace t with (m * m * (exp z * exp z)); [apply sqrt_scaled; left; apply exp_pos|]
end.
match goal with
| |- context [exp ?u * cos ?v] =>
    replace (- d * ((hr + ho) / 2 - e)) with u by field;
    generalize (sin2_cos2 v); unfold Rsqr; intros Hsc;
    transitivity (m * m * (exp u * exp u) * (sin v * sin v + cos v * cos v));
      [rewrite Hsc|]; ring
end.
Qed.

(** X27. The energy bound limits the growth of the weight. If the hybrid energy
    cached in the walker is within [ebound] of the reference energy, then a
    phaseless step that leaves a finite hybrid energy multiplies a
    non-negative weight by at most [|mf_const_fac| * exp(dt * ebound)], and
    the weight stays non-negative. *)
Theorem phaseless_step_weight_growth
    self walker system trial eshift xi self' walker' d b m w e f ho hoi :
  dt self = Fin d -> 0 < d ->
  ebound self = Fin b -> 0 <= b ->
  mf_const_fac self = Fin m ->
  eshift = Cx (Fin e) (Fin f) ->
  weight walker = Fin w -> 0 <= w ->
  hybrid_energy walker = Cx (Fin ho) (Fin hoi) -> Rabs (ho - e) <= b ->
  propagate_walker_phaseless self walker system trial eshift xi
    = Ok (self', walker') ->
  cfin (hybrid_energy walker') ->
  exists w', weight walker' = Fin w' /\
             0 <= w' <= w * (Rabs m * exp (d * b)).
Proof.
intros Hd Hd0 Hb Hb0 Hm -> Hw Hw0 Hho Hhob Hstep Hfin.
destruct (propagate_walker_phaseless_inv Hstep) as [l [Hl [_ Hre]]].
destruct (reweight_inv Hre) as [_ [_ [Hh Hweight]]].
destruct (phaseless_importance_inv Hl)
  as [s1 [hyb [Hs [Hls [Hlh [Himp [Hlho Hlw]]]]]]].
destruct (settings_eq Hs) as [Hds [Hbs Hms]].
destruct (apply_bound_counters s1 hyb (Cx (Fin e) (Fin f))) as [Hs' _].
destruct (settings_eq Hs') as [Hds' [_ Hms']].
rewrite Hh Hlh in Hfin.
destruct (@apply_bound_finite_range s1 hyb (Cx (Fin e) (Fin f)) b e)
  as [hr [Hhr Hrange]]; [now rewrite Hbs|exact Hb0|reflexivity|exact Hfin|].
destruct (cfinP Hfin) as [hr' [hi Hval]].
rewrite Hval in Hhr; cbn [re] in Hhr; injection Hhr as ->.
rewrite Hlh Hval in Himp.
assert (Hmod := @importance_modulus (l_self l) (l_walker l) hr hi ho hoi e f
                  d m (l_importance_function l)).
rewrite Hls Hds' Hds Hms' Hms Hlho -Hls in Hmod.
specialize (Hmod Hd Hm Hho Himp).
rewrite Hmod in Hweight; cbn [math_isinf] in Hweight.
destruct Hweight as [c [Hc ->]]; rewrite Hlw Hw; cbn [fmul].
eexists; split; [reflexivity|].
set (z := - d * ((hr + ho) / 2 - e)).
assert (Hz : z <= d * b).
{ apply Rabs_le_iff in Hrange; apply Rabs_le_iff in Hhob.
  assert (H0 : 0 <= d * ((hr + ho) / 2 - e + b))
    by (apply Rmult_le_pos; Lra.lra).
  unfold z; Lra.lra. }
assert (Hexp : exp z <= exp (d * b)).
{ destruct Hz as [Hlt| ->]; [left; now apply exp_increasing|right; reflexivity]. }
assert (He0 : 0 < exp z) by apply exp_pos.
assert (Hm0 : 0 <= Rabs m) by apply Rabs_pos.
assert (HM : 0 <= Rabs m * exp z) by (apply Rmult_le_pos; Lra.lra).
assert (HM1 : Rabs m * exp z * c <= Rabs m * exp z).
{ rewrite -{2}(Rmult_1_r (Rabs m * exp z)).
  apply Rmult_le_compat_l; Lra.lra. }
assert (HM2 : Rabs m * exp z <= Rabs m * exp (d * b))
  by (apply Rmult_le_compat_l; Lra.lra).
split.
- apply Rmult_le_pos; [exact Hw0|apply Rmult_le_pos; Lra.lra].
- apply Rmult_le_compat_l; [exact Hw0|Lra.lra].
Qed.

Lemma max0_Fin c : max0 (Fin c) = Fin (Rmax 0 c).
Proof.
unfold max0, fgt; cbn [flt].
destruct (Rlt_dec 0 c) as [H|H]; simpl; f_equal; symmetry;
  [apply Rmax_right|apply Rmax_left]; Lra.lra.
Qed.

(** The weight update on finite data, within the model. *)
Lemma phaseless_weight_update_finite
    self walker system trial eshift xi l d hr hi cr ci a b w :
  phaseless_importance self walker system trial eshift xi = Ok l ->
  dt self = Fin d ->
  l_hybrid_energy l = Cx (Fin hr) (Fin hi) ->
  l_cfb l = Cx (Fin cr) (Fin ci) ->
  l_importance_function l = Cx (Fin a) (Fin b) ->
  weight walker = Fin w ->
  exists walker',
    propagate_walker_phaseless self walker system trial eshift xi
      = Ok (l_self l, walker') /\
    weight walker'
      = Fin (w * (sqrt (a * a + b * b) * Rmax 0 (cos (- d * hi - ci)))).
Proof.
intros Hl Hd Hh Hcfb Himp Hw.
destruct (phaseless_importance_inv Hl)
  as [s1 [hyb [Hs [Hls [_ [_ [_ Hlw]]]]]]].
destruct (settings_eq Hs) as [Hds _].
destruct (apply_bound_counters s1 hyb eshift) as [Hs' _].
destruct (settings_eq Hs') as [Hds' _].
assert (Hdl : dt (l_self l) = Fin d) by (now rewrite Hls Hds' Hds).
unfold Propagation.propagate_walker_phaseless; rewrite Hl; cbn [bind].
unfold reweight; rewrite Himp Hh Hcfb Hdl.
cbn [cmath_polar fst c_abs re im hypot math_isinf negb].
cx_simpl; cbn [math_cos bind]; rewrite max0_Fin.
assert (Hweight : forall wfac,
  weight (update_field_configs
            (set_ot (set_weight (set_hybrid_energy (l_walker l)
                        (Cx (Fin hr) (Fin hi)))
                      (fmul (weight (set_hybrid_energy (l_walker l)
                                       (Cx (Fin hr) (Fin hi))))
                         (fmul (Fin (sqrt (a * a + b * b)))
                            (Fin (Rmax 0 (cos (- d * hi + 0 * hr + - ci)))))))
               (l_ot_new l)) (l_xmxbar l) wfac)
  = Fin (w * (sqrt (a * a + b * b) * Rmax 0 (cos (- d * hi - ci))))).
{ intros wfac; cbn [weight update_field_configs set_ot set_weight
                    set_hybrid_energy].
  rewrite Hlw Hw; cbn [fmul].
  now replace (- d * hi + 0 * hr + - ci) with (- d * hi - ci) by ring. }
unfold fgt.
destruct (flt (Fin (/ 10 ^ 16)) (Fin (sqrt (a * a + b * b)))) eqn:E.
- apply flt_Fin in E.
  assert (Hm : sqrt (a * a + b * b) <> 0).
  { assert (0 < / 10 ^ 16) by (apply Rinv_0_lt_compat; Lra.lra).
    Lra.lra. }
  rewrite (complex_div_finite a b (or_introl Hm)); cbn [bind].
  eexists; split; [reflexivity|apply Hweight].
- cbn [bind]; eexists; split; [reflexivity|apply Hweight].
Qed.

(** X26. Whenever a phaseless step returns and its hybrid energy, its constant
    factor [cfb] and its importance function are finite, the new weight is
    the old one times the modulus of the importance function times
    [max(0, cos(theta))], where [theta] is the imaginary part of
    [-dt * hybrid_energy - cfb]. *)
Theorem phaseless_weight_update
    self walker system trial eshift xi l d hr hi cr ci a b w self' walker' :
  phaseless_importance self walker system trial eshift xi = Ok l ->
  dt self = Fin d ->
  l_hybrid_energy l = Cx (Fin hr) (Fin hi) ->
  l_cfb l = Cx (Fin cr) (Fin ci) ->
  l_importance_function l = Cx (Fin a) (Fin b) ->
  weight walker = Fin w ->
  propagate_walker_phaseless self walker system trial eshift xi
    = Ok (self', walker') ->
  weight walker'
    = Fin (w * (sqrt (a * a + b * b) * Rmax 0 (cos (- d * hi - ci)))).
Proof.
intros Hl Hd Hh Hcfb Himp Hw Hstep.
destruct (phaseless_weight_update_finite Hl Hd Hh Hcfb Himp Hw)
  as [w0 [Heq Hw0]].
rewrite Hstep in Heq; injection Heq as _ <-; exact Hw0.
Qed.

(** *** The free-projection step *)

Lemma c_abs_rotation p q r s :
  r = 0 ->
  c_abs (cmul (Cx (Fin p) (Fin q))
              (Cx (Fin (exp r * cos s)) (Fin (exp r * sin s))))
    = c_abs (Cx (Fin p) (Fin q)).
Proof.
intros ->; rewrite exp_0; cx_simpl; unfold c_abs; cbn [re im hypot].
do 2 f_equal.
generalize (sin2_cos2 s); unfold Rsqr; intros H.
transitivity ((p * p + q * q) * (sin s * sin s + cos s * cos s));
  [ring|rewrite H; ring].
Qed.

(** The free-projection step on finite data, within the model. *)
Lemma propagate_walker_free_finite
    self walker system trial eshift xi w :
  let xbar :=
    initial_force_bias self (apply_kinetic self walker system) system trial in
  size xbar = nfields system -> size xi = nfields system ->
  size (mf_shift (propagator self)) = nfields system ->
  all cfin xbar -> all is_finite xi ->
  all cfin (mf_shift (propagator self)) ->
  is_finite (sqrt_dt self) -> is_finite (dt self) -> cfin eshift ->
  weight walker = Fin w -> cfin (phase walker) ->
  exists self' walker' m,
    propagate_walker_free self walker system trial eshift xi
      = Ok (self', walker') /\
    0 < m /\ weight walker' = Fin (w * m) /\
    c_abs (phase walker') = c_abs (phase walker) /\
    ot walker' = calc_otrial (phi walker') (inv_ovlp walker') trial /\
    hybrid_energy walker' = hybrid_energy walker.
Proof.
intros xbar Hsb Hsx Hsm Hfb Hfx Hfm Hsq Hdt Hes Hw Hph.
destruct (@two_body_propagator_ok _ dot div_int add _ self
            (apply_kinetic self walker system) system trial xi
            Hsb Hsx Hsm Hfb Hfx Hfm Hsq)
  as [w1 [cmf [cfb [xs [H2 [Hcmf _]]]]]].
destruct (two_body_propagator_inv H2)
  as [_ [_ [_ [_ [Hw1 [Hp1 [_ [Hh1 _]]]]]]]].
cbn [weight phase hybrid_energy Propagation.apply_kinetic set_phi]
  in Hw1, Hp1, Hh1.
unfold Propagation.propagate_walker_free; rewrite H2.
cbn [bind fst snd dt set_nfb_trig].
match goal with
| |- context [cmath_exp ?z] =>
    assert (Hz : cfin z)
      by (apply cfin_cadd; [exact Hcmf|];
          apply cfin_cmul; [now apply cfin_of_float|exact Hes]);
    destruct (cfinP Hz) as [x [y ->]]
end.
cbn [cmath_exp re im bind cmath_polar fst snd c_abs hypot atan2].
rewrite exp_modulus; cx_simpl; cbn [cmath_exp re im bind].
destruct (cfinP Hph) as [p [q Hpq]].
do 2 eexists; exists (exp x); split; [reflexivity|].
cbn [weight phase ot hybrid_energy phi inv_ovlp set_phase set_weight
     Propagation.greens_function set_G set_ot Propagation.inverse_overlap
     set_inv_ovlp Propagation.apply_kinetic set_phi].
rewrite Hw1 Hw Hp1 Hh1 Hpq; cbn [fmul].
split; [apply exp_pos|split; [reflexivity|split; [|split; reflexivity]]].
apply c_abs_rotation; ring.
Qed.

(** X21. Whenever a free-projection step on finite data returns, it has
    multiplied the weight by a number that is not negative, kept the modulus
    of the phase, stored the overlap of the propagated determinant with the
    trial state and left the cached hybrid energy alone. *)
Theorem propagate_walker_free_weight_and_phase
    self walker system trial eshift xi w self' walker' :
  let xbar :=
    initial_force_bias self (apply_kinetic self walker system) system trial in
  size xbar = nfields system -> size xi = nfields system ->
  size (mf_shift (propagator self)) = nfields system ->
  all cfin xbar -> all is_finite xi ->
  all cfin (mf_shift (propagator self)) ->
  is_finite (sqrt_dt self) -> is_finite (dt self) -> cfin eshift ->
  weight walker = Fin w -> cfin (phase walker) ->
  propagate_walker_free self walker system trial eshift xi
    = Ok (self', walker') ->
  exists m,
    0 <= m /\ weight walker' = Fin (w * m) /\
    c_abs (phase walker') = c_abs (phase walker) /\
    ot walker' = calc_otrial (phi walker') (inv_ovlp walker') trial /\
    hybrid_energy walker' = hybrid_energy walker.
Proof.
intros xbar Hsb Hsx Hsm Hfb Hfx Hfm Hsq Hdt Hes Hw Hph Hstep.
destruct (@propagate_walker_free_finite self walker system trial eshift xi w
            Hsb Hsx Hsm Hfb Hfx Hfm Hsq Hdt Hes Hw Hph)
  as [s1 [w1 [m [Heq [Hm H]]]]].
rewrite Hstep in Heq; injection Heq as _ <-.
exists m; split; [Lra.lra|exact H].
Qed.

(** *** Vanishing overlaps *)

(** X24. When the stored overlap is finite and not zero but the overlap of the
    propagated determinant with the trial state is zero, the overlap ratio is
    zero and the phaseless step raises [ValueError], at [cmath.log]. *)
Theorem phaseless_step_vanishing_overlap
    self walker system trial eshift xi s1 w1 out :
  two_body_propagator self (apply_kinetic self walker system) system trial xi
    = Ok (s1, w1, out) ->
  cfin (ot walker) -> cnonzero (ot walker) ->
  (let moved :=
     greens_function
       (inverse_overlap (apply_kinetic s1 w1 system) trial) trial in
   calc_otrial (phi moved) (inv_ovlp moved) trial = c0) ->
  propagate_walker_phaseless self walker system trial eshift xi
    = Raise ValueError.
Proof.
intros H2 Hfin Hnz Hzero.
destruct (two_body_propagator_inv H2) as [_ [_ [_ [_ [_ [_ [Ho _]]]]]]].
unfold Propagation.propagate_walker_phaseless,
  Propagation.phaseless_importance.
rewrite H2; cbn [bind fst snd]; cbv zeta in Hzero; rewrite Hzero.
change (ot (greens_function
          (inverse_overlap (apply_kinetic s1 w1 system) trial) trial))
  with (ot w1).
rewrite Ho; change (ot (apply_kinetic self walker system)) with (ot walker).
destruct (cfinP Hfin) as [c [e He]]; rewrite He in Hnz |- *.
apply cnonzero_Fin in Hnz.
unfold c0; rewrite (complex_div_finite 0 0 Hnz); cbn [bind].
unfold cmath_log; cbn [re im].
assert (H1 : (0 * c + 0 * e) / (c * c + e * e) = 0)
  by (unfold Rdiv; ring).
assert (H3 : (0 * c - 0 * e) / (c * c + e * e) = 0)
  by (unfold Rdiv; ring).
now rewrite (proj2 (feq_Fin _ 0) H1) (proj2 (feq_Fin _ 0) H3).
Qed.

End Steps.

(** *** The expansion on one-by-one real matrices *)

Section ScalarDeterminants.

Variable Trial : Type.

(** [V.dot(T)], [T / n] and [phi + T] when the arrays are one-by-one real
    matrices. *)
Definition scalar_dot (v t : R) : R := v * t.
Definition scalar_div (t : R) (n : nat) : R := t / INR n.
Definition scalar_add (p t : R) : R := p + t.

Lemma taylor_loop (phi0 v : R) n :
  foldl (fun (st : R * R) (k : nat) =>
           (scalar_div (scalar_dot v st.1) k,
            scalar_add st.2 (scalar_div (scalar_dot v st.1) k)))
        (phi0, phi0) (iota 1 n)
  = (phi0 * v ^ n / INR (fact n),
     phi0 * sum_f_R0 (fun k => v ^ k / INR (fact k)) n).
Proof.
induction n as [|n IH].
- cbn; f_equal; field.
- assert (Hi : iota 1 n.+1 = iota 1 n ++ [:: n.+1])
    by (now rewrite -(addn1 n) iotaD add1n addn1).
  rewrite Hi foldl_cat IH; cbn [foldl fst snd].
  unfold scalar_div, scalar_dot, scalar_add.
  assert (Hn : INR n.+1 <> 0) by (apply not_0_INR; discriminate).
  assert (Hf := INR_fact_neq_0 n).
  assert (Hfs : INR (fact n.+1) = INR n.+1 * INR (fact n))
    by (rewrite fact_simpl; apply mult_INR).
  cbn [sum_f_R0 pow]; rewrite Hfs; f_equal; now field.
Qed.

(** X15. On one-by-one real matrices [apply_exponential] returns [phi] times
    the Taylor polynomial of the exponential of [VHS] of degree [exp_nmax]:
    the sum of [VHS^k / k!] for [k] from 0 to [exp_nmax] (the lone term 1
    when [exp_nmax] is not positive). *)
Theorem apply_exponential_taylor (self : Continuous R Trial) (phi0 v : R) :
  apply_exponential scalar_dot scalar_div scalar_add self phi0 v
    = phi0 * sum_f_R0 (fun k => v ^ k / INR (fact k))
               (Z.to_nat (exp_nmax self)).
Proof.
unfold apply_exponential.
exact (f_equal snd (taylor_loop phi0 v (Z.to_nat (exp_nmax self)))).
Qed.

End ScalarDeterminants.


(** *** Closed instances *)

Local Notation one := (Cx (Fin 1) (Fin 0)).
Local Notation init1 :=
  (__init__ (stub_class bias23) (stub_class bias23) (stub_class bias23)).
Local Notation two_body1 := (two_body_propagator nd_dot nd_div nd_add).
Local Notation importance1 z :=
  (phaseless_importance nd_dot nd_div nd_add nd_inverse_overlap
     nd_greens_function (const_otrial z) nd_kinetic_real).
Local Notation phaseless1 z :=
  (propagate_walker_phaseless nd_dot nd_div nd_add nd_inverse_overlap
     nd_greens_function (const_otrial z) nd_kinetic_real).
Local Notation free1 :=
  (propagate_walker_free nd_dot nd_div nd_add nd_inverse_overlap
     nd_greens_function (const_otrial one) nd_kinetic_real).
Local Notation steps1 :=
  (propagate_steps nd_dot nd_div nd_add nd_inverse_overlap
     nd_greens_function (const_otrial one) nd_kinetic_real).

(** A system whose name [get_continuous_propagator] does not know. *)
Definition ising : System :=
  {| name := "Ising"; nfields := 2; nup := 1; ndown := 1 |}.

(** A system with three auxiliary fields. *)
Definition hubbard3 : System :=
  {| name := "Hubbard"; nfields := 3; nup := 1; ndown := 1 |}.

Definition bias3 : seq pycomplex := [:: c0; c0; c0].

Definition xi3 : seq pyfloat := [:: Fin 0; Fin 0; Fin 0].

(** Options with a zero time step. *)
Definition qmc_zero : QMCOpts := {| qmc_dt := Fin 0; qmc_nstblz := 10 |}.

(** Options that set none of the keys the constructor reads. *)
Definition other_options : seq (string * pyval) :=
  [:: ("hubbard_stratonovich"%string, VBool true)].

(** A propagator in free-projection mode. *)
Definition free_self : Continuous unit unit :=
  {| free_projection := true; force_bias := false; exp_nmax := 6;
     dt := Fin (1 / 100); sqrt_dt := Fin (sqrt (1 / 100));
     isqrt_dt := Cx (Fin 0) (Fin (sqrt (1 / 100)));
     propagator := stub_propagator bias23;
     mf_const_fac := Fin 1; BT_BP := tt; nstblz := 10;
     nfb_trig := 0; nhe_trig := 0; ebound := Fin (sqrt (2 / (1 / 100)));
     mean_local_energy := 0; verbose := false |}.

(** A propagator whose expansion order is zero. *)
Definition order0_self : Continuous unit unit :=
  {| free_projection := false; force_bias := true; exp_nmax := 0;
     dt := Fin (1 / 100); sqrt_dt := Fin (sqrt (1 / 100));
     isqrt_dt := Cx (Fin 0) (Fin (sqrt (1 / 100)));
     propagator := stub_propagator bias23;
     mf_const_fac := Fin 1; BT_BP := tt; nstblz := 10;
     nfb_trig := 0; nhe_trig := 0; ebound := Fin (sqrt (2 / (1 / 100)));
     mean_local_energy := 0; verbose := false |}.

Lemma dt_not_negative : flt (qmc_dt qmc_opts) (Fin 0) = false.
Proof. apply flt_Fin_false; Lra.lra. Qed.

Lemma bound_nonneg : 0 <= sqrt (2 / (1 / 100)).
Proof. apply sqrt_pos. Qed.

Lemma zero_within_bound : Rabs (0 - 0) <= sqrt (2 / (1 / 100)).
Proof. rewrite Rminus_0_r Rabs_R0; apply sqrt_pos. Qed.

Lemma init_other_options :
  exists self, init1 hubbard2 tt qmc_opts other_options false = Ok self.
Proof.
destruct (@init_ok _ _ (stub_class bias23) (stub_class bias23)
            (stub_class bias23) hubbard2 tt qmc_opts other_options false
            (1 / 100) (stub_propagator bias23) (erefl _) dt_positive (erefl _))
  as [self [H _]].
now exists self.
Qed.

Lemma two_body_ok1 (self : Continuous unit unit) (walker : Walker unit) :
  force_bias self = true -> propagator self = stub_propagator bias23 ->
  is_finite (sqrt_dt self) ->
  exists walker' out,
    two_body1 self walker hubbard2 tt xi0
      = Ok (set_nfb_trig self (nfb_trig self + 2), walker', out).
Proof.
intros Hfb Hp Hsq.
assert (Hb : initial_force_bias self walker hubbard2 tt = bias23)
  by (unfold initial_force_bias; now rewrite Hfb Hp).
destruct (@two_body_propagator_ok _ nd_dot nd_div nd_add _
            self walker hubbard2 tt xi0)
  as [w [cmf [cfb [xs [H _]]]]]; rewrite ?Hb ?Hp; try reflexivity.
{ exact Hsq. }
exists w, (cmf, cfb, xs); rewrite H Hb.
now rewrite count_bias23.
Qed.

(** The phaseless step of the reference walker. *)
Lemma phaseless_walker1 :
  exists l self' walker' hr hi cr ci a b,
    importance1 one (phaseless_self bias23) walker1 hubbard2 tt c0 xi0 = Ok l /\
    phaseless1 one (phaseless_self bias23) walker1 hubbard2 tt c0 xi0
      = Ok (self', walker') /\
    l_hybrid_energy l = Cx (Fin hr) (Fin hi) /\
    l_cfb l = Cx (Fin cr) (Fin ci) /\
    l_importance_function l = Cx (Fin a) (Fin b) /\
    hybrid_energy walker' = l_hybrid_energy l.
Proof.
destruct (@phaseless_importance_ok _ nd_dot nd_div nd_add _
            nd_inverse_overlap nd_greens_function (const_otrial one)
            nd_kinetic_real (phaseless_self bias23) walker1 hubbard2 tt c0 xi0
            (1 / 100)
            (erefl _) (erefl _) (erefl _) (erefl _) (erefl _) (erefl _)
            (erefl _) (erefl _) dt_nonzero (erefl _) (erefl _) (erefl _)
            (erefl _) (erefl _) cnonzero_ot_walker1 const_otrial_one)
  as [l [Hl [Himp [Hhyb [Hcfb Hdl]]]]].
assert (Hdt : is_finite (dt (l_self l))) by (now rewrite Hdl).
destruct (@reweight_ok _ _ (l_self l) (l_walker l) _ _ _ (l_ot_new l)
            (l_xmxbar l) Hdt Himp Hhyb Hcfb) as [w' Hw'].
destruct (reweight_inv Hw') as [_ [_ [Hh _]]].
destruct (cfinP Hhyb) as [hr [hi Ehyb]].
destruct (cfinP Hcfb) as [cr [ci Ecfb]].
destruct (cfinP Himp) as [a [b Eimp]].
exists l, (l_self l), w', hr, hi, cr, ci, a, b.
split; [exact Hl|split; [|split; [exact Ehyb|split; [exact Ecfb|]]]].
- unfold Propagation.propagate_walker_phaseless; rewrite Hl; cbn [bind].
  now rewrite Hw'.
- split; [exact Eimp|exact Hh].
Qed.

(** An instance of X11. *)
Lemma init_unknown_system_witness :
  flt (qmc_dt qmc_opts) (Fin 0) = false /\ known_system ising = false /\
  init1 ising tt qmc_opts [::] false = Raise AttributeError.
Proof.
split; [exact dt_not_negative|split; [reflexivity|]].
exact (@init_unknown_system _ _ (stub_class bias23) (stub_class bias23)
         (stub_class bias23) ising tt qmc_opts [::] false dt_not_negative
         (erefl _)).
Defined.

(** An instance of X12. *)
Lemma init_zero_time_step_witness :
  qmc_dt qmc_zero = Fin 0 /\ known_system hubbard2 /\
  init1 hubbard2 tt qmc_zero [::] false = Raise ZeroDivisionError.
Proof.
split; [reflexivity|split; [reflexivity|]].
exact (@init_zero_time_step _ _ (stub_class bias23) (stub_class bias23)
         (stub_class bias23) hubbard2 tt qmc_zero [::] false (erefl _)
         (erefl _)).
Defined.

(** An instance of X13. *)
Lemma init_derived_attributes_witness :
  exists self s b,
    init1 hubbard2 tt qmc_opts [::] false = Ok self /\
    Some (propagator self)
      = get_continuous_propagator (stub_class bias23) (stub_class bias23)
          (stub_class bias23) hubbard2 tt qmc_opts [::] /\
    dt self = Fin (1 / 100) /\
    sqrt_dt self = Fin s /\ 0 < s /\ s * s = 1 / 100 /\
    isqrt_dt self = Cx (Fin 0) (Fin s) /\
    ebound self = Fin b /\ 0 < b /\ b * b * (1 / 100) = 2 /\
    mf_const_fac self
      = math_exp (fmul (Fin (- (1 / 100))) (re (mf_core (propagator self)))) /\
    BT_BP self = BH1 (propagator self) /\
    nstblz self = qmc_nstblz qmc_opts /\
    nfb_trig self = 0%Z /\ nhe_trig self = 0%Z.
Proof.
destruct init_default as [self [Hinit _]].
destruct (@init_derived_attributes _ _ (stub_class bias23)
            (stub_class bias23) (stub_class bias23) hubbard2 tt qmc_opts
            [::] false (1 / 100) self (erefl _) dt_positive Hinit)
  as [s [b H]].
exists self, s, b; split; [exact Hinit|exact H].
Defined.

(** An instance of X14. *)
Lemma init_default_policy_witness :
  exists self,
    init1 hubbard2 tt qmc_opts other_options false = Ok self /\
    free_projection self = false /\ force_bias self = true /\
    exp_nmax self = 6%Z /\
    propagate_walker nd_dot nd_div nd_add nd_inverse_overlap
      nd_greens_function (const_otrial one) nd_kinetic_real self
    = phaseless1 one self.
Proof.
destruct init_other_options as [self Hinit].
exists self; split; [exact Hinit|].
exact (@init_default_policy _ nd_dot nd_div nd_add _ nd_inverse_overlap
         nd_greens_function (const_otrial one) nd_kinetic_real
         (stub_class bias23) (stub_class bias23) (stub_class bias23)
         hubbard2 tt qmc_opts other_options false self
         (erefl _) (erefl _) (erefl _) Hinit).
Defined.

(** An instance of X16. *)
Lemma two_body_propagator_order0_witness :
  exists self' walker' out,
    two_body1 order0_self walker1 hubbard2 tt xi0 = Ok (self', walker', out) /\
    phi walker' = phi walker1.
Proof.
destruct (@two_body_ok1 order0_self walker1 (erefl _) (erefl _) (erefl _))
  as [w [o H]].
exists (set_nfb_trig order0_self (nfb_trig order0_self + 2)), w, o.
split; [exact H|].
exact (@two_body_propagator_order0 _ nd_dot nd_div nd_add _ order0_self
         walker1 hubbard2 tt xi0 _ w o (Z.le_refl 0) H).
Defined.

(** An instance of X17. *)
Lemma two_body_propagator_short_bias_witness :
  (size (initial_force_bias (phaseless_self [:: c0]) walker1 hubbard2 tt)
     < nfields hubbard2)%nat /\
  two_body1 (phaseless_self [:: c0]) walker1 hubbard2 tt xi0
    = Raise IndexError.
Proof.
split; [reflexivity|].
exact (@two_body_propagator_short_bias _ nd_dot nd_div nd_add _
         (phaseless_self [:: c0]) walker1 hubbard2 tt xi0 (erefl _)).
Defined.

Lemma mf_shift_too_short :
  size (mf_shift (propagator (phaseless_self bias3))) <> nfields hubbard3.
Proof. discriminate. Qed.

(** An instance of X18. *)
Lemma two_body_propagator_shift_length_witness :
  size (initial_force_bias (phaseless_self bias3) walker1 hubbard3 tt)
    = nfields hubbard3 /\
  size xi3 = nfields hubbard3 /\
  size (mf_shift (propagator (phaseless_self bias3))) <> nfields hubbard3 /\
  two_body1 (phaseless_self bias3) walker1 hubbard3 tt xi3 = Raise ValueError.
Proof.
split; [reflexivity|split; [reflexivity|split; [exact mf_shift_too_short|]]].
exact (@two_body_propagator_shift_length _ nd_dot nd_div nd_add _
         (phaseless_self bias3) walker1 hubbard3 tt xi3 (erefl _) (erefl _)
         mf_shift_too_short).
Defined.

(** An instance of X19. *)
Lemma two_body_propagator_without_force_bias_witness :
  exists walker' cmf,
    two_body1 free_self walker1 hubbard2 tt xi0
      = Ok (free_self, walker', (cmf, c0, [seq of_float x | x <- xi0])).
Proof.
exact (@two_body_propagator_without_force_bias _ nd_dot nd_div nd_add _
         free_self walker1 hubbard2 tt xi0 (erefl _) (erefl _) (erefl _)
         (erefl _)).
Defined.

(** An instance of X20. *)
Lemma two_body_propagator_bounded_shift_witness :
  exists self' walker' out xbar,
    two_body1 (phaseless_self bias23) walker1 hubbard2 tt xi0
      = Ok (self', walker', out) /\
    size xbar = nfields hubbard2 /\
    array_sub xi0 xbar = Ok out.2 /\
    all (fun x => cfin x && ~~ exceeds_one x) xbar /\
    [seq rescaled x | x <- xbar] = xbar.
Proof.
destruct two_body_bias23 as [w [o H]].
destruct (@two_body_propagator_bounded_shift _ nd_dot nd_div nd_add _
            (phaseless_self bias23) walker1 hubbard2 tt xi0 _ w o
            (erefl _) (erefl _) H) as [xbar Hx].
now exists (set_nfb_trig (phaseless_self bias23) 2), w, o, xbar.
Defined.

(** An instance of X21. *)
Lemma propagate_walker_free_weight_and_phase_witness :
  exists self' walker' m,
    free1 free_self walker1 hubbard2 tt c0 xi0 = Ok (self', walker') /\
    0 <= m /\ weight walker' = Fin (1 * m) /\
    c_abs (phase walker') = c_abs (phase walker1) /\
    ot walker' = const_otrial one (phi walker') (inv_ovlp walker') tt /\
    hybrid_energy walker' = hybrid_energy walker1.
Proof.
destruct (@propagate_walker_free_ok _ nd_dot nd_div nd_add _
            nd_inverse_overlap nd_greens_function (const_otrial one)
            nd_kinetic_real free_self walker1 hubbard2 tt c0 xi0
            (erefl _) (erefl _) (erefl _) (erefl _) (erefl _) (erefl _)
            (erefl _) (erefl _)) as [[s1 w1] Hstep].
destruct (@propagate_walker_free_weight_and_phase _ nd_dot nd_div nd_add _
            nd_inverse_overlap nd_greens_function (const_otrial one)
            nd_kinetic_real free_self walker1 hubbard2 tt c0 xi0 1 s1 w1
            (erefl _) (erefl _) (erefl _) (erefl _) (erefl _) (erefl _)
            (erefl _) (erefl _) (erefl _) (erefl _) (erefl _) Hstep)
  as [m Hm].
exists s1, w1, m; split; [exact Hstep|exact Hm].
Defined.

(** An instance of X22. *)
Lemma apply_bound_idempotent_witness :
  let r := apply_bound (phaseless_self bias23) (Cx (Fin 100) (Fin 1)) c0 in
  apply_bound r.1 r.2 c0 = r.
Proof.
exact (@apply_bound_idempotent _ _ (phaseless_self bias23)
         (Cx (Fin 100) (Fin 1)) c0 _ (erefl _) bound_nonneg (erefl _)
         (erefl _)).
Defined.

(** An instance of X23. *)
Lemma apply_bound_non_finite_witness :
  let self := phaseless_self bias23 in
  let b := sqrt (2 / (1 / 100)) in
  apply_bound self (Cx NaN (Fin 1)) c0 = (self, Cx NaN (Fin 1)) /\
  apply_bound self (Cx PInf (Fin 1)) c0
    = (set_nhe_trig self (nhe_trig self + 1), Cx (Fin (0 + b)) (Fin 1)) /\
  apply_bound self (Cx NInf (Fin 1)) c0
    = (set_nhe_trig self (nhe_trig self + 1), Cx (Fin (0 - b)) (Fin 1)).
Proof.
exact (@apply_bound_non_finite _ _ (phaseless_self bias23) 1 c0 _ 0
         (erefl _) (erefl _)).
Defined.

(** An instance of X24. *)
Lemma phaseless_step_vanishing_overlap_witness :
  cfin (ot walker1) /\ cnonzero (ot walker1) /\
  phaseless1 c0 (phaseless_self bias23) walker1 hubbard2 tt c0 xi0
    = Raise ValueError.
Proof.
split; [reflexivity|split; [exact cnonzero_ot_walker1|]].
destruct (@two_body_ok1 (phaseless_self bias23)
            (apply_kinetic nd_kinetic_real (phaseless_self bias23) walker1
               hubbard2) (erefl _) (erefl _) (erefl _)) as [w [o H]].
exact (@phaseless_step_vanishing_overlap _ nd_dot nd_div nd_add _
         nd_inverse_overlap nd_greens_function (const_otrial c0)
         nd_kinetic_real (phaseless_self bias23) walker1 hubbard2 tt c0 xi0
         _ w o H (erefl _) cnonzero_ot_walker1 (erefl _)).
Defined.

(** An instance of X25. *)
Lemma phaseless_step_hybrid_energy_bounded_witness :
  exists self' walker' x',
    phaseless1 one (phaseless_self bias23) walker1 hubbard2 tt c0 xi0
      = Ok (self', walker') /\
    re (hybrid_energy walker') = Fin x' /\
    Rabs (x' - 0) <= sqrt (2 / (1 / 100)).
Proof.
destruct phaseless_walker1
  as [l [s [w [hr [hi [cr [ci [a [b [_ [Hstep [Eh [_ [_ Hh]]]]]]]]]]]]]].
assert (Hfin : cfin (hybrid_energy w)) by (now rewrite Hh Eh).
destruct (@phaseless_step_hybrid_energy_bounded _ nd_dot nd_div nd_add _
            nd_inverse_overlap nd_greens_function (const_otrial one)
            nd_kinetic_real (phaseless_self bias23) walker1 hubbard2 tt c0
            xi0 s w _ 0 (erefl _) bound_nonneg (erefl _) Hstep Hfin)
  as [x' Hx'].
now exists s, w, x'.
Defined.

(** An instance of X26. *)
Lemma phaseless_weight_update_witness :
  exists l hi ci a b self' walker',
    importance1 one (phaseless_self bias23) walker1 hubbard2 tt c0 xi0 = Ok l /\
    phaseless1 one (phaseless_self bias23) walker1 hubbard2 tt c0 xi0
      = Ok (self', walker') /\
    weight walker'
      = Fin (1 * (sqrt (a * a + b * b)
                  * Rmax 0 (cos (- (1 / 100) * hi - ci)))).
Proof.
destruct phaseless_walker1
  as [l [s [w [hr [hi [cr [ci [a [b [Hl [Hstep [Eh [Ec [Ei _]]]]]]]]]]]]]].
exists l, hi, ci, a, b, s, w; split; [exact Hl|split; [exact Hstep|]].
exact (@phaseless_weight_update _ nd_dot nd_div nd_add _
         nd_inverse_overlap nd_greens_function (const_otrial one)
         nd_kinetic_real (phaseless_self bias23) walker1 hubbard2 tt c0
         xi0 l (1 / 100) hr hi cr ci a b 1 s w Hl (erefl _) Eh Ec Ei
         (erefl _) Hstep).
Defined.

(** An instance of X27. *)
Lemma phaseless_step_weight_growth_witness :
  exists self' walker' w',
    phaseless1 one (phaseless_self bias23) walker1 hubbard2 tt c0 xi0
      = Ok (self', walker') /\
    weight walker' = Fin w' /\
    0 <= w' <= 1 * (Rabs 1 * exp (1 / 100 * sqrt (2 / (1 / 100)))).
Proof.
destruct phaseless_walker1
  as [l [s [w [hr [hi [cr [ci [a [b [_ [Hstep [Eh [_ [_ Hh]]]]]]]]]]]]]].
assert (Hfin : cfin (hybrid_energy w)) by (now rewrite Hh Eh).
destruct (@phaseless_step_weight_growth _ nd_dot nd_div nd_add _
            nd_inverse_overlap nd_greens_function (const_otrial one)
            nd_kinetic_real (phaseless_self bias23) walker1 hubbard2 tt c0
            xi0 s w (1 / 100) _ 1 1 0 0 0 0
            (erefl _) dt_positive (erefl _) bound_nonneg (erefl _) (erefl _)
            (erefl _) Rle_0_1 (erefl _) zero_within_bound Hstep Hfin)
  as [w' Hw'].
now exists s, w, w'.
Defined.

(** An instance of X28. *)
Lemma propagate_steps_changes_counters_only_witness :
  exists self' walker',
    steps1 (phaseless_self bias23) walker1 hubbard2 tt [:: (c0, xi0)]
      = Ok (self', walker') /\
    settings self' = settings (phaseless_self bias23) /\
    (nhe_trig (phaseless_self bias23) <= nhe_trig self'
       <= nhe_trig (phaseless_self bias23) + Z.of_nat 1)%Z /\
    (nfb_trig (phaseless_self bias23) <= nfb_trig self'
       <= nfb_trig (phaseless_self bias23)
          + Z.of_nat (nfields hubbard2 * 1))%Z.
Proof.
destruct phaseless_walker1
  as [l [s [w [hr [hi [cr [ci [a [b [_ [Hstep _]]]]]]]]]]].
assert (Hrun : steps1 (phaseless_self bias23) walker1 hubbard2 tt
                 [:: (c0, xi0)] = Ok (s, w)).
{ cbn [Propagation.propagate_steps]; unfold Propagation.propagate_walker.
  cbn [free_projection phaseless_self]; now rewrite Hstep. }
exists s, w; split; [exact Hrun|].
exact (@propagate_steps_changes_counters_only _ nd_dot nd_div nd_add _
         nd_inverse_overlap nd_greens_function (const_otrial one)
         nd_kinetic_real (phaseless_self bias23) walker1 hubbard2 tt
         [:: (c0, xi0)] s w Hrun).
Defined.

End Dynamics.
